(** * Brief writer: model-fallback engine, title extraction, artifact naming

  A shallow embedding of [src/processor.py] (the video engine),
  [core/processor.py] (the transcript engine) and the per-file
  orchestrator of [src/main.py].

  Text is [String.string]; a character is a code point below 256 and the
  character classes are CPython's [str] classes on that range.  The
  gateway, the file system and the clock are oracles over an abstract
  world; every call the engine makes is recorded in a trace. *)

From Stdlib Require Import List String Ascii Bool Arith NArith ZArith QArith Lia.
From Stdlib Require Import DecimalString.
Import ListNotations.
Close Scope Q_scope.
Local Open Scope string_scope.

Set Implicit Arguments.
Set Warnings "-register-all".

(** ** Python [str] primitives *)

Module PyStr.

Definition code (c : ascii) : N := N_of_ascii c.

Definition between (lo hi : N) (c : ascii) : bool :=
  (N.leb lo (code c) && N.leb (code c) hi)%bool.

(** [c.isalpha()] *)
Definition isalpha (c : ascii) : bool :=
  between 65 90 c || between 97 122 c
  || N.eqb (code c) 170 || N.eqb (code c) 181 || N.eqb (code c) 186
  || between 192 214 c || between 216 246 c || between 248 255 c.

(** [c.isdecimal() or c.isdigit() or c.isnumeric()] *)
Definition isnumber (c : ascii) : bool :=
  between 48 57 c
  || N.eqb (code c) 178 || N.eqb (code c) 179 || N.eqb (code c) 185
  || between 188 190 c.

(** [c.isalnum()] *)
Definition isalnum (c : ascii) : bool := isalpha c || isnumber c.

(** [c.isspace()]; also the class [\s] of [re] and what [strip()] removes. *)
Definition isspace (c : ascii) : bool :=
  between 9 13 c || between 28 32 c
  || N.eqb (code c) 133 || N.eqb (code c) 160.

(** [c.lower()] *)
Definition lower_char (c : ascii) : ascii :=
  if between 65 90 c || between 192 214 c || between 216 222 c
  then ascii_of_N (code c + 32) else c.

Fixpoint map (f : ascii -> ascii) (s : string) : string :=
  match s with
  | EmptyString => EmptyString
  | String c r => String (f c) (map f r)
  end.

Fixpoint filter (p : ascii -> bool) (s : string) : string :=
  match s with
  | EmptyString => EmptyString
  | String c r => if p c then String c (filter p r) else filter p r
  end.

Fixpoint forallb (p : ascii -> bool) (s : string) : bool :=
  match s with
  | EmptyString => true
  | String c r => p c && forallb p r
  end.

(** [s.lower()] *)
Definition lower (s : string) : string := map lower_char s.

(** [c in chars], for a one-character [c]. *)
Fixpoint char_in (c : ascii) (chars : string) : bool :=
  match chars with
  | EmptyString => false
  | String d r => Ascii.eqb c d || char_in c r
  end.

(** [s.startswith(p)] *)
Fixpoint startswith (p s : string) : bool :=
  match p, s with
  | EmptyString, _ => true
  | String a p', String b s' => Ascii.eqb a b && startswith p' s'
  | String _ _, EmptyString => false
  end.

(** [needle in hay] *)
Fixpoint contains (needle hay : string) : bool :=
  startswith needle hay
  || match hay with
     | EmptyString => false
     | String _ r => contains needle r
     end.

(** [s.lstrip()] *)
Fixpoint lstrip (s : string) : string :=
  match s with
  | EmptyString => EmptyString
  | String c r => if isspace c then lstrip r else s
  end.

(** [s.rstrip()] *)
Fixpoint rstrip (s : string) : string :=
  match s with
  | EmptyString => EmptyString
  | String c r =>
      match rstrip r with
      | EmptyString => if isspace c then EmptyString else String c EmptyString
      | t => String c t
      end
  end.

(** [s.strip()] *)
Definition strip (s : string) : string := rstrip (lstrip s).

(** [s.replace(a, b)] for one-character [a] and [b]. *)
Definition replace_char (a b : ascii) (s : string) : string :=
  map (fun c => if Ascii.eqb c a then b else c) s.

Definition first_char (s : string) : option ascii :=
  match s with
  | EmptyString => None
  | String c _ => Some c
  end.

Fixpoint last_char (s : string) : option ascii :=
  match s with
  | EmptyString => None
  | String c EmptyString => Some c
  | String _ r => last_char r
  end.

(** The truth value of a string: [bool(s)]. *)
Definition truthy (s : string) : bool :=
  match s with EmptyString => false | _ => true end.

End PyStr.

(** ** Artifact naming ([process_video], the file-name clean-up) *)

Module Naming.
Import PyStr.

Definition kept (c : ascii) : bool := isalnum c || char_in c " -_()[]".

(** [''.join(c for c in file_title if c.isalnum() or c in ' -_()[]').strip()]
    followed by [.replace(' ', '_')]. *)
Definition safe_file_title (file_title : string) : string :=
  replace_char " "%char "_"%char (strip (filter kept file_title)).

End Naming.

(** ** A backtracking matcher for the patterns of [extract_title_from_brief]

    Python's [re] explores alternatives in priority order: the left branch
    of [|] first, a greedy repetition from the longest run down, a lazy one
    from the shortest run up, and [re.search] from the leftmost start
    position on.  The matcher below is written in continuation-passing
    style so that the first success in that order is the answer. *)

Module Regex.
Import PyStr.

Definition newline : ascii := "010"%char.
Definition dquote : ascii := "034"%char.

(** One-character classes. *)
Inductive cclass : Type :=
| COneOf (chars : string)      (* a literal character, or [[abc]] *)
| CNoneOf (chars : string)     (* [[^abc]] *)
| CDot                         (* [.]: anything but a newline *)
| CSpace.                      (* [\s] *)

Definition cmatch (k : cclass) (c : ascii) : bool :=
  match k with
  | COneOf chars => char_in c chars
  | CNoneOf chars => negb (char_in c chars)
  | CDot => negb (Ascii.eqb c newline)
  | CSpace => isspace c
  end.

(** Every repetition in the source patterns is over a single-character
    class, so [Star] carries a class. *)
Inductive regex : Type :=
| Eps
| Cls (k : cclass)
| Bol                                   (* [^], no MULTILINE flag *)
| Seq (r1 r2 : regex)
| Alt (r1 r2 : regex)
| Star (greedy : bool) (k : cclass)     (* [k*] and [k*?] *)
| Group (r : regex).                    (* the capturing group 1 *)

Definition Chr (c : ascii) : regex := Cls (COneOf (String c EmptyString)).

Fixpoint Lit (s : string) : regex :=
  match s with
  | EmptyString => Eps
  | String c r => Seq (Chr c) (Lit r)
  end.

(** [k+] *)
Definition Plus (k : cclass) : regex := Seq (Cls k) (Star true k).

(** [k?] *)
Definition Opt (k : cclass) : regex := Alt (Cls k) Eps.

Fixpoint seqs (rs : list regex) : regex :=
  match rs with
  | [] => Eps
  | [r] => r
  | r :: rest => Seq r (seqs rest)
  end.

(** The first [n] characters of [s]. *)
Fixpoint take (n : nat) (s : string) : string :=
  match n, s with
  | S m, String c r => String c (take m r)
  | _, _ => EmptyString
  end.

Section Matcher.
Variable A : Type.

Definition orelse (x y : option A) : option A :=
  match x with Some _ => x | None => y end.

Fixpoint star (greedy : bool) (k : cclass) (pos : nat) (s : string)
    (cont : nat -> string -> option A) : option A :=
  match s with
  | String c r =>
      if cmatch k c then
        if greedy
        then orelse (star greedy k (S pos) r cont) (cont pos s)
        else orelse (cont pos s) (star greedy k (S pos) r cont)
      else cont pos s
  | EmptyString => cont pos s
  end.

(** [run r pos s cap cont]: match [r] against [s], which starts at offset
    [pos] of the subject; [cap] is group 1 so far. *)
Fixpoint run (r : regex) (pos : nat) (s : string) (cap : option string)
    (cont : nat -> string -> option string -> option A) : option A :=
  match r with
  | Eps => cont pos s cap
  | Cls k =>
      match s with
      | String c t => if cmatch k c then cont (S pos) t cap else None
      | EmptyString => None
      end
  | Bol => if Nat.eqb pos 0 then cont pos s cap else None
  | Seq r1 r2 => run r1 pos s cap (fun pos' s' cap' => run r2 pos' s' cap' cont)
  | Alt r1 r2 => orelse (run r1 pos s cap cont) (run r2 pos s cap cont)
  | Star g k => star g k pos s (fun pos' s' => cont pos' s' cap)
  | Group r1 =>
      run r1 pos s cap (fun pos' s' _ => cont pos' s' (Some (take (pos' - pos) s)))
  end.

End Matcher.

(** A match object, reduced to what the callers read: [group(1)]. *)
Definition match_at (r : regex) (pos : nat) (s : string) : option (option string) :=
  run r pos s None (fun _ _ cap => Some cap).

(** [re.search(r, subject)], scanning from offset [pos]. *)
Fixpoint search_from (r : regex) (pos : nat) (s : string) : option (option string) :=
  match match_at r pos s with
  | Some m => Some m
  | None =>
      match s with
      | String _ t => search_from r (S pos) t
      | EmptyString => None
      end
  end.

Definition search (r : regex) (subject : string) : option (option string) :=
  search_from r 0 subject.

(** What a pattern denotes: [den r pos w cap cap'] says that [r] can match
    the word [w] at offset [pos], taking group 1 from [cap] to [cap']. *)
Inductive den : regex -> nat -> string -> option string -> option string -> Prop :=
| DEps pos cap : den Eps pos "" cap cap
| DCls k c pos cap :
    cmatch k c = true -> den (Cls k) pos (String c "") cap cap
| DBol cap : den Bol 0 "" cap cap
| DSeq r1 r2 pos w1 w2 c0 c1 c2 :
    den r1 pos w1 c0 c1 -> den r2 (pos + String.length w1) w2 c1 c2 ->
    den (Seq r1 r2) pos (w1 ++ w2) c0 c2
| DAltL r1 r2 pos w c0 c1 : den r1 pos w c0 c1 -> den (Alt r1 r2) pos w c0 c1
| DAltR r1 r2 pos w c0 c1 : den r2 pos w c0 c1 -> den (Alt r1 r2) pos w c0 c1
| DStar g k pos w cap :
    forallb (cmatch k) w = true -> den (Star g k) pos w cap cap
| DGroup r pos w c0 c1 : den r pos w c0 c1 -> den (Group r) pos w c0 (Some w).

(** [r] matches somewhere in [subject], with [group1] as group 1. *)
Definition occurs (r : regex) (subject : string) (group1 : option string) : Prop :=
  exists pre w post,
    subject = pre ++ w ++ post /\ den r (String.length pre) w None group1.

End Regex.

(** ** Title extraction ([extract_title_from_brief]) *)

Module Title.
Import PyStr Regex.

Definition quote_class : string := String dquote EmptyString.

(** [Ad (?:.*?):\s*Q([^Q]+)Q], writing Q for the double quote. *)
Definition title_pattern1 : regex :=
  seqs [Lit "Ad "; Star false CDot; Chr ":"; Star true CSpace;
        Chr dquote; Group (Plus (CNoneOf quote_class)); Chr dquote].

(** [Video Title:\s*Q([^Q]+)Q] *)
Definition title_pattern2 : regex :=
  seqs [Lit "Video Title:"; Star true CSpace;
        Chr dquote; Group (Plus (CNoneOf quote_class)); Chr dquote].

(** [(?:^|\n)\s*(?:Title|title):\s*Q?([^Q]{0,})Q?] *)
Definition title_pattern3 : regex :=
  seqs [Alt Bol (Chr newline); Star true CSpace;
        Alt (Lit "Title") (Lit "title"); Chr ":"; Star true CSpace;
        Opt (COneOf quote_class); Group (Star true (CNoneOf quote_class));
        Opt (COneOf quote_class)].

(** The third pattern, cut after the colon. *)
Definition pattern3_head : regex :=
  seqs [Alt Bol (Chr newline); Star true CSpace;
        Alt (Lit "Title") (Lit "title"); Chr ":"].

Definition pattern3_tail : regex :=
  seqs [Star true CSpace;
        Opt (COneOf quote_class); Group (Star true (CNoneOf quote_class));
        Opt (COneOf quote_class)].

Definition extract_title_from_brief (content_brief : string) : option string :=
  match search title_pattern1 content_brief with
  | Some m => m
  | None =>
      match search title_pattern2 content_brief with
      | Some m => m
      | None =>
          match search title_pattern3 content_brief with
          | Some m => m
          | None => None
          end
      end
  end.

(** The third pattern as the specification words it: [Title:] in any
    letter case at the start of a line, an optional quote, and the rest of
    that line captured. *)
Definition spec_pattern3 : regex :=
  seqs [Alt Bol (Chr newline);
        Cls (COneOf "Tt"); Cls (COneOf "Ii"); Cls (COneOf "Tt");
        Cls (COneOf "Ll"); Cls (COneOf "Ee"); Chr ":"; Star true CSpace;
        Opt (COneOf quote_class);
        Group (Star true (CNoneOf (String dquote (String newline EmptyString))));
        Opt (COneOf quote_class)].

(** The ordered-pattern definition of the specification. *)
Definition spec_extract_title (content_brief : string) : option string :=
  match search title_pattern1 content_brief with
  | Some m => m
  | None =>
      match search title_pattern2 content_brief with
      | Some m => m
      | None =>
          match search spec_pattern3 content_brief with
          | Some m => m
          | None => None
          end
      end
  end.

Definition q : string := quote_class.
Definition nl : string := String newline EmptyString.

Definition no_newline (s : string) : bool :=
  forallb (fun c => negb (Ascii.eqb c newline)) s.

Definition no_quote (s : string) : bool :=
  forallb (fun c => negb (Ascii.eqb c dquote)) s.

(** [Ad <anything>: Q<title>Q]: the marker, anything on the same line, a
    colon, optional whitespace and a non-empty quoted title. *)
Definition ad_title (s t : string) : Prop :=
  exists pre mid ws post,
    s = pre ++ "Ad " ++ mid ++ ":" ++ ws ++ q ++ t ++ q ++ post /\
    no_newline mid = true /\ forallb isspace ws = true /\
    t <> "" /\ no_quote t = true.

(** [Video Title: Q<title>Q] *)
Definition video_title (s t : string) : Prop :=
  exists pre ws post,
    s = pre ++ "Video Title:" ++ ws ++ q ++ t ++ q ++ post /\
    forallb isspace ws = true /\ t <> "" /\ no_quote t = true.

Fixpoint take_while (p : ascii -> bool) (s : string) : string :=
  match s with
  | EmptyString => EmptyString
  | String c r => if p c then String c (take_while p r) else EmptyString
  end.

Fixpoint drop_while (p : ascii -> bool) (s : string) : string :=
  match s with
  | EmptyString => EmptyString
  | String c r => if p c then drop_while p r else s
  end.

Definition drop_quote (s : string) : string :=
  match s with
  | String c r => if Ascii.eqb c dquote then r else s
  | EmptyString => EmptyString
  end.

(** What the third pattern captures from the text after the colon: past
    any whitespace and one opening quote, everything up to the next double
    quote or the end of the text. *)
Definition title_after (rest : string) : string :=
  take_while (fun c => negb (Ascii.eqb c dquote))
    (drop_quote (drop_while isspace rest)).

Definition line_start (pre : string) : Prop :=
  pre = "" \/ exists p, pre = p ++ nl.

(** [Title:] or [title:] first on a line (after optional whitespace), with
    [t] what follows the colon. *)
Definition title_line (s t : string) : Prop :=
  exists pre ws kw rest,
    s = pre ++ ws ++ kw ++ ":" ++ rest /\
    line_start pre /\ forallb isspace ws = true /\
    (kw = "Title" \/ kw = "title") /\
    t = title_after rest.

End Title.

(** ** The gateway, the file system and the clock *)

Module Py.

(** Request payloads: strings, lists and dicts with string keys. *)
Inductive pyval : Type :=
| VStr (s : string)
| VList (items : list pyval)
| VDict (entries : list (string * pyval)).

(** The exceptions that travel through the engine.  [GatewayError] is
    whatever [load_model] or [invoke] raised, [OSError] whatever saving the
    brief raised; only their text is ever inspected. *)
Inductive exn : Type :=
| RuntimeError (msg : string)
| FileNotFoundError (msg : string)
| UnboundLocalError (var : string)
| GatewayError (msg : string)
| OSError (msg : string).

(** [str(e)]; the text for an unbound local is CPython's (3.11 and later). *)
Definition str_exn (e : exn) : string :=
  match e with
  | RuntimeError m | FileNotFoundError m | GatewayError m | OSError m => m
  | UnboundLocalError v =>
      "cannot access local variable '" ++ v
      ++ "' where it is not associated with a value"
  end.

(** The keys of the configuration dictionary the engine reads.
    [FALLBACK_MODELS] is read with [config.get] and may be absent. *)
Record Config : Type := mkConfig {
  DEFAULT_LLM_MODEL : string;
  FALLBACK_MODELS : option (list string);
  LLM_TEAM : string;
  LLM_USE_CASE : string;
  SYSTEM_PROMPT_PATH : string;
  BRIEF_DIR : string;
  BRIEF_EXTENSION : string
}.

Definition DEFAULT_FALLBACK_MODELS : list string :=
  ["gemini-2.5-pro"; "gemini-2.5-flash"; "gemini-2.0-flash-001";
   "gemini-2.0-flash-lite-001"; "anthropic.claude-3-sonnet-20240229-v1:0"].

(** [x or y] on optional strings: [None] and the empty string are falsy. *)
Definition or_else (x : option string) (y : string) : string :=
  match x with
  | Some s => if PyStr.truthy s then s else y
  | None => y
  end.

End Py.

(** ** The video engine ([src/processor.py]) *)

Module Engine.
Import Py PyStr.

Section Gateway.
Variables World Handle : Type.

(** The collaborators: [wise_chain.load_model], the handle's [invoke],
    reading the prompt file ([None]: the file is missing), [os.path.exists],
    saving the brief ([os.makedirs], [open], [write]; [Some] text: the
    error raised), [os.path.join], and
    [os.path.splitext(os.path.basename(p))[0]]. *)
Record Oracles : Type := mkOracles {
  load_model : string -> string -> string -> World -> (string + Handle) * World;
  invoke : Handle -> pyval -> option string -> World -> (string + string) * World;
  read_text : string -> World -> option string;
  path_exists : string -> World -> bool;
  write_text : string -> string -> World -> option string * World;
  os_path_join : string -> string -> string;
  video_stem : string -> string
}.

Inductive event : Type :=
| EvLoad (model : string) (res : string + Handle)
| EvInvoke (h : Handle) (payload : pyval) (system : option string)
    (res : string + string)
| EvSleep (seconds : Q)
| EvWrite (path content : string) (res : option string).

(** [Processor.__init__] sets these attributes. *)
Record Processor : Type := mkProcessor {
  config : Config;
  primary_model_name : string;
  _llm : option Handle;
  _system_prompt : option string;
  working_model_name : option string
}.

(** The locals of [process_video] that outlive one loop iteration. *)
Record Locals : Type := mkLocals {
  content_brief : option string;
  error_msg : option string
}.

Record St : Type := mkSt {
  self : Processor;
  world : World;
  trace : list event;
  frame : Locals
}.

Definition M (A : Type) : Type := St -> (exn + A) * St.

Definition ret {A : Type} (a : A) : M A := fun st => (inr a, st).

Definition raise {A : Type} (e : exn) : M A := fun st => (inl e, st).

Definition bind {A B : Type} (m : M A) (f : A -> M B) : M B :=
  fun st =>
    match m st with
    | (inl e, st') => (inl e, st')
    | (inr a, st') => f a st'
    end.

(** [try: m  except Exception as e: handler e] *)
Definition try_except {A : Type} (m : M A) (handler : exn -> M A) : M A :=
  fun st =>
    match m st with
    | (inl e, st') => handler e st'
    | (inr a, st') => (inr a, st')
    end.

Definition gets {A : Type} (f : St -> A) : M A := fun st => (inr (f st), st).

Declare Scope engine_scope.
Delimit Scope engine_scope with engine.
Notation "x <- m ;; k" := (bind m (fun x => k))
  (at level 61, m at next level, right associativity) : engine_scope.
Notation "m ;; k" := (bind m (fun _ => k))
  (at level 61, right associativity) : engine_scope.
Local Open Scope engine_scope.

Definition Processor_init (cfg : Config) (model_name : option string) : Processor :=
  {| config := cfg;
     primary_model_name := or_else model_name (DEFAULT_LLM_MODEL cfg);
     _llm := None;
     _system_prompt := None;
     working_model_name := None |}.

Definition set_llm (h : Handle) (p : Processor) : Processor :=
  {| config := config p; primary_model_name := primary_model_name p;
     _llm := Some h; _system_prompt := _system_prompt p;
     working_model_name := working_model_name p |}.

Definition set_system_prompt (s : string) (p : Processor) : Processor :=
  {| config := config p; primary_model_name := primary_model_name p;
     _llm := _llm p; _system_prompt := Some s;
     working_model_name := working_model_name p |}.

Definition set_working_model_name (m : string) (p : Processor) : Processor :=
  {| config := config p; primary_model_name := primary_model_name p;
     _llm := _llm p; _system_prompt := _system_prompt p;
     working_model_name := Some m |}.

Definition update_self (f : Processor -> Processor) : M unit :=
  fun st =>
    (inr tt, {| self := f (self st); world := world st;
                trace := trace st; frame := frame st |}).

Definition update_frame (f : Locals -> Locals) : M unit :=
  fun st =>
    (inr tt, {| self := self st; world := world st;
                trace := trace st; frame := f (frame st) |}).

Definition assign_content_brief (v : string) : M unit :=
  update_frame (fun l => {| content_brief := Some v; error_msg := error_msg l |}).

Definition assign_error_msg (v : string) : M unit :=
  update_frame (fun l => {| content_brief := content_brief l; error_msg := Some v |}).

Definition emit (w : World) (ev : event) (st : St) : St :=
  {| self := self st; world := w; trace := trace st ++ [ev]; frame := frame st |}.

Variable O : Oracles.

(** [time.sleep(seconds)] *)
Definition sleep (seconds : Q) : M unit :=
  fun st => (inr tt, emit (world st) (EvSleep seconds) st).

(** [load_model(model_name, team=..., use_case=...)] *)
Definition call_load_model (model_name : string) : M Handle :=
  fun st =>
    let cfg := config (self st) in
    let (res, w) := load_model O model_name (LLM_TEAM cfg) (LLM_USE_CASE cfg) (world st) in
    let st' := emit w (EvLoad model_name res) st in
    match res with
    | inl msg => (inl (GatewayError msg), st')
    | inr h => (inr h, st')
    end.

(** [h.invoke(payload)] and [h.invoke(payload, system=...)] *)
Definition call_invoke (h : Handle) (payload : pyval) (system : option string) : M string :=
  fun st =>
    let (res, w) := invoke O h payload system (world st) in
    let st' := emit w (EvInvoke h payload system res) st in
    match res with
    | inl msg => (inl (GatewayError msg), st')
    | inr text => (inr text, st')
    end.

(** [os.makedirs(...)] and writing the brief. *)
Definition save_brief (path content : string) : M unit :=
  fun st =>
    let (res, w) := write_text O path content (world st) in
    let st' := emit w (EvWrite path content res) st in
    match res with
    | Some msg => (inl (OSError msg), st')
    | None => (inr tt, st')
    end.

(** The candidate list of [_load_model_with_fallback]. *)
Definition models_to_try (primary : string) (fallback_models : list string) : list string :=
  fold_left
    (fun acc model =>
       if existsb (String.eqb model) acc then acc else (acc ++ [model])%list)
    fallback_models [primary].

Definition fallback_list (cfg : Config) : list string :=
  match FALLBACK_MODELS cfg with
  | Some l => l
  | None => DEFAULT_FALLBACK_MODELS
  end.

Definition load_failure_text (msg : string) : string :=
  "All multimodal models failed to load: Last error: " ++ msg.

(** The probing loop; [last_error] is the local [error_msg] of
    [_load_model_with_fallback]. *)
Fixpoint try_models (candidates : list string) (last_error : option string) : M Handle :=
  match candidates with
  | [] =>
      match last_error with
      | Some msg =>
          raise (RuntimeError (load_failure_text msg))
      | None => raise (UnboundLocalError "error_msg")
      end
  | model_name :: rest =>
      try_except
        (model <- call_load_model model_name ;;
         update_self (set_working_model_name model_name) ;;
         ret model)
        (fun e =>
           sleep (1 # 2) ;;
           try_models rest (Some (str_exn e)))
  end.

Definition _load_model_with_fallback : M Handle :=
  p <- gets self ;;
  try_models (models_to_try (primary_model_name p) (fallback_list (config p))) None.

(** The [llm] property. *)
Definition llm : M Handle :=
  cached <- gets (fun st => _llm (self st)) ;;
  match cached with
  | Some h => ret h
  | None =>
      h <- _load_model_with_fallback ;;
      update_self (set_llm h) ;;
      ret h
  end.

Definition default_system_prompt : string :=
  "You are a professional content brief creator. Analyze the video and provide a comprehensive brief.".

(** The [system_prompt] property. *)
Definition system_prompt : M string :=
  cached <- gets (fun st => _system_prompt (self st)) ;;
  match cached with
  | Some s => ret s
  | None =>
      s <- gets (fun st =>
             match read_text O (SYSTEM_PROMPT_PATH (config (self st))) (world st) with
             | Some s => s
             | None => default_system_prompt
             end) ;;
      update_self (set_system_prompt s) ;;
      ret s
  end.

(** *** [Processor.process_video] *)

Definition max_retries : nat := 3.

Definition str_nat (n : nat) : string := NilEmpty.string_of_uint (Nat.to_uint n).

Definition analysis_directive : string :=
  "Please analyze the following video and create a comprehensive brief according to the instructions above. The video will be provided as the next input.".

Definition gemini_instruction (sp : string) : string :=
  sp ++ Title.nl ++ Title.nl ++ analysis_directive.

Definition generic_prompt (sp : string) : string :=
  sp ++ Title.nl ++ Title.nl ++ "Please analyze this video:".

(** [[prompt_instruction, video_path]] *)
Definition pair_payload (instruction video_path : string) : pyval :=
  VList [VStr instruction; VStr video_path].

(** The structured alternative: a [contents] list with one [user] turn
    whose [parts] are the text and the file reference. *)
Definition contents_payload (instruction video_path : string) : pyval :=
  VDict [("contents",
          VList [VDict [("role", VStr "user");
                        ("parts",
                         VList [VDict [("text", VStr instruction)];
                                VDict [("file_data",
                                        VDict [("file_path", VStr video_path)])]])]])].

Definition gemini_format_rejected (msg : string) : bool :=
  contains "Unknown field" msg || contains "400" msg.

(** The branch taken when the model name contains [gemini]. *)
Definition gemini_shape (video_path : string) : M unit :=
  sp <- system_prompt ;;
  let prompt_instruction := gemini_instruction sp in
  try_except
    (h <- llm ;;
     r <- call_invoke h (pair_payload prompt_instruction video_path) None ;;
     assign_content_brief r)
    (fun e =>
       if gemini_format_rejected (str_exn e)
       then
         h <- llm ;;
         r <- call_invoke h (contents_payload prompt_instruction video_path) None ;;
         assign_content_brief r
       else ret tt).

(** [self.llm.invoke(video_path, system=self.system_prompt)] *)
Definition invoke_with_system (video_path : string) : M unit :=
  h <- llm ;;
  sp <- system_prompt ;;
  r <- call_invoke h (VStr video_path) (Some sp) ;;
  assign_content_brief r.

(** The branch taken when the model name contains [claude]. *)
Definition claude_shape (video_path : string) : M unit :=
  invoke_with_system video_path.

(** The branch taken for every other model name. *)
Definition generic_shape (video_path : string) : M unit :=
  try_except
    (invoke_with_system video_path)
    (fun _ =>
       sp <- system_prompt ;;
       let prompt := generic_prompt sp in
       h <- llm ;;
       r <- call_invoke h (pair_payload prompt video_path) None ;;
       assign_content_brief r).

(** The provider-family dispatch on [self.working_model_name or ""]. *)
Definition shape_request (video_path : string) : M unit :=
  model_name <- gets (fun st => or_else (working_model_name (self st)) "") ;;
  if contains "gemini" (lower model_name) then gemini_shape video_path
  else if contains "claude" (lower model_name) then claude_shape video_path
  else generic_shape video_path.

(** [not content_brief or len(content_brief.strip()) < 10] *)
Definition too_short (text : string) : bool :=
  negb (truthy text) || Nat.ltb (String.length (strip text)) 10.

Definition file_title_of (text video_name : string) : string :=
  match Title.extract_title_from_brief text with
  | Some title => if truthy title then title else video_name
  | None => video_name
  end.

(** The body of the [try] block of one attempt: [None] is [continue],
    [Some r] is [return r]. *)
Definition attempt_body (video_path video_name : string)
    : M (option (string * option string)) :=
  shape_request video_path ;;
  cb <- gets (fun st => content_brief (frame st)) ;;
  match cb with
  | None => raise (UnboundLocalError "content_brief")
  | Some text =>
      if too_short text then ret None
      else
        cfg <- gets (fun st => config (self st)) ;;
        let safe_file_title := Naming.safe_file_title (file_title_of text video_name) in
        let output_file :=
          os_path_join O (BRIEF_DIR cfg) (safe_file_title ++ BRIEF_EXTENSION cfg) in
        save_brief output_file text ;;
        ret (Some (text, Some output_file))
  end.

Definition format_incompatibility : string :=
  "Unknown field for GenerationConfig: system".

Definition rate_limited (msg : string) : bool :=
  contains "rate limit" (lower msg) || contains "quota" (lower msg).

(** The [except Exception as e] block of one attempt. *)
Definition on_error (attempt : nat) (e : exn) : M unit :=
  let msg := str_exn e in
  assign_error_msg msg ;;
  if Nat.ltb attempt max_retries then
    if contains format_incompatibility msg then ret tt
    else if rate_limited msg
    then sleep (inject_Z (Z.min (Z.of_nat attempt * 2) 10))
    else sleep 1
  else ret tt.

(** One iteration of [for attempt in range(1, max_retries + 1)]. *)
Definition iteration (video_path video_name : string) (attempt : nat)
    : M (option (string * option string)) :=
  try_except
    (attempt_body video_path video_name)
    (fun e => on_error attempt e ;; ret None).

(** The statement after the loop. *)
Definition exhausted : M (string * option string) :=
  last <- gets (fun st => error_msg (frame st)) ;;
  match last with
  | Some msg =>
      raise (RuntimeError
               ("Failed to process video after " ++ str_nat max_retries
                ++ " attempts: " ++ msg))
  | None => raise (UnboundLocalError "error_msg")
  end.

Fixpoint attempts (video_path video_name : string) (range : list nat)
    : M (string * option string) :=
  match range with
  | [] => exhausted
  | attempt :: rest =>
      r <- iteration video_path video_name attempt ;;
      match r with
      | Some result => ret result
      | None => attempts video_path video_name rest
      end
  end.

Definition process_video (video_path : string) : M (string * option string) :=
  update_frame (fun _ => {| content_brief := None; error_msg := None |}) ;;
  attempts video_path (video_stem O video_path) (seq 1 max_retries).

(** *** [process_video_file] *)

Definition fresh (p : Processor) (w : World) : St :=
  {| self := p; world := w; trace := [];
     frame := {| content_brief := None; error_msg := None |} |}.

Definition process_video_file (video_path : string) (cfg : Config)
    (model_name : option string) (w : World)
    : (exn + string * option string) * (World * list event) :=
  if negb (path_exists O video_path w)
  then (inl (FileNotFoundError ("Video file not found at " ++ video_path)), (w, []))
  else
    let (r, st) :=
      try_except (process_video video_path) (fun e => raise e)
        (fresh (Processor_init cfg model_name) w) in
    (r, (world st, trace st)).

(** *** The orchestrator ([process_video] and [process_all_videos] of
    [src/main.py]) *)

Definition main_process_video (video_path : string) (cfg : Config)
    (model_name : option string) (w : World) : bool * (World * list event) :=
  match process_video_file video_path cfg model_name w with
  | (inr (_, saved_path), out) =>
      (match saved_path with Some _ => true | None => false end, out)
  | (inl _, out) => (false, out)
  end.

Fixpoint count_briefs (video_files : list string) (cfg : Config) (w : World)
    (successful_briefs : nat) : nat * World :=
  match video_files with
  | [] => (successful_briefs, w)
  | video_path :: rest =>
      let '(brief_success, (w', _)) := main_process_video video_path cfg None w in
      count_briefs rest cfg w'
        (if brief_success then S successful_briefs else successful_briefs)
  end.

Definition process_all_videos (video_files : list string) (cfg : Config) (w : World)
    : (nat * nat) * World :=
  let (n, w') := count_briefs video_files cfg w 0 in
  ((List.length video_files, n), w').

(** *** Vocabulary for the properties of the engine *)

(** The fallback models that are new with respect to [seen], each at its
    first occurrence. *)
Fixpoint uniq_from (seen : list string) (l : list string) : list string :=
  match l with
  | [] => []
  | x :: r =>
      if existsb (String.eqb x) seen then uniq_from seen r
      else x :: uniq_from (seen ++ [x]) r
  end.

(** What a run of failed probes leaves in the trace: each failure and the
    half-second pause after it. *)
Definition failure_events (fails : list (string * string)) : list event :=
  flat_map (fun f => [EvLoad (fst f) (inl (snd f)); EvSleep (1 # 2)]) fails.

(** The system prompt an evaluation of [self.system_prompt] gives in [st]. *)
Definition current_system_prompt (st : St) : string :=
  match _system_prompt (self st) with
  | Some s => s
  | None =>
      match read_text O (SYSTEM_PROMPT_PATH (config (self st))) (world st) with
      | Some s => s
      | None => default_system_prompt
      end
  end.

(** The session as the trace shows it: no model yet, or a cached handle
    with the name of the working model. *)
Definition phase : Type := (option Handle * option string)%type.

Definition phase_of (st : St) : phase :=
  (_llm (self st), working_model_name (self st)).

Inductive phase_step : phase -> event -> phase -> Prop :=
| StepLoadFail n m msg : phase_step (None, n) (EvLoad m (inl msg)) (None, n)
| StepLoadOk n m h : phase_step (None, n) (EvLoad m (inr h)) (Some h, Some m)
| StepInvoke h n payload system res :
    phase_step (Some h, n) (EvInvoke h payload system res) (Some h, n)
| StepSleep a seconds : phase_step a (EvSleep seconds) a
| StepWrite a path content res : phase_step a (EvWrite path content res) a.

Inductive phase_run : phase -> list event -> phase -> Prop :=
| RunNil a : phase_run a [] a
| RunCons a ev b evs c :
    phase_step a ev b -> phase_run b evs c -> phase_run a (ev :: evs) c.

(** No probe, and every invocation on the handle [h]. *)
Definition on_handle (h : Handle) (ev : event) : Prop :=
  match ev with
  | EvLoad _ _ => False
  | EvInvoke h' _ _ _ => h' = h
  | _ => True
  end.

Definition settled (h : Handle) (evs : list event) : Prop := Forall (on_handle h) evs.

(** The events of [st'] extend those of [st] along the phases. *)
Definition tracks (st st' : St) : Prop :=
  exists evs,
    trace st' = (trace st ++ evs)%list /\ phase_run (phase_of st) evs (phase_of st').

(** The brief [text] was saved under [path] as the last thing in [tr], and
    is long enough. *)
Definition saved (text : string) (path : option string) (tr : list event) : Prop :=
  exists p before,
    path = Some p /\ tr = (before ++ [EvWrite p text None])%list /\
    too_short text = false.

(** Partial correctness of a computation, with [tracks] kept throughout. *)
Definition triple {A : Type} (pre : St -> Prop) (m : M A) (post : A -> St -> Prop) : Prop :=
  forall st, pre st ->
    tracks st (snd (m st)) /\
    match fst (m st) with
    | inr a => post a (snd (m st))
    | inl _ => True
    end.

End Gateway.

Arguments EvSleep {Handle} seconds.
Arguments Processor_init {Handle} cfg model_name.
Arguments failure_events {Handle} fails.
Arguments EvWrite {Handle} path content res.

End Engine.

(** ** The transcript engine ([core/processor.py]) *)

Module Core.
Import Py PyStr.

Section Transcript.
Variables World Handle : Type.
Variable O : Engine.Oracles World Handle.

(** The module-level [config] of [core/processor.py]. *)
Variable cfg : Config.

Record Processor : Type := mkProcessor {
  model_name : string;
  _llm : option Handle;
  _system_prompt : option string
}.

Definition Processor_init (name : option string) : Processor :=
  {| model_name := or_else name (DEFAULT_LLM_MODEL cfg);
     _llm := None; _system_prompt := None |}.

Record St : Type := mkSt {
  self : Processor;
  world : World;
  trace : list (Engine.event Handle)
}.

Definition default_system_prompt : string :=
  "You are a professional content brief creator. Analyze the transcript and provide a comprehensive brief.".

(** The [llm] property: one [load_model] call, no fallback. *)
Definition llm (st : St) : (exn + Handle) * St :=
  match _llm (self st) with
  | Some h => (inr h, st)
  | None =>
      let name := model_name (self st) in
      let (res, w) :=
        Engine.load_model O name (LLM_TEAM cfg) (LLM_USE_CASE cfg) (world st) in
      let tr := (trace st ++ [Engine.EvLoad name res])%list in
      match res with
      | inl msg => (inl (GatewayError msg), {| self := self st; world := w; trace := tr |})
      | inr h =>
          (inr h,
           {| self := {| model_name := name; _llm := Some h;
                         _system_prompt := _system_prompt (self st) |};
              world := w; trace := tr |})
      end
  end.

(** The [system_prompt] property. *)
Definition system_prompt (st : St) : string * St :=
  match _system_prompt (self st) with
  | Some s => (s, st)
  | None =>
      let s :=
        match Engine.read_text O (SYSTEM_PROMPT_PATH cfg) (world st) with
        | Some s => s
        | None => default_system_prompt
        end in
      (s, {| self := {| model_name := model_name (self st); _llm := _llm (self st);
                        _system_prompt := Some s |};
             world := world st; trace := trace st |})
  end.

Definition user_prompt (transcript_text video_name : string) : string :=
  Title.nl ++ "Please analyze the following video transcript and create a content brief:"
  ++ Title.nl ++ Title.nl ++ "# TRANSCRIPT: " ++ video_name ++ Title.nl
  ++ transcript_text ++ Title.nl.

(** The [try] block of [process_transcript]. *)
Definition generate (transcript_text video_name : string) (st : St)
    : (exn + string * option string) * St :=
  match llm st with
  | (inl e, st1) => (inl e, st1)
  | (inr h, st1) =>
      let (sp, st2) := system_prompt st1 in
      let payload := VStr (user_prompt transcript_text video_name) in
      let (res, w) := Engine.invoke O h payload (Some sp) (world st2) in
      let tr := (trace st2 ++ [Engine.EvInvoke h payload (Some sp) res])%list in
      match res with
      | inl msg => (inl (GatewayError msg), {| self := self st2; world := w; trace := tr |})
      | inr content_brief =>
          let output_file :=
            Engine.os_path_join O (BRIEF_DIR cfg) (video_name ++ BRIEF_EXTENSION cfg) in
          let (wres, w') := Engine.write_text O output_file content_brief w in
          let tr' := (tr ++ [Engine.EvWrite output_file content_brief wres])%list in
          let st3 := {| self := self st2; world := w'; trace := tr' |} in
          match wres with
          | Some msg => (inl (OSError msg), st3)
          | None => (inr (content_brief, Some output_file), st3)
          end
      end
  end.

(** [process_transcript]: any exception of the [try] block is printed and
    replaced by the pair of an empty brief and no path. *)
Definition process_transcript (transcript_text video_name : string) (st : St)
    : (exn + string * option string) * St :=
  match generate transcript_text video_name st with
  | (inl _, st') => (inr ("", None), st')
  | (inr r, st') => (inr r, st')
  end.

End Transcript.

Arguments Processor_init {Handle} cfg name.

End Core.

(** ** A scripted gateway, for running the engine on concrete inputs *)

Module Demo.
Import Py PyStr.

(** The models that load, the queue of answers of [invoke], the queue of
    outcomes of saving, the files that exist and the prompt file. *)
Record Script : Type := mkScript {
  loadable : list string;
  replies : list (string + string);
  write_errors : list (option string);
  files : list string;
  prompt : option string
}.

Definition demo_load (name team use_case : string) (w : Script)
    : (string + string) * Script :=
  (if existsb (String.eqb name) (loadable w)
   then inr name else inl ("model not available: " ++ name), w).

Definition demo_invoke (h : string) (payload : pyval) (system : option string)
    (w : Script) : (string + string) * Script :=
  match replies w with
  | [] => (inl "no reply", w)
  | r :: rest =>
      (r, {| loadable := loadable w; replies := rest;
             write_errors := write_errors w; files := files w;
             prompt := prompt w |})
  end.

Definition demo_write (path content : string) (w : Script) : option string * Script :=
  match write_errors w with
  | [] => (None, w)
  | r :: rest =>
      (r, {| loadable := loadable w; replies := replies w;
             write_errors := rest; files := files w; prompt := prompt w |})
  end.

Definition oracles : Engine.Oracles Script string :=
  {| Engine.load_model := demo_load;
     Engine.invoke := demo_invoke;
     Engine.read_text := fun _ w => prompt w;
     Engine.path_exists := fun p w => existsb (String.eqb p) (files w);
     Engine.write_text := demo_write;
     Engine.os_path_join := fun a b => a ++ "/" ++ b;
     Engine.video_stem := fun p => p |}.

Definition cfg : Config :=
  {| DEFAULT_LLM_MODEL := "gemini-2.5-pro";
     FALLBACK_MODELS := Some ["gemini-2.5-flash"; "gemini-2.5-pro"; "claude-3"];
     LLM_TEAM := "marketing";
     LLM_USE_CASE := "creator-briefs";
     SYSTEM_PROMPT_PATH := "system_prompt.txt";
     BRIEF_DIR := "archive";
     BRIEF_EXTENSION := ".md" |}.

Definition script (models : list string) (answers : list (string + string)) : Script :=
  {| loadable := models; replies := answers; write_errors := [];
     files := ["clip"]; prompt := Some "SYS" |}.

(** A session whose handle for [model] is already cached. *)
Definition session (model : string) (answers : list (string + string))
    : Engine.St Script string :=
  {| Engine.self :=
       {| Engine.config := cfg;
          Engine.primary_model_name := "gemini-2.5-pro";
          Engine._llm := Some model;
          Engine._system_prompt := None;
          Engine.working_model_name := Some model |};
     Engine.world := script [model] answers;
     Engine.trace := [];
     Engine.frame := {| Engine.content_brief := None; Engine.error_msg := None |} |}.

(** A transcript session that has not loaded its model yet. *)
Definition transcript_session (models : list string) (answers : list (string + string))
    : Core.St Script string :=
  {| Core.self := Core.Processor_init cfg None;
     Core.world := script models answers;
     Core.trace := [] |}.

Definition long_brief : string := "Ad 3: " ++ Title.q ++ "Foo" ++ Title.q ++ " and the rest".

End Demo.


(** ** Vocabulary for the loading protocol, the attempts of a call and the
    batch *)

Module Protocol.
Import Py PyStr Engine.

Section Gateway.
Variables World Handle : Type.
Variable O : Oracles World Handle.

(** The gateway refused the models of [fails] one after the other, from
    the world [w] on, each with the text paired with it, and left [w']. *)
Fixpoint refused (cfg : Config) (fails : list (string * string)) (w w' : World) : Prop :=
  match fails with
  | [] => w' = w
  | (model_name, msg) :: rest =>
      exists w1,
        load_model O model_name (LLM_TEAM cfg) (LLM_USE_CASE cfg) w = (inl msg, w1) /\
        refused cfg rest w1 w'
  end.








End Gateway.
End Protocol.
(** ** Vocabulary for further properties of the file name *)

Module NamingMore.
Import PyStr.

(** The characters of a sanitized file name. *)
Definition clean (c : ascii) : bool := isalnum c || char_in c "-_()[]".

End NamingMore.

(** ** Counting and shapes: vocabulary for further properties of the
    video engine *)

Module EngineMore.
Import Py PyStr Engine.

Section Gateway.
Variables World Handle : Type.

Definition is_load (ev : event Handle) : bool :=
  match ev with EvLoad _ _ => true | _ => false end.

Definition is_invoke (ev : event Handle) : bool :=
  match ev with EvInvoke _ _ _ _ => true | _ => false end.

Definition is_write (ev : event Handle) : bool :=
  match ev with EvWrite _ _ _ => true | _ => false end.

Definition loads (evs : list (event Handle)) : nat :=
  List.length (List.filter is_load evs).

Definition invokes (evs : list (event Handle)) : nat :=
  List.length (List.filter is_invoke evs).

Definition writes (evs : list (event Handle)) : nat :=
  List.length (List.filter is_write evs).

(** The priority list of the session in [st]. *)
Definition candidates_of (st : St World Handle) : list string :=
  models_to_try (primary_model_name (self st)) (fallback_list (config (self st))).

Definition same_session (st st' : St World Handle) : Prop :=
  config (self st') = config (self st) /\
  primary_model_name (self st') = primary_model_name (self st).

(** From [st] to [st']: at most [nl] passes over the priority list, [ni]
    invocations and [nw] saves. *)
Definition costs (nl ni nw : nat) (st st' : St World Handle) : Prop :=
  same_session st st' /\
  exists evs,
    trace st' = (trace st ++ evs)%list /\
    loads evs <= nl * List.length (candidates_of st) /\
    invokes evs <= ni /\
    writes evs <= nw.

Definition spends {A : Type} (nl ni nw : nat) (m : M World Handle A) : Prop :=
  forall st, costs nl ni nw st (snd (m st)).

(** The four requests the engine can send for [video_path] with the system
    prompt [sp]. *)
Definition shape_ok (video_path sp : string) (payload : pyval) (system : option string)
    : Prop :=
  (payload = VStr video_path /\ system = Some sp) \/
  (system = None /\
   (payload = pair_payload (gemini_instruction sp) video_path \/
    payload = contents_payload (gemini_instruction sp) video_path \/
    payload = pair_payload (generic_prompt sp) video_path)).

Definition well_shaped (video_path sp : string) (ev : event Handle) : Prop :=
  match ev with
  | EvInvoke _ payload system _ => shape_ok video_path sp payload system
  | _ => True
  end.

(** [t] is the answer of a successful invocation among [evs]. *)
Definition answered (t : string) (evs : list (event Handle)) : Prop :=
  exists h payload system, In (EvInvoke h payload system (inr t)) evs.

(** From [st] to [st']: the session is the same, a cached system prompt
    stays, every request is shaped from the prompt cached at the end, no
    request is sent before a prompt is cached, and a [content_brief] that
    is new was answered on the way. *)
Definition coherent (video_path : string) (st st' : St World Handle) : Prop :=
  exists evs,
    trace st' = (trace st ++ evs)%list /\
    same_session st st' /\
    (forall sp0, _system_prompt (self st) = Some sp0 ->
                 _system_prompt (self st') = Some sp0) /\
    (forall sp, _system_prompt (self st') = Some sp ->
                Forall (well_shaped video_path sp) evs) /\
    (_system_prompt (self st') = None -> invokes evs = 0) /\
    (forall t, content_brief (frame st') = Some t ->
               content_brief (frame st) = Some t \/ answered t evs).

Definition holds {A : Type} (video_path : string) (pre : St World Handle -> Prop)
    (m : M World Handle A) (post : A -> St World Handle -> Prop) : Prop :=
  forall st, pre st ->
    coherent video_path st (snd (m st)) /\
    match fst (m st) with
    | inr a => post a (snd (m st))
    | inl _ => True
    end.

(** The saves that succeeded. *)
Definition is_saved (ev : event Handle) : bool :=
  match ev with EvWrite _ _ None => true | _ => false end.

Definition saves (evs : list (event Handle)) : nat :=
  List.length (List.filter is_saved evs).

(** A computation that keeps the configuration [cfg] and the primary
    model [primary] of the session and whose every step satisfies [P]. *)
Definition emits {A : Type} (cfg : Config) (primary : string)
    (P : event Handle -> Prop) (m : M World Handle A) : Prop :=
  forall st,
    config (self st) = cfg /\ primary_model_name (self st) = primary ->
    (config (self (snd (m st))) = cfg /\
     primary_model_name (self (snd (m st))) = primary) /\
    exists evs, trace (snd (m st)) = (trace st ++ evs)%list /\ Forall P evs.

(** A probe of one of [candidates]. *)
Definition listed (candidates : list string) (ev : event Handle) : Prop :=
  match ev with
  | EvLoad model_name _ => In model_name candidates
  | _ => True
  end.

(** The pauses of the engine: half a second after a failed probe, one
    second, or two or four seconds of back-off. *)
Definition short_pause (ev : event Handle) : Prop :=
  match ev with
  | EvSleep seconds =>
      seconds = (1 # 2)%Q \/ seconds = 1%Q \/ seconds = inject_Z 2 \/ seconds = inject_Z 4
  | _ => True
  end.

(** A save into the brief directory, under a sanitized name followed by
    the extension. *)
Definition brief_target (O : Oracles World Handle) (cfg : Config)
    (ev : event Handle) : Prop :=
  match ev with
  | EvWrite path _ _ =>
      exists name,
        PyStr.forallb NamingMore.clean name = true /\
        path = os_path_join O (BRIEF_DIR cfg) (name ++ BRIEF_EXTENSION cfg)
  | _ => True
  end.

(** The path under which an attempt saves the brief [text] of the video
    named [video_name]. *)
Definition brief_file (O : Oracles World Handle) (cfg : Config)
    (text video_name : string) : string :=
  os_path_join O (BRIEF_DIR cfg)
    (Naming.safe_file_title (file_title_of text video_name)
     ++ BRIEF_EXTENSION cfg).

Definition brief_path (O : Oracles World Handle) (cfg : Config)
    (text video_path : string) : string :=
  brief_file O cfg text (video_stem O video_path).

(** A gateway state in which no model loads, now or after further probes. *)
Definition never_loads (O : Oracles World Handle) (dead : World -> Prop) : Prop :=
  forall name team use_case w,
    dead w ->
    exists msg w',
      load_model O name team use_case w = (inl msg, w') /\ dead w'.

(** A session that has no handle and no working model, on a gateway where
    nothing loads. *)
Definition idle (dead : World -> Prop) (st : St World Handle) : Prop :=
  _llm (self st) = None /\ working_model_name (self st) = None /\ dead (world st).

(** From [st] to [st'] nothing was invoked and nothing was saved. *)
Definition quiet (st st' : St World Handle) : Prop :=
  exists evs,
    trace st' = (trace st ++ evs)%list /\ invokes evs = 0 /\ writes evs = 0.

End Gateway.
End EngineMore.

(** ** The transcript files ([core/processor.py], [core/transcriber.py],
    [utils/file_handler.py]) and the orchestrator of [main.py] *)

Module Batch.
Import Py PyStr.

(** [s[n:]] for [n] within the string. *)
Fixpoint drop (n : nat) (s : string) : string :=
  match n, s with
  | S m, String _ r => drop m r
  | _, _ => s
  end.

(** [s.endswith(suffix)] *)
Definition endswith (suffix s : string) : bool :=
  Nat.leb (String.length suffix) (String.length s)
  && String.eqb (drop (String.length s - String.length suffix) s) suffix.

(** [s[:-k]] *)
Definition cut_tail (k : nat) (s : string) : string :=
  Regex.take (String.length s - k) s.

(** The name under which the brief of a transcript is saved:
    [video_name[:-11]] when the name ends with [_transcript]. *)
Definition brief_name (video_name : string) : string :=
  if endswith "_transcript" video_name then cut_tail 11 video_name else video_name.

(** The text of the segments, each followed by a space, then trimmed. *)
Definition full_transcript (segments : list string) : string :=
  strip (fold_left (fun acc text => acc ++ text ++ " ") segments "").

(** The module [config] of the transcript tools: the keys of [Config] and
    those of the transcriber. *)
Record CoreConfig : Type := mkCoreConfig {
  base : Config;
  TRANSCRIPT_DIR : string;
  TRANSCRIPT_EXTENSION : string;
  WHISPER_MODEL : string;
  WHISPER_DEVICE : string;
  WHISPER_COMPUTE_TYPE : string
}.

Section Transcripts.
Variables World Handle : Type.
Variable O : Engine.Oracles World Handle.
Variable cfg : CoreConfig.

(** The speech-to-text engine: building [WhisperModel] ([Some] text: the
    error raised) and [model.transcribe] with the fixed settings of
    [transcribe_file], which gives the texts of the segments or raises. *)
Record Whisper : Type := mkWhisper {
  whisper_model : string -> string -> string -> World -> option string * World;
  transcribe : string -> World -> (string + list string) * World
}.

Variable W : Whisper.

Inductive bevent : Type :=
| BWhisper (res : option string)
| BTranscribe (video_path : string) (res : string + list string)
| BSave (path content : string) (res : option string)
| BEngine (ev : Engine.event Handle).

(** [get_transcript_path] and [get_brief_path] of [utils/file_handler.py]. *)
Definition get_transcript_path (video_path : string) : string :=
  Engine.os_path_join O (TRANSCRIPT_DIR cfg)
    (Engine.video_stem O video_path ++ TRANSCRIPT_EXTENSION cfg).

Definition get_brief_path (video_path : string) : string :=
  Engine.os_path_join O (BRIEF_DIR (base cfg))
    (Engine.video_stem O video_path ++ BRIEF_EXTENSION (base cfg)).

Definition no_such_file (path : string) : exn :=
  FileNotFoundError ("[Errno 2] No such file or directory: '" ++ path ++ "'").

(** [read_file]: [None] for a path that does not exist. *)
Definition read_file (file_path : string) (w : World) : exn + option string :=
  if negb (Engine.path_exists O file_path w) then inr None
  else
    match Engine.read_text O file_path w with
    | Some content => inr (Some content)
    | None => inl (no_such_file file_path)
    end.

(** [save_file]: the outcome as a boolean, never an exception. *)
Definition save_file (file_path content : string) (w : World) : bool * World :=
  match Engine.write_text O file_path content w with
  | (None, w') => (true, w')
  | (Some _, w') => (false, w')
  end.

(** [Transcriber.transcribe_file] *)
Definition transcribe_file (video_path : string) (w : World)
    : (exn + string * option string) * (World * list bevent) :=
  if negb (Engine.path_exists O video_path w) then (inr ("", None), (w, []))
  else
    let (res, w1) := transcribe W video_path w in
    match res with
    | inl msg => (inl (GatewayError msg), (w1, [BTranscribe video_path res]))
    | inr segments =>
        let text := full_transcript segments in
        let output_file :=
          Engine.os_path_join O (TRANSCRIPT_DIR cfg)
            (Engine.video_stem O video_path ++ TRANSCRIPT_EXTENSION cfg) in
        let (wres, w2) := Engine.write_text O output_file text w1 in
        let tr := [BTranscribe video_path res; BSave output_file text wres] in
        match wres with
        | None => (inr (text, Some output_file), (w2, tr))
        | Some _ => (inr (text, None), (w2, tr))
        end
    end.

(** [transcribe_video]: a new [Transcriber], then [transcribe_file]. *)
Definition transcribe_video (video_path : string) (w : World)
    : (exn + string * option string) * (World * list bevent) :=
  let (res, w1) :=
    whisper_model W (WHISPER_MODEL cfg) (WHISPER_DEVICE cfg) (WHISPER_COMPUTE_TYPE cfg) w in
  match res with
  | Some msg => (inl (GatewayError msg), (w1, [BWhisper res]))
  | None =>
      let '(r, (w2, tr)) := transcribe_file video_path w1 in
      (r, (w2, BWhisper res :: tr))
  end.

(** [process_transcript_file] of [core/processor.py] *)
Definition process_transcript_file (transcript_path : string) (model_name : option string)
    (w : World) : (exn + string * option string) * (World * list bevent) :=
  if negb (Engine.path_exists O transcript_path w) then (inr ("", None), (w, []))
  else
    match Engine.read_text O transcript_path w with
    | None => (inl (no_such_file transcript_path), (w, []))
    | Some transcript_text =>
        let video_name := brief_name (Engine.video_stem O transcript_path) in
        let (r, st) :=
          Core.process_transcript O (base cfg) transcript_text video_name
            {| Core.self := Core.Processor_init (base cfg) model_name;
               Core.world := w; Core.trace := [] |} in
        (r, (Core.world st, List.map BEngine (Core.trace st)))
    end.

Definition is_some {A : Type} (x : option A) : bool :=
  match x with Some _ => true | None => false end.

(** [process_video] of [main.py] *)
Definition process_video (video_path : string) (model_name : option string)
    (transcribe_only : bool) (w : World)
    : (exn + bool * bool) * (World * list bevent) :=
  if negb (Engine.path_exists O video_path w) then (inr (false, false), (w, []))
  else
    let transcript_path := get_transcript_path video_path in
    let transcript_exists := Engine.path_exists O transcript_path w in
    let '(t, (w1, tr1)) :=
      if transcript_exists then
        match read_file transcript_path w with
        | inl e => (inl e, (w, []))
        | inr _ => (inr true, (w, []))
        end
      else
        match transcribe_video video_path w with
        | (inl e, out) => (inl e, out)
        | (inr (_, saved_path), out) => (inr (is_some saved_path), out)
        end in
    match t with
    | inl e => (inl e, (w1, tr1))
    | inr transcription_success =>
        if transcribe_only || negb transcription_success
        then (inr (transcription_success, false), (w1, tr1))
        else
          match process_transcript_file transcript_path model_name w1 with
          | (inl e, (w2, tr2)) => (inl e, (w2, (tr1 ++ tr2)%list))
          | (inr (_, saved_path), (w2, tr2)) =>
              (inr (transcription_success, is_some saved_path), (w2, (tr1 ++ tr2)%list))
          end
    end.

(** The loop of [process_all_videos] of [main.py], with its two counters. *)
Fixpoint count_all (video_files : list string) (model_name : option string)
    (transcribe_only : bool) (w : World)
    (successful_transcriptions successful_briefs : nat)
    : (exn + nat * nat) * World :=
  match video_files with
  | [] => (inr (successful_transcriptions, successful_briefs), w)
  | video_path :: rest =>
      match process_video video_path model_name transcribe_only w with
      | (inl e, (w', _)) => (inl e, w')
      | (inr (trans_success, brief_success), (w', _)) =>
          count_all rest model_name transcribe_only w'
            (if trans_success then S successful_transcriptions
             else successful_transcriptions)
            (if brief_success then S successful_briefs else successful_briefs)
      end
  end.

Definition process_all_videos (video_files : list string) (model_name : option string)
    (transcribe_only : bool) (w : World) : (exn + nat * nat * nat) * World :=
  match count_all video_files model_name transcribe_only w 0 0 with
  | (inl e, w') => (inl e, w')
  | (inr (t, b), w') => (inr (List.length video_files, t, b), w')
  end.

(** No step of the brief engine, and no step of the speech-to-text engine. *)
Definition engine_free (tr : list bevent) : Prop :=
  Forall (fun ev => match ev with BEngine _ => False | _ => True end) tr.

Definition whisper_free (tr : list bevent) : Prop :=
  Forall (fun ev => match ev with BEngine _ => True | _ => False end) tr.

End Transcripts.

Arguments BWhisper {Handle} res.
Arguments BTranscribe {Handle} video_path res.
Arguments BSave {Handle} path content res.

End Batch.

(** ** A scripted speech-to-text engine *)

Module DemoBatch.
Import Py PyStr.

Definition whisper (segments : list string) : Batch.Whisper Demo.Script :=
  {| Batch.whisper_model := fun _ _ _ w => (None, w);
     Batch.transcribe := fun _ w => (inr segments, w) |}.

(** A gateway on which the video [clip] and its transcript exist. *)
Definition world : Demo.Script :=
  {| Demo.loadable := ["gemini-2.5-pro"];
     Demo.replies := [inr Demo.long_brief];
     Demo.write_errors := [];
     Demo.files := ["clip"; "transcripts/clip.txt"];
     Demo.prompt := Some "SYS" |}.

Definition cfg : Batch.CoreConfig :=
  {| Batch.base := Demo.cfg;
     Batch.TRANSCRIPT_DIR := "transcripts";
     Batch.TRANSCRIPT_EXTENSION := ".txt";
     Batch.WHISPER_MODEL := "small";
     Batch.WHISPER_DEVICE := "cpu";
     Batch.WHISPER_COMPUTE_TYPE := "int8" |}.

End DemoBatch.


(** ** The configuration loader ([load_config] of [src/main.py]) *)

Module Settings.

(** A parsed JSON document.  An object is the list of its items, in
    order; the keys of a Python [dict] are distinct. *)
Inductive json : Type :=
| JNull
| JBool (b : bool)
| JNum (literal : string)
| JStr (s : string)
| JList (items : list json)
| JDict (items : list (string * json)).

Definition dict : Type := list (string * json).

Definition keys (d : dict) : list string := List.map fst d.

(** [d.get(key)] *)
Fixpoint get (key : string) (d : dict) : option json :=
  match d with
  | [] => None
  | (k, v) :: rest => if String.eqb key k then Some v else get key rest
  end.

(** [d[key] = value]: in place for a key that is there, at the end for a
    new one. *)
Fixpoint set (key : string) (value : json) (d : dict) : dict :=
  match d with
  | [] => [(key, value)]
  | (k, v) :: rest =>
      if String.eqb key k then (k, value) :: rest else (k, v) :: set key value rest
  end.

(** [for key, value in items: flat[key] = value] *)
Definition copy_items (items flat : dict) : dict :=
  fold_left (fun acc kv => set (fst kv) (snd kv) acc) items flat.

Inductive error : Type :=
| LoadError (msg : string)
| AttributeError
| TypeError
| KeyError (key : string)
| MkdirError (msg : string).

(** The directory of the project, [os.path.expanduser], the [/] of
    [pathlib] followed by [str], and the outcome of [mkdir] ([Some] text:
    the error raised). *)
Record Env : Type := mkEnv {
  base_dir : string;
  expanduser : string -> string;
  joinpath : string -> string -> string;
  mkdir : string -> option string
}.

(** [config.get('PATHS', {}).get(key, default)] *)
Definition path_setting (config : json) (key default : string) : error + json :=
  match config with
  | JDict items =>
      match (match get "PATHS" items with Some p => p | None => JDict [] end) with
      | JDict paths =>
          inr (match get key paths with Some v => v | None => JStr default end)
      | _ => inl AttributeError
      end
  | _ => inl AttributeError
  end.

(** The dictionary stored under [PATHS]. *)
Definition dynamic_paths (E : Env) (input_dir brief_dir : string) : dict :=
  [("BASE_DIR", JStr (base_dir E));
   ("INPUT_DIR", JStr (expanduser E input_dir));
   ("BRIEF_DIR", JStr (joinpath E (base_dir E) brief_dir));
   ("SYSTEM_PROMPT_PATH",
    JStr (joinpath E (joinpath E (base_dir E) "config") "system_prompt.txt"))].

(** [config[key].items()] *)
Definition section (config : dict) (key : string) : error + dict :=
  match get key config with
  | None => inl (KeyError key)
  | Some (JDict items) => inr items
  | Some _ => inl AttributeError
  end.

(** [load_config]; [loaded] is the outcome of opening and parsing
    [config/config.json]. *)
Definition load_config (E : Env) (loaded : string + json) : error + dict :=
  match loaded with
  | inl msg => inl (LoadError msg)
  | inr config =>
      match path_setting config "INPUT_DIR" "~/Downloads" with
      | inl e => inl e
      | inr (JStr input_dir) =>
          match path_setting config "BRIEF_DIR" "archive" with
          | inl e => inl e
          | inr (JStr brief_dir) =>
              match config with
              | JDict items =>
                  let config := set "PATHS" (JDict (dynamic_paths E input_dir brief_dir)) items in
                  match section config "PATHS" with
                  | inl e => inl e
                  | inr paths =>
                      match get "BRIEF_DIR" paths with
                      | None => inl (KeyError "BRIEF_DIR")
                      | Some (JStr path) =>
                          match mkdir E path with
                          | Some msg => inl (MkdirError msg)
                          | None =>
                              let flat_config := copy_items paths [] in
                              match section config "LLM_CONFIG" with
                              | inl e => inl e
                              | inr llm =>
                                  let flat_config := copy_items llm flat_config in
                                  let flat_config :=
                                    match get "FALLBACK_MODELS" llm with
                                    | Some models => set "FALLBACK_MODELS" models flat_config
                                    | None => flat_config
                                    end in
                                  match section config "FILE_EXTENSIONS" with
                                  | inl e => inl e
                                  | inr extensions => inr (copy_items extensions flat_config)
                                  end
                              end
                          end
                      | Some _ => inl TypeError
                      end
                  end
              | _ => inl AttributeError
              end
          | inr _ => inl TypeError
          end
      | inr _ => inl TypeError
      end
  end.

(** The first of the answers of three dictionaries. *)
Definition first_of (a b c : option json) : option json :=
  match a with
  | Some v => Some v
  | None => match b with Some v => Some v | None => c end
  end.

(** The items of the section [key] have distinct keys. *)
Definition distinct_keys (config : dict) (key : string) : Prop :=
  match get key config with
  | Some (JDict items) => NoDup (keys items)
  | _ => True
  end.

(** A configuration file and an environment to run the loader on. *)
Definition demo_env : Env :=
  {| base_dir := "/app";
     expanduser := fun p => p;
     joinpath := fun a b => a ++ "/" ++ b;
     mkdir := fun _ => None |}.

Definition demo_config : dict :=
  [("PATHS", JDict [("BRIEF_DIR", JStr "out"); ("SYSTEM_PROMPT_PATH", JStr "mine.txt")]);
   ("LLM_CONFIG",
    JDict [("DEFAULT_LLM_MODEL", JStr "gemini-2.5-pro");
           ("FALLBACK_MODELS", JList [JStr "gemini-2.5-flash"]);
           ("BRIEF_EXTENSION", JStr ".txt")]);
   ("FILE_EXTENSIONS",
    JDict [("BRIEF_EXTENSION", JStr ".md"); ("FALLBACK_MODELS", JList [])])].

End Settings.
(** * Properties *)

(** ** Strings *)

Module PyStrFacts.
Import PyStr.

Lemma append_nil_r (s : string) : s ++ "" = s.
Proof. induction s as [|c s IH]; simpl; [reflexivity | now rewrite IH]. Qed.

Lemma append_assoc (a b c : string) : (a ++ b) ++ c = a ++ b ++ c.
Proof. induction a as [|x a IH]; simpl; [reflexivity | now rewrite IH]. Qed.

Lemma length_append (a b : string) :
  String.length (a ++ b) = String.length a + String.length b.
Proof. induction a as [|x a IH]; simpl; [reflexivity | now rewrite IH]. Qed.

Lemma forallb_append (p : ascii -> bool) (a b : string) :
  forallb p (a ++ b) = forallb p a && forallb p b.
Proof.
  induction a as [|x a IH]; simpl; [reflexivity|].
  rewrite IH. now rewrite andb_assoc.
Qed.

Lemma char_in_append (c : ascii) (a b : string) :
  char_in c (a ++ b) = char_in c a || char_in c b.
Proof.
  induction a as [|x a IH]; simpl; [reflexivity|].
  rewrite IH. now rewrite orb_assoc.
Qed.

Lemma char_in_filter (p : ascii -> bool) (c : ascii) (s : string) :
  char_in c (filter p s) = true -> p c = true /\ char_in c s = true.
Proof.
  induction s as [|x s IH]; simpl; [discriminate|].
  destruct (p x) eqn:Hp; simpl.
  - destruct (Ascii.eqb_spec c x) as [->|_]; simpl; [now split|].
    intros H. destruct (IH H). now split.
  - intros H. destruct (IH H) as [? ->]. split; [assumption|apply orb_true_r].
Qed.

Lemma char_in_map (f : ascii -> ascii) (c : ascii) (s : string) :
  char_in c (map f s) = true -> exists d, char_in d s = true /\ c = f d.
Proof.
  induction s as [|x s IH]; simpl; [discriminate|].
  destruct (Ascii.eqb_spec c (f x)) as [->|_]; simpl.
  - intros _. exists x. now rewrite Ascii.eqb_refl.
  - intros H. destruct (IH H) as (d & Hd & ->). exists d.
    split; [|reflexivity]. rewrite Hd. apply orb_true_r.
Qed.

(** What [lstrip] removes is a run of whitespace, and what is left does not
    start with whitespace. *)
Lemma lstrip_spec (s : string) :
  exists lead,
    s = lead ++ lstrip s /\ forallb isspace lead = true /\
    forall c, first_char (lstrip s) = Some c -> isspace c = false.
Proof.
  induction s as [|x s (lead & E & Hl & Hf)]; simpl.
  - exists "". repeat split. discriminate.
  - destruct (isspace x) eqn:Hx.
    + exists (String x lead). simpl. rewrite Hx, Hl. repeat split; [|assumption].
      now rewrite <- E.
    + exists "". repeat split. simpl. intros c [= <-]. assumption.
Qed.

Lemma rstrip_spec (s : string) :
  exists trail,
    s = rstrip s ++ trail /\ forallb isspace trail = true /\
    forall c, last_char (rstrip s) = Some c -> isspace c = false.
Proof.
  induction s as [|x s (trail & E & Ht & Hf)]; simpl.
  - exists "". repeat split. discriminate.
  - destruct (rstrip s) as [|y t] eqn:Hr.
    + destruct (isspace x) eqn:Hx.
      * exists (String x trail). simpl. rewrite Hx, Ht. repeat split; [|discriminate].
        simpl in E. now rewrite <- E.
      * exists trail. simpl in *. repeat split; [now rewrite <- E|assumption|].
        intros c [= <-]. assumption.
    + exists trail. repeat split; [simpl in *; now rewrite <- E|assumption|].
      intros c Hc. apply Hf. exact Hc.
Qed.

Lemma first_char_rstrip (s : string) (c : ascii) :
  first_char (rstrip s) = Some c -> first_char s = Some c.
Proof.
  destruct s as [|x s]; simpl; [discriminate|].
  destruct (rstrip s); [destruct (isspace x)|]; simpl; congruence.
Qed.

(** [strip] cuts a run of whitespace at each end and nothing else. *)
Lemma strip_spec (s : string) :
  exists lead trail,
    s = lead ++ strip s ++ trail /\
    forallb isspace lead = true /\ forallb isspace trail = true /\
    (forall c, first_char (strip s) = Some c -> isspace c = false) /\
    (forall c, last_char (strip s) = Some c -> isspace c = false).
Proof.
  unfold strip.
  destruct (lstrip_spec s) as (lead & E1 & Hl & Hf).
  destruct (rstrip_spec (lstrip s)) as (trail & E2 & Ht & Hg).
  exists lead, trail. repeat split; try assumption.
  - rewrite <- E2. exact E1.
  - intros c Hc. apply Hf. now apply first_char_rstrip.
Qed.

Lemma startswith_spec (p s : string) :
  startswith p s = true <-> exists r, s = p ++ r.
Proof.
  revert s. induction p as [|a p IH]; intros s; simpl.
  - split; [intros _; now exists s | reflexivity].
  - destruct s as [|b s].
    + split; [discriminate | intros (r & [=])].
    + rewrite andb_true_iff, IH. split.
      * intros (Hab & r & ->). apply Ascii.eqb_eq in Hab. subst. now exists r.
      * intros (r & [= -> ->]). split; [apply Ascii.eqb_refl | now exists r].
Qed.

(** [needle in hay] holds exactly when [hay] splits around [needle]. *)
Lemma contains_spec (needle hay : string) :
  contains needle hay = true <-> exists a b, hay = a ++ needle ++ b.
Proof.
  induction hay as [|x hay IH].
  - simpl. rewrite orb_false_r, startswith_spec. split.
    + intros (r & ->). now exists "", r.
    + intros (a & b & E). destruct a; simpl in E; [now exists b | discriminate].
  - cbn [contains]. rewrite orb_true_iff, startswith_spec, IH. split.
    + intros [(r & ->)|(a & b & ->)]; [now exists "", r | now exists (String x a), b].
    + intros (a & b & E). destruct a as [|y a]; simpl in E.
      * left. now exists b.
      * right. injection E as -> ->. now exists a, b.
Qed.

Lemma map_append (f : ascii -> ascii) (a b : string) :
  map f (a ++ b) = map f a ++ map f b.
Proof. induction a as [|x a IH]; simpl; [reflexivity | now rewrite IH]. Qed.

(** A name that contains a lower-case needle still does once lowered. *)
Lemma contains_lower (needle hay : string) :
  lower needle = needle -> contains needle hay = true ->
  contains needle (lower hay) = true.
Proof.
  intros Hn H. apply contains_spec in H. destruct H as (a & b & ->).
  apply contains_spec. exists (lower a), (lower b).
  unfold lower in *. now rewrite !map_append, Hn.
Qed.

End PyStrFacts.

(** ** Artifact naming *)

Module NamingFacts.
Import PyStr PyStrFacts Naming.

Lemma kept_whitespace_is_space (c : ascii) :
  kept c = true -> isspace c = true -> c = " "%char.
Proof.
  destruct c as [[] [] [] [] [] [] [] []]; vm_compute; intros; congruence.
Qed.

Lemma forallb_weaken (p r : ascii -> bool) (s : string) :
  (forall c, char_in c s = true -> p c = true -> r c = true) ->
  forallb p s = true -> forallb r s = true.
Proof.
  induction s as [|x s IH]; simpl; [reflexivity|].
  intros H. rewrite !andb_true_iff. intros [Hx Hs]. split.
  - apply H; [now rewrite Ascii.eqb_refl | assumption].
  - apply IH; [|assumption]. intros c Hc. apply H. rewrite Hc. apply orb_true_r.
Qed.

Lemma spaces_of_kept (s part : string) :
  (forall c, char_in c part = true -> char_in c (filter kept s) = true) ->
  forallb isspace part = true -> forallb (Ascii.eqb " ") part = true.
Proof.
  intros Hsub. apply forallb_weaken. intros c Hc Hsp.
  destruct (char_in_filter kept c s (Hsub c Hc)) as [Hk _].
  rewrite (kept_whitespace_is_space c Hk Hsp). reflexivity.
Qed.

(** C7, as amended.  The sanitized name is made of the characters of the
    title that are alphanumeric, a space or one of [-_()[]], in their order
    (every other character is dropped, not replaced); the run of spaces at
    each end is cut, each remaining space becomes an underscore, and so the
    name has only alphanumeric characters and [-_()[]].  The title
    [My/Ad: Test*] becomes [MyAd_Test]. *)
Theorem safe_file_title_spec :
  (forall title : string,
     exists lead core trail,
       filter kept title = lead ++ core ++ trail /\
       forallb (Ascii.eqb " ") lead = true /\
       forallb (Ascii.eqb " ") trail = true /\
       (forall c, first_char core = Some c -> isspace c = false) /\
       (forall c, last_char core = Some c -> isspace c = false) /\
       safe_file_title title = replace_char " " "_" core /\
       (forall c, char_in c (safe_file_title title) = true ->
                  isalnum c || char_in c "-_()[]" = true)) /\
  safe_file_title "My/Ad: Test*" = "MyAd_Test".
Proof.
  split; [|reflexivity].
  intros title. unfold safe_file_title.
  destruct (strip_spec (filter kept title)) as (lead & trail & E & Hl & Ht & Hf & Hg).
  exists lead, (strip (filter kept title)), trail.
  split; [exact E|].
  split.
  { apply (spaces_of_kept title); [|exact Hl].
    intros c Hc. rewrite E, char_in_append, Hc. reflexivity. }
  split.
  { apply (spaces_of_kept title); [|exact Ht].
    intros c Hc. rewrite E, !char_in_append, Hc. now rewrite !orb_true_r. }
  do 3 (split; [assumption || reflexivity|]).
  intros c Hc. unfold replace_char in Hc.
  destruct (char_in_map _ _ _ Hc) as (d & Hd & ->).
  assert (Hk : kept d = true).
  { apply (char_in_filter kept d title).
    rewrite E, !char_in_append, Hd. now rewrite orb_true_r. }
  unfold kept in Hk. cbn [char_in] in Hk.
  destruct (Ascii.eqb d " "); [reflexivity | exact Hk].
Qed.

(** C7, as stated, fails: the slash and the colon of [My/Ad: Test*] are
    dropped, not turned into underscores. *)
Lemma safe_file_title_drops_slash :
  safe_file_title "My/Ad: Test*" <> "My_Ad_Test".
Proof. vm_compute. discriminate. Qed.

End NamingFacts.

(** ** The matcher against the denotation of patterns *)

Module RegexFacts.
Import PyStr PyStrFacts Regex.

Lemma take_app (w s : string) : take (String.length w) (w ++ s) = w.
Proof. induction w as [|c w IH]; simpl; [now destruct s | now rewrite IH]. Qed.

Lemma orelse_some (A : Type) (x y : option A) (v : A) :
  orelse x y = Some v -> x = Some v \/ (x = None /\ y = Some v).
Proof. destruct x; simpl; intros H; [left | right]; auto. Qed.

Lemma orelse_none (A : Type) (x y : option A) :
  orelse x y = None <-> x = None /\ y = None.
Proof. destruct x; simpl; split; intros H; try tauto; try discriminate; now destruct H. Qed.

Section Correct.
Variable A : Type.

Lemma star_sound (g : bool) (k : cclass) (s : string) :
  forall pos (cont : nat -> string -> option A) x,
    star g k pos s cont = Some x ->
    exists w s',
      s = w ++ s' /\ forallb (cmatch k) w = true /\
      cont (pos + String.length w) s' = Some x.
Proof.
  induction s as [|c s IH]; intros pos cont x H; simpl in H.
  - exists "", "". rewrite Nat.add_0_r. auto.
  - assert (Hstop : cont pos (String c s) = Some x ->
                    exists w s', String c s = w ++ s' /\
                      forallb (cmatch k) w = true /\
                      cont (pos + String.length w) s' = Some x).
    { intros E. exists "", (String c s). rewrite Nat.add_0_r. auto. }
    destruct (cmatch k c) eqn:Hc; [|auto].
    assert (Hgo : star g k (S pos) s cont = Some x ->
                  exists w s', String c s = w ++ s' /\
                    forallb (cmatch k) w = true /\
                    cont (pos + String.length w) s' = Some x).
    { intros E. destruct (IH _ _ _ E) as (w & s' & -> & Hw & Hk).
      exists (String c w), s'. simpl. rewrite Hc, Hw.
      rewrite Nat.add_succ_r. auto. }
    destruct g; apply orelse_some in H; destruct H as [H|[_ H]]; auto.
Qed.

Lemma star_complete (g : bool) (k : cclass) (w : string) :
  forall pos s' (cont : nat -> string -> option A),
    forallb (cmatch k) w = true ->
    cont (pos + String.length w) s' <> None ->
    star g k pos (w ++ s') cont <> None.
Proof.
  induction w as [|c w IH]; intros pos s' cont Hw Hk; simpl in *.
  - rewrite Nat.add_0_r in Hk.
    destruct s' as [|c s']; simpl; [assumption|].
    destruct (cmatch k c); [|assumption].
    destruct g; rewrite orelse_none; tauto.
  - apply andb_true_iff in Hw. destruct Hw as [Hc Hw]. rewrite Hc.
    rewrite Nat.add_succ_r in Hk.
    specialize (IH (S pos) s' cont Hw Hk).
    destruct g; rewrite orelse_none; tauto.
Qed.

(** Whatever the matcher returns comes from a word of the denotation. *)
Lemma run_sound (r : regex) :
  forall pos s cap (cont : nat -> string -> option string -> option A) x,
    run r pos s cap cont = Some x ->
    exists w s' cap',
      s = w ++ s' /\ den r pos w cap cap' /\
      cont (pos + String.length w) s' cap' = Some x.
Proof.
  induction r as [|k| |r1 IH1 r2 IH2|r1 IH1 r2 IH2|g k|r IH];
    intros pos s cap cont x H; simpl in H.
  - exists "", s, cap. rewrite Nat.add_0_r. repeat split; [constructor|assumption].
  - destruct s as [|c t]; [discriminate|].
    destruct (cmatch k c) eqn:Hc; [|discriminate].
    exists (String c ""), t, cap. simpl. rewrite Nat.add_1_r.
    repeat split; [now constructor|assumption].
  - destruct (Nat.eqb_spec pos 0) as [->|_]; [|discriminate].
    exists "", s, cap. repeat split; [constructor|assumption].
  - destruct (IH1 _ _ _ _ _ H) as (w1 & s1 & c1 & -> & D1 & H1).
    destruct (IH2 _ _ _ _ _ H1) as (w2 & s2 & c2 & -> & D2 & H2).
    exists (w1 ++ w2), s2, c2. rewrite append_assoc, length_append, Nat.add_assoc.
    repeat split; [econstructor; eassumption|assumption].
  - apply orelse_some in H. destruct H as [H|[_ H]].
    + destruct (IH1 _ _ _ _ _ H) as (w & s' & c' & -> & D & Hk).
      exists w, s', c'. repeat split; [now apply DAltL|assumption].
    + destruct (IH2 _ _ _ _ _ H) as (w & s' & c' & -> & D & Hk).
      exists w, s', c'. repeat split; [now apply DAltR|assumption].
  - destruct (star_sound _ _ _ _ _ H) as (w & s' & -> & Hw & Hk).
    exists w, s', cap. repeat split; [now constructor|assumption].
  - destruct (IH _ _ _ _ _ H) as (w & s' & c' & -> & D & Hk).
    exists w, s', (Some w). repeat split; [econstructor; eassumption|].
    replace (pos + String.length w - pos) with (String.length w) in Hk by lia.
    now rewrite take_app in Hk.
Qed.

(** Every word of the denotation after which the continuation succeeds
    makes the matcher succeed. *)
Lemma run_complete (r : regex) (pos : nat) (w : string) (cap cap' : option string) :
  den r pos w cap cap' ->
  forall s' (cont : nat -> string -> option string -> option A),
    cont (pos + String.length w) s' cap' <> None ->
    run r pos (w ++ s') cap cont <> None.
Proof.
  induction 1 as [pos cap|k c pos cap Hc|cap|r1 r2 pos w1 w2 c0 c1 c2 _ IH1 _ IH2
                  |r1 r2 pos w c0 c1 _ IH|r1 r2 pos w c0 c1 _ IH|g k pos w cap Hw
                  |r pos w c0 c1 _ IH];
    intros s' cont Hk; simpl in *.
  - now rewrite Nat.add_0_r in Hk.
  - rewrite Hc. now rewrite Nat.add_1_r in Hk.
  - exact Hk.
  - rewrite append_assoc. apply IH1. apply IH2.
    now rewrite length_append, Nat.add_assoc in Hk.
  - rewrite orelse_none. intros [E _]. revert E. now apply IH.
  - rewrite orelse_none. intros [_ E]. revert E. now apply IH.
  - now apply star_complete.
  - apply IH.
    replace (pos + String.length w - pos) with (String.length w) by lia.
    now rewrite take_app.
Qed.

End Correct.

Lemma match_at_sound (r : regex) (pos : nat) (s : string) (m : option string) :
  match_at r pos s = Some m ->
  exists w s', s = w ++ s' /\ den r pos w None m.
Proof.
  unfold match_at. intros H.
  destruct (run_sound _ _ _ _ _ H) as (w & s' & c' & -> & D & [= <-]).
  now exists w, s'.
Qed.

Lemma match_at_complete (r : regex) (pos : nat) (w s' : string) (m : option string) :
  den r pos w None m -> match_at r pos (w ++ s') <> None.
Proof.
  intros D. unfold match_at. apply (run_complete D). discriminate.
Qed.

Lemma search_from_sound (r : regex) (s : string) :
  forall pos m,
    search_from r pos s = Some m ->
    exists pre rest,
      s = pre ++ rest /\ match_at r (pos + String.length pre) rest = Some m.
Proof.
  induction s as [|c s IH]; intros pos m H; simpl in H.
  - destruct (match_at r pos "") eqn:E; [|discriminate].
    injection H as ->. exists "", "". now rewrite Nat.add_0_r.
  - destruct (match_at r pos (String c s)) eqn:E.
    + injection H as ->. exists "", (String c s). now rewrite Nat.add_0_r.
    + destruct (IH _ _ H) as (pre & rest & -> & Hm).
      exists (String c pre), rest. simpl. now rewrite Nat.add_succ_r.
Qed.

Lemma search_from_complete (r : regex) (pre : string) :
  forall pos rest,
    match_at r (pos + String.length pre) rest <> None ->
    search_from r pos (pre ++ rest) <> None.
Proof.
  induction pre as [|c pre IH]; intros pos rest H; simpl in *.
  - rewrite Nat.add_0_r in H.
    destruct rest; simpl; destruct (match_at r pos _); congruence.
  - destruct (match_at r pos _); [discriminate|].
    apply IH. now rewrite Nat.add_succ_r in H.
Qed.

(** [re.search] finds a match exactly when the pattern occurs. *)
Lemma search_sound (r : regex) (s : string) (m : option string) :
  search r s = Some m -> occurs r s m.
Proof.
  intros H. destruct (search_from_sound _ _ _ H) as (pre & rest & -> & Hm).
  destruct (match_at_sound _ _ _ Hm) as (w & post & -> & D).
  now exists pre, w, post.
Qed.

Lemma search_complete (r : regex) (s : string) (m : option string) :
  occurs r s m -> search r s <> None.
Proof.
  intros (pre & w & post & -> & D).
  apply search_from_complete. simpl. now apply (match_at_complete post D).
Qed.

End RegexFacts.

(** ** Title extraction *)

Module TitleFacts.
Import PyStr PyStrFacts Regex RegexFacts Title.

Lemma forallb_ext (p r : ascii -> bool) (s : string) :
  (forall c, p c = r c) -> forallb p s = forallb r s.
Proof. intros E. induction s as [|c s IH]; simpl; [reflexivity | now rewrite E, IH]. Qed.

Lemma take_while_ext (p r : ascii -> bool) (s : string) :
  (forall c, p c = r c) -> take_while p s = take_while r s.
Proof. intros E. induction s as [|c s IH]; simpl; [reflexivity | now rewrite E, IH]. Qed.

Lemma not_quote_class (c : ascii) :
  cmatch (CNoneOf quote_class) c = negb (Ascii.eqb c dquote).
Proof. simpl. now rewrite orb_false_r. Qed.

Lemma no_quote_class (s : string) :
  forallb (cmatch (CNoneOf quote_class)) s = no_quote s.
Proof. apply forallb_ext, not_quote_class. Qed.

(** *** Reading a denotation backwards *)

Lemma den_eps_inv pos w c c' : den Eps pos w c c' -> w = "" /\ c' = c.
Proof. inversion 1; subst; auto. Qed.

Lemma den_cls_inv k pos w c c' :
  den (Cls k) pos w c c' -> exists ch, w = String ch "" /\ cmatch k ch = true /\ c' = c.
Proof. inversion 1; subst; eauto. Qed.

Lemma den_chr_inv a pos w c c' :
  den (Chr a) pos w c c' -> w = String a "" /\ c' = c.
Proof.
  intros H. destruct (den_cls_inv H) as (ch & -> & Hm & ->).
  simpl in Hm. rewrite orb_false_r in Hm. apply Ascii.eqb_eq in Hm. now subst.
Qed.

Lemma den_seq_inv r1 r2 pos w c c' :
  den (Seq r1 r2) pos w c c' ->
  exists w1 w2 c1,
    w = w1 ++ w2 /\ den r1 pos w1 c c1 /\ den r2 (pos + String.length w1) w2 c1 c'.
Proof. inversion 1; subst; eauto 7. Qed.

Lemma den_alt_inv r1 r2 pos w c c' :
  den (Alt r1 r2) pos w c c' -> den r1 pos w c c' \/ den r2 pos w c c'.
Proof. inversion 1; subst; auto. Qed.

Lemma den_star_inv g k pos w c c' :
  den (Star g k) pos w c c' -> forallb (cmatch k) w = true /\ c' = c.
Proof. inversion 1; subst; auto. Qed.

Lemma den_group_inv r pos w c c' :
  den (Group r) pos w c c' -> (exists c1, den r pos w c c1) /\ c' = Some w.
Proof. inversion 1; subst; eauto. Qed.

Lemma den_bol_inv pos w c c' : den Bol pos w c c' -> pos = 0 /\ w = "" /\ c' = c.
Proof. inversion 1; subst; auto. Qed.

Lemma den_lit_inv (l : string) :
  forall pos w c c', den (Lit l) pos w c c' -> w = l /\ c' = c.
Proof.
  induction l as [|a l IH]; intros pos w c c' H; simpl in H.
  - now apply den_eps_inv in H.
  - destruct (den_seq_inv H) as (w1 & w2 & c1 & -> & H1 & H2).
    destruct (den_chr_inv H1) as [-> ->].
    destruct (IH _ _ _ _ H2) as [-> ->]. auto.
Qed.

Lemma den_plus_inv k pos w c c' :
  den (Plus k) pos w c c' -> forallb (cmatch k) w = true /\ w <> "" /\ c' = c.
Proof.
  intros H. destruct (den_seq_inv H) as (w1 & w2 & c1 & -> & H1 & H2).
  destruct (den_cls_inv H1) as (ch & -> & Hm & ->).
  destruct (den_star_inv H2) as [Hw ->].
  simpl. rewrite Hm, Hw. repeat split. discriminate.
Qed.

(** *** Building a denotation *)

Lemma den_chr a pos c : den (Chr a) pos (String a "") c c.
Proof. constructor. simpl. now rewrite Ascii.eqb_refl. Qed.

Lemma den_lit (l : string) : forall pos c, den (Lit l) pos l c c.
Proof.
  induction l as [|a l IH]; intros pos c; simpl; [constructor|].
  change (String a l) with (String a "" ++ l).
  econstructor; [apply den_chr | apply IH].
Qed.

Lemma den_plus k pos w c :
  forallb (cmatch k) w = true -> w <> "" -> den (Plus k) pos w c c.
Proof.
  destruct w as [|a w]; [congruence|]. simpl. intros H _.
  apply andb_true_iff in H. destruct H as [Ha Hw].
  change (String a w) with (String a "" ++ w).
  econstructor; [now constructor | now constructor].
Qed.

Lemma den_seq r1 r2 pos w1 w2 w c0 c1 c2 :
  den r1 pos w1 c0 c1 -> den r2 (pos + String.length w1) w2 c1 c2 ->
  w = w1 ++ w2 -> den (Seq r1 r2) pos w c0 c2.
Proof. intros H1 H2 ->. econstructor; eassumption. Qed.

(** *** The first pattern *)

Lemma pattern1_den_inv pos w m :
  den title_pattern1 pos w None m ->
  exists mid ws t,
    w = "Ad " ++ mid ++ ":" ++ ws ++ q ++ t ++ q /\
    no_newline mid = true /\ forallb isspace ws = true /\
    t <> "" /\ no_quote t = true /\ m = Some t.
Proof.
  intros H. cbv [title_pattern1 seqs] in H.
  destruct (den_seq_inv H) as (w1 & r1 & c1 & -> & H1 & K1); clear H.
  destruct (den_seq_inv K1) as (w2 & r2 & c2 & -> & H2 & K2); clear K1.
  destruct (den_seq_inv K2) as (w3 & r3 & c3 & -> & H3 & K3); clear K2.
  destruct (den_seq_inv K3) as (w4 & r4 & c4 & -> & H4 & K4); clear K3.
  destruct (den_seq_inv K4) as (w5 & r5 & c5 & -> & H5 & K5); clear K4.
  destruct (den_seq_inv K5) as (w6 & w7 & c6 & -> & H6 & H7); clear K5.
  destruct (den_lit_inv _ H1) as [-> ->].
  destruct (den_star_inv H2) as [Hmid ->].
  destruct (den_chr_inv H3) as [-> ->].
  destruct (den_star_inv H4) as [Hws ->].
  destruct (den_chr_inv H5) as [-> ->].
  destruct (den_group_inv H6) as [(c & Hg) ->].
  destruct (den_plus_inv Hg) as (Ht & Hne & _).
  destruct (den_chr_inv H7) as [-> ->].
  exists w2, w4, w6. rewrite no_quote_class in Ht. now repeat split.
Qed.

Lemma pattern1_den pos mid ws t :
  no_newline mid = true -> forallb isspace ws = true ->
  t <> "" -> no_quote t = true ->
  den title_pattern1 pos ("Ad " ++ mid ++ ":" ++ ws ++ q ++ t ++ q) None (Some t).
Proof.
  intros Hmid Hws Hne Ht. cbv [title_pattern1 seqs].
  eapply den_seq; [apply den_lit| |reflexivity].
  eapply den_seq; [constructor; exact Hmid| |reflexivity].
  eapply den_seq; [apply den_chr| |reflexivity].
  eapply den_seq; [constructor; exact Hws| |reflexivity].
  eapply den_seq; [apply den_chr| |reflexivity].
  eapply den_seq; [|apply den_chr|reflexivity].
  econstructor. apply den_plus; [|assumption]. now rewrite no_quote_class.
Qed.

Lemma pattern1_occurs s m :
  occurs title_pattern1 s m <-> exists t, m = Some t /\ ad_title s t.
Proof.
  split.
  - intros (pre & w & post & -> & D).
    destruct (pattern1_den_inv D) as (mid & ws & t & -> & ? & ? & ? & ? & ->).
    exists t. split; [reflexivity|]. exists pre, mid, ws, post.
    repeat split; try assumption.
    now rewrite !append_assoc.
  - intros (t & -> & pre & mid & ws & post & -> & ? & ? & ? & ?).
    exists pre, ("Ad " ++ mid ++ ":" ++ ws ++ q ++ t ++ q), post. split.
    + now rewrite !append_assoc.
    + now apply pattern1_den.
Qed.

(** *** The second pattern *)

Lemma pattern2_den_inv pos w m :
  den title_pattern2 pos w None m ->
  exists ws t,
    w = "Video Title:" ++ ws ++ q ++ t ++ q /\
    forallb isspace ws = true /\ t <> "" /\ no_quote t = true /\ m = Some t.
Proof.
  intros H. cbv [title_pattern2 seqs] in H.
  destruct (den_seq_inv H) as (w1 & r1 & c1 & -> & H1 & K1); clear H.
  destruct (den_seq_inv K1) as (w2 & r2 & c2 & -> & H2 & K2); clear K1.
  destruct (den_seq_inv K2) as (w3 & r3 & c3 & -> & H3 & K3); clear K2.
  destruct (den_seq_inv K3) as (w4 & w5 & c4 & -> & H4 & H5); clear K3.
  destruct (den_lit_inv _ H1) as [-> ->].
  destruct (den_star_inv H2) as [Hws ->].
  destruct (den_chr_inv H3) as [-> ->].
  destruct (den_group_inv H4) as [(c & Hg) ->].
  destruct (den_plus_inv Hg) as (Ht & Hne & _).
  destruct (den_chr_inv H5) as [-> ->].
  exists w2, w4. rewrite no_quote_class in Ht. now repeat split.
Qed.

Lemma pattern2_den pos ws t :
  forallb isspace ws = true -> t <> "" -> no_quote t = true ->
  den title_pattern2 pos ("Video Title:" ++ ws ++ q ++ t ++ q) None (Some t).
Proof.
  intros Hws Hne Ht. cbv [title_pattern2 seqs].
  eapply den_seq; [apply den_lit| |reflexivity].
  eapply den_seq; [constructor; exact Hws| |reflexivity].
  eapply den_seq; [apply den_chr| |reflexivity].
  eapply den_seq; [|apply den_chr|reflexivity].
  econstructor. apply den_plus; [|assumption]. now rewrite no_quote_class.
Qed.

Lemma pattern2_occurs s m :
  occurs title_pattern2 s m <-> exists t, m = Some t /\ video_title s t.
Proof.
  split.
  - intros (pre & w & post & -> & D).
    destruct (pattern2_den_inv D) as (ws & t & -> & ? & ? & ? & ->).
    exists t. split; [reflexivity|]. exists pre, ws, post.
    repeat split; try assumption.
    now rewrite !append_assoc.
  - intros (t & -> & pre & ws & post & -> & ? & ? & ?).
    exists pre, ("Video Title:" ++ ws ++ q ++ t ++ q), post. split.
    + now rewrite !append_assoc.
    + now apply pattern2_den.
Qed.

(** *** The third pattern *)

Lemma run_pattern3 (A : Type) pos s cap (cont : nat -> string -> option string -> option A) :
  run title_pattern3 pos s cap cont
  = run pattern3_head pos s cap (fun p s' c => run pattern3_tail p s' c cont).
Proof. reflexivity. Qed.

(** A greedy repetition whose continuation cannot fail takes the longest run. *)
Lemma star_greedy_total (A : Type) (k : cclass) (s : string) :
  forall pos (cont : nat -> string -> option A),
    (forall p s', cont p s' <> None) ->
    star true k pos s cont
    = cont (pos + String.length (take_while (cmatch k) s)) (drop_while (cmatch k) s).
Proof.
  induction s as [|c s IH]; intros pos cont Hk; simpl.
  - now rewrite Nat.add_0_r.
  - destruct (cmatch k c); simpl; [|now rewrite Nat.add_0_r].
    rewrite (IH (S pos) cont Hk), Nat.add_succ_r. simpl.
    destruct (cont _ _) eqn:E; [reflexivity|]. now apply Hk in E.
Qed.

Lemma take_take_while (p : ascii -> bool) (s : string) :
  take (String.length (take_while p s)) s = take_while p s.
Proof.
  induction s as [|c s IH]; simpl; [reflexivity|].
  destruct (p c); simpl; [now rewrite IH | reflexivity].
Qed.

Lemma run_opt_accept pos s cap :
  run (Opt (COneOf quote_class)) pos s cap (fun _ _ c => Some c) = Some cap.
Proof.
  simpl. destruct s as [|c s]; [reflexivity|].
  now destruct (Ascii.eqb c dquote || false).
Qed.

Lemma run_group_accept pos s cap :
  run (Seq (Group (Star true (CNoneOf quote_class))) (Opt (COneOf quote_class)))
    pos s cap (fun _ _ c => Some c)
  = Some (Some (take_while (fun c => negb (Ascii.eqb c dquote)) s)).
Proof.
  cbn [run]. rewrite star_greedy_total.
  - rewrite run_opt_accept.
    replace (pos + _ - pos) with
      (String.length (take_while (cmatch (CNoneOf quote_class)) s)) by lia.
    rewrite take_take_while. do 2 f_equal.
    apply take_while_ext, not_quote_class.
  - intros p s'. now rewrite run_opt_accept.
Qed.

Lemma run_quote_accept pos s cap :
  run (Seq (Opt (COneOf quote_class))
         (Seq (Group (Star true (CNoneOf quote_class))) (Opt (COneOf quote_class))))
    pos s cap (fun _ _ c => Some c)
  = Some (Some (take_while (fun c => negb (Ascii.eqb c dquote)) (drop_quote s))).
Proof.
  change (run (Seq (Opt (COneOf quote_class)) ?r) pos s cap ?k)
    with (run (Opt (COneOf quote_class)) pos s cap (fun p s' c => run r p s' c k)).
  remember (fun p s' c =>
              run (Seq (Group (Star true (CNoneOf quote_class)))
                     (Opt (COneOf quote_class))) p s' c (fun _ _ c0 => Some c0))
    as k eqn:Ek.
  assert (Hk : forall p s' c,
             k p s' c = Some (Some (take_while (fun c => negb (Ascii.eqb c dquote)) s'))).
  { intros. subst k. apply run_group_accept. }
  clear Ek. unfold Opt. cbn [run].
  destruct s as [|c s]; cbn [orelse drop_quote]; [apply Hk|].
  cbn [cmatch char_in quote_class]. rewrite orb_false_r.
  destruct (Ascii.eqb c dquote); cbn [orelse]; rewrite ?Hk; reflexivity.
Qed.

(** After the colon the third pattern cannot fail, and captures
    [title_after]. *)
Lemma run_pattern3_tail pos s cap :
  run pattern3_tail pos s cap (fun _ _ c => Some c) = Some (Some (title_after s)).
Proof.
  unfold pattern3_tail, title_after. cbn [seqs].
  change (run (Seq (Star true CSpace) ?r) pos s cap ?k)
    with (star true CSpace pos s (fun p s' => run r p s' cap k)).
  rewrite star_greedy_total.
  - apply run_quote_accept.
  - intros p s'. now rewrite run_quote_accept.
Qed.

Lemma pattern3_head_inv pos w c' :
  den pattern3_head pos w None c' ->
  exists w0 ws kw,
    w = w0 ++ ws ++ kw ++ ":" /\
    ((pos = 0 /\ w0 = "") \/ w0 = nl) /\
    forallb isspace ws = true /\ (kw = "Title" \/ kw = "title").
Proof.
  intros H. cbv [pattern3_head seqs] in H.
  destruct (den_seq_inv H) as (w1 & r1 & c1 & -> & H1 & K1); clear H.
  destruct (den_seq_inv K1) as (w2 & r2 & c2 & -> & H2 & K2); clear K1.
  destruct (den_seq_inv K2) as (w3 & w4 & c3 & -> & H3 & H4); clear K2.
  destruct (den_star_inv H2) as [Hws ->].
  destruct (den_chr_inv H4) as [-> ->].
  exists w1, w2, w3. repeat split; try assumption.
  - destruct (den_alt_inv H1) as [B|B].
    + left. destruct (den_bol_inv B) as (? & ? & ?). auto.
    + right. now destruct (den_chr_inv B).
  - destruct (den_alt_inv H3) as [L|L]; destruct (den_lit_inv _ L); auto.
Qed.

Lemma pattern3_head_den pos w0 ws kw :
  (pos = 0 /\ w0 = "") \/ w0 = nl ->
  forallb isspace ws = true -> kw = "Title" \/ kw = "title" ->
  den pattern3_head pos (w0 ++ ws ++ kw ++ ":") None None.
Proof.
  intros H0 Hws Hkw. cbv [pattern3_head seqs].
  eapply den_seq; [| |reflexivity].
  { destruct H0 as [[-> ->]| ->]; [apply DAltL; constructor | apply DAltR, den_chr]. }
  eapply den_seq; [constructor; exact Hws| |reflexivity].
  eapply den_seq; [|apply den_chr|reflexivity].
  destruct Hkw as [-> | ->]; [apply DAltL | apply DAltR]; apply den_lit.
Qed.

Lemma length_zero (s : string) : String.length s = 0 -> s = "".
Proof. now destruct s. Qed.

Lemma pattern3_search_sound s m :
  search title_pattern3 s = Some m -> exists t, m = Some t /\ title_line s t.
Proof.
  intros H. destruct (search_from_sound _ _ _ H) as (pre & rest & -> & Hm).
  unfold match_at in Hm. rewrite run_pattern3 in Hm.
  destruct (run_sound _ _ _ _ _ Hm) as (w & s' & c' & -> & D & Hk).
  rewrite run_pattern3_tail in Hk. injection Hk as <-.
  exists (title_after s'). split; [reflexivity|].
  destruct (pattern3_head_inv D) as (w0 & ws & kw & -> & H0 & Hws & Hkw).
  exists (pre ++ w0), ws, kw, s'. repeat split; try assumption.
  - now rewrite !append_assoc.
  - destruct H0 as [[Hp ->]| ->].
    + left. simpl in Hp. apply length_zero in Hp. now subst.
    + right. now exists pre.
Qed.

Lemma pattern3_search_complete s t :
  title_line s t -> search title_pattern3 s <> None.
Proof.
  intros (pre & ws & kw & rest & -> & Hpre & Hws & Hkw & _).
  assert (Hrun : forall pos w0 p,
             (pos = 0 /\ w0 = "") \/ w0 = nl -> pos = String.length p ->
             search title_pattern3 (p ++ (w0 ++ ws ++ kw ++ ":") ++ rest) <> None).
  { intros pos w0 p H0 ->. apply search_from_complete. simpl.
    unfold match_at. rewrite run_pattern3.
    apply (run_complete (@pattern3_head_den _ _ _ _ H0 Hws Hkw)).
    now rewrite run_pattern3_tail. }
  destruct Hpre as [-> | (p & ->)].
  - assert (E := Hrun 0 "" "" (or_introl (conj eq_refl eq_refl)) eq_refl).
    simpl in E. simpl. now rewrite !append_assoc in E.
  - assert (E := Hrun (String.length p) nl p (or_intror eq_refl) eq_refl).
    now rewrite !append_assoc in *.
Qed.

(** *** Each search either finds its shape or proves it absent *)

Lemma search1_cases s :
  (exists t, search title_pattern1 s = Some (Some t) /\ ad_title s t) \/
  (search title_pattern1 s = None /\ ~ exists t, ad_title s t).
Proof.
  destruct (search title_pattern1 s) as [m|] eqn:E.
  - left. apply search_sound, pattern1_occurs in E.
    destruct E as (t & -> & Ht). now exists t.
  - right. split; [reflexivity|]. intros (t & Ht).
    apply (@search_complete title_pattern1 s (Some t)); [|exact E].
    apply pattern1_occurs. now exists t.
Qed.

Lemma search2_cases s :
  (exists t, search title_pattern2 s = Some (Some t) /\ video_title s t) \/
  (search title_pattern2 s = None /\ ~ exists t, video_title s t).
Proof.
  destruct (search title_pattern2 s) as [m|] eqn:E.
  - left. apply search_sound, pattern2_occurs in E.
    destruct E as (t & -> & Ht). now exists t.
  - right. split; [reflexivity|]. intros (t & Ht).
    apply (@search_complete title_pattern2 s (Some t)); [|exact E].
    apply pattern2_occurs. now exists t.
Qed.

Lemma search3_cases s :
  (exists t, search title_pattern3 s = Some (Some t) /\ title_line s t) \/
  (search title_pattern3 s = None /\ ~ exists t, title_line s t).
Proof.
  destruct (search title_pattern3 s) as [m|] eqn:E.
  - left. apply pattern3_search_sound in E.
    destruct E as (t & -> & Ht). now exists t.
  - right. split; [reflexivity|]. intros (t & Ht).
    now apply (pattern3_search_complete Ht).
Qed.

(** C6, as amended.  The three patterns are tried in order and the first
    that occurs in the text gives the title: a quoted title after an
    [Ad ...:] marker; else a quoted title after [Video Title:]; else
    [Title:] or [title:] (these two spellings only) first on a line, where
    the title is what follows the colon, past whitespace and one opening
    quote, up to the next double quote or the end of the text.  When none
    occurs there is no title, and the caller then names the file after the
    video.  A text with the Ad title Foo and the Title line Bar yields Foo. *)
Theorem extract_title_ordered :
  (forall s : string,
     ((exists t, ad_title s t) ->
      exists t, extract_title_from_brief s = Some t /\ ad_title s t) /\
     (~ (exists t, ad_title s t) -> (exists t, video_title s t) ->
      exists t, extract_title_from_brief s = Some t /\ video_title s t) /\
     (~ (exists t, ad_title s t) -> ~ (exists t, video_title s t) ->
      (exists t, title_line s t) ->
      exists t, extract_title_from_brief s = Some t /\ title_line s t) /\
     (~ (exists t, ad_title s t) -> ~ (exists t, video_title s t) ->
      ~ (exists t, title_line s t) ->
      extract_title_from_brief s = None)) /\
  (forall s video_name : string,
     extract_title_from_brief s = None ->
     Engine.file_title_of s video_name = video_name) /\
  extract_title_from_brief
    ("Ad 3: " ++ q ++ "Foo" ++ q ++ nl ++ "Title: " ++ q ++ "Bar" ++ q)
  = Some "Foo".
Proof.
  split; [|split; [|reflexivity]];
    [|intros s video_name H; unfold Engine.file_title_of; now rewrite H].
  intros s. unfold extract_title_from_brief.
  destruct (search1_cases s) as [(t1 & -> & H1)|[-> N1]].
  { repeat split; try (intros; exfalso; eauto; fail).
    intros _. now exists t1. }
  destruct (search2_cases s) as [(t2 & -> & H2)|[-> N2]].
  { repeat split; try (intros; exfalso; eauto; fail).
    intros _ _. now exists t2. }
  destruct (search3_cases s) as [(t3 & -> & H3)|[-> N3]].
  { repeat split; try (intros; exfalso; eauto; fail).
    intros _ _ _. now exists t3. }
  repeat split; try (intros; exfalso; eauto; fail).
Qed.

(** C6, as stated, fails.  The third pattern knows the spellings [Title]
    and [title] only, so an upper-case [TITLE:] line gives no title where
    the specified definition gives one; and its capture stops at a double
    quote or at the end of the text, not at the end of the line. *)
Lemma extract_title_differs :
  extract_title_from_brief "TITLE: Foo" = None /\
  spec_extract_title "TITLE: Foo" = Some "Foo" /\
  extract_title_from_brief ("Title: Foo" ++ nl ++ "Bar") = Some ("Foo" ++ nl ++ "Bar") /\
  spec_extract_title ("Title: Foo" ++ nl ++ "Bar") = Some "Foo".
Proof. repeat split; reflexivity. Qed.

Example extract_title_more :
  extract_title_from_brief ("Video Title: " ++ q ++ "Bar" ++ q) = Some "Bar" /\
  extract_title_from_brief ("Title: " ++ q ++ q) = Some "" /\
  extract_title_from_brief "Subtitle: Bar" = None /\
  extract_title_from_brief ("my Ad x: y: " ++ nl ++ q ++ "Bar" ++ q) = Some "Bar".
Proof. repeat split; reflexivity. Qed.

End TitleFacts.

(** ** The video engine *)

Module EngineFacts.
Import Py PyStr PyStrFacts Engine Protocol.

Section Gateway.
Variables World Handle : Type.
Variable O : Oracles World Handle.


(** *** The candidate list *)

Lemma existsb_eqb_In (x : string) (l : list string) :
  existsb (String.eqb x) l = true <-> In x l.
Proof.
  rewrite existsb_exists. split.
  - intros (y & Hy & E). apply String.eqb_eq in E. now subst.
  - intros H. exists x. split; [assumption | apply String.eqb_refl].
Qed.

Lemma models_fold (l : list string) :
  forall acc,
    fold_left
      (fun acc model =>
         if existsb (String.eqb model) acc then acc else (acc ++ [model])%list)
      l acc
    = (acc ++ uniq_from acc l)%list.
Proof.
  induction l as [|x l IH]; intros acc; simpl.
  - now rewrite app_nil_r.
  - destruct (existsb (String.eqb x) acc); rewrite IH; [reflexivity|].
    now rewrite <- app_assoc.
Qed.

Lemma models_to_try_eq (primary : string) (fallback_models : list string) :
  models_to_try primary fallback_models
  = primary :: uniq_from [primary] fallback_models.
Proof. unfold models_to_try. now rewrite models_fold. Qed.

Lemma uniq_from_spec (l : list string) :
  forall seen,
    NoDup (uniq_from seen l) /\
    (forall x, In x (uniq_from seen l) <-> In x l /\ ~ In x seen).
Proof.
  induction l as [|y l IH]; intros seen; simpl.
  - split; [constructor | intros x; tauto].
  - destruct (existsb (String.eqb y) seen) eqn:E.
    + apply existsb_eqb_In in E.
      destruct (IH seen) as [Hn Hi]. split; [assumption|].
      intros x. rewrite Hi. split; [tauto|].
      intros [[<-|Hx] Hs]; [contradiction | tauto].
    + assert (Hy : ~ In y seen).
      { intros H. apply existsb_eqb_In in H. congruence. }
      destruct (IH (seen ++ [y])%list) as [Hn Hi]. split.
      * constructor; [|assumption]. rewrite Hi, in_app_iff. simpl. tauto.
      * intros x. simpl. rewrite Hi, in_app_iff. simpl.
        destruct (string_dec y x) as [->|Hne]; [tauto|]. tauto.
Qed.

Lemma models_to_try_NoDup (primary : string) (fallback_models : list string) :
  NoDup (models_to_try primary fallback_models).
Proof.
  rewrite models_to_try_eq.
  destruct (uniq_from_spec fallback_models [primary]) as [Hn Hi].
  constructor; [|assumption]. rewrite Hi. simpl. tauto.
Qed.

Lemma models_to_try_In (primary : string) (fallback_models : list string) (m : string) :
  In m (models_to_try primary fallback_models)
  <-> m = primary \/ In m fallback_models.
Proof.
  rewrite models_to_try_eq.
  destruct (uniq_from_spec fallback_models [primary]) as [_ Hi].
  simpl. rewrite Hi. simpl.
  destruct (string_dec primary m) as [->|Hne]; [tauto|].
  split; [intros [?|[? _]]; auto | intros [->|?]; [congruence|tauto]].
Qed.

(** *** The probing loop *)

Lemma try_models_spec (candidates : list string) :
  forall (last : option string) (st : St World Handle),
    match try_models O candidates last st with
    | (inr h, st') =>
        exists fails m rest,
          candidates = (List.map fst fails ++ m :: rest)%list /\
          trace st' = (trace st ++ failure_events fails ++ [EvLoad m (inr h)])%list /\
          self st' = set_working_model_name m (self st) /\
          frame st' = frame st
    | (inl e, st') =>
        exists fails,
          candidates = List.map fst fails /\
          trace st' = (trace st ++ failure_events fails)%list /\
          self st' = self st /\ frame st' = frame st /\
          ((fails = [] /\
            e = match last with
                | Some msg => RuntimeError (load_failure_text msg)
                | None => UnboundLocalError "error_msg"
                end) \/
           (exists before m msg,
              fails = (before ++ [(m, msg)])%list /\
              e = RuntimeError (load_failure_text msg)))
    end.
Proof.
  induction candidates as [|model rest IH]; intros last st.
  - destruct last; cbn; exists []; simpl; rewrite app_nil_r;
      repeat split; left; now split.
  - cbn [try_models]. unfold try_except, bind, call_load_model.
    destruct (load_model O model _ _ (world st)) as [[msg|h] w] eqn:E.
    + cbn [sleep]. 
      set (st2 := emit _ (EvSleep (1 # 2)) (emit w (EvLoad model (inl msg)) st)).
      specialize (IH (Some (str_exn (GatewayError msg))) st2).
      change (sleep (1 # 2) (emit w (EvLoad model (inl msg)) st)) with (inr tt : exn + unit, st2).
      cbv iota beta.
      destruct (try_models O rest _ st2) as [[e|h] st'].
      * destruct IH as (fails & -> & Htr & Hself & Hframe & He).
        exists ((model, msg) :: fails). simpl.
        repeat split; try assumption.
        { rewrite Htr. unfold st2. simpl. now rewrite <- !app_assoc. }
        right. destruct He as [[-> ->]|(before & m & msg' & -> & ->)].
        { now exists [], model, msg. }
        { now exists ((model, msg) :: before), m, msg'. }
      * destruct IH as (fails & m & rest' & -> & Htr & Hself & Hframe).
        exists ((model, msg) :: fails), m, rest'. simpl.
        repeat split; try assumption.
        rewrite Htr. unfold st2. simpl. now rewrite <- !app_assoc.
    + simpl. exists [], model, rest. simpl. now repeat split.
Qed.

(** Each probe of the loop is a call of the gateway: the failures are the
    answers it gave, in order, and the handle is the one it returned. *)
Lemma try_models_gateway (candidates : list string) :
  forall (last : option string) (st : St World Handle),
    let cfg := config (self st) in
    match try_models O candidates last st with
    | (inr h, st') =>
        exists fails m rest w1,
          candidates = (List.map fst fails ++ m :: rest)%list /\
          refused O cfg fails (world st) w1 /\
          load_model O m (LLM_TEAM cfg) (LLM_USE_CASE cfg) w1 = (inr h, world st') /\
          trace st' = (trace st ++ failure_events fails ++ [EvLoad m (inr h)])%list /\
          self st' = set_working_model_name m (self st)
    | (inl e, st') =>
        exists fails,
          candidates = List.map fst fails /\
          refused O cfg fails (world st) (world st') /\
          trace st' = (trace st ++ failure_events fails)%list /\
          self st' = self st /\
          ((fails = [] /\
            e = match last with
                | Some msg => RuntimeError (load_failure_text msg)
                | None => UnboundLocalError "error_msg"
                end) \/
           (exists before m msg,
              fails = (before ++ [(m, msg)])%list /\
              e = RuntimeError (load_failure_text msg)))
    end.
Proof.
  induction candidates as [|model rest IH]; intros last st cfg.
  - destruct last; cbn; exists []; simpl; rewrite app_nil_r;
      (split; [reflexivity|]); (split; [reflexivity|]); (split; [reflexivity|]);
      (split; [reflexivity|]); left; now split.
  - cbn [try_models]. unfold try_except, bind, call_load_model. fold cfg.
    destruct (load_model O model (LLM_TEAM cfg) (LLM_USE_CASE cfg) (world st))
      as [[msg|h] w] eqn:E.
    + cbn [sleep].
      set (st2 := emit _ (EvSleep (1 # 2)) (emit w (EvLoad model (inl msg)) st)).
      specialize (IH (Some (str_exn (GatewayError msg))) st2).
      change (sleep (1 # 2) (emit w (EvLoad model (inl msg)) st))
        with (inr tt : exn + unit, st2).
      cbv iota beta. cbv zeta in IH.
      change (config (self st2)) with cfg in IH.
      change (world st2) with w in IH.
      destruct (try_models O rest _ st2) as [[e|h] st'].
      * destruct IH as (fails & -> & Href & Htr & Hself & He).
        exists ((model, msg) :: fails).
        split; [reflexivity|]. split; [now exists w|].
        split; [rewrite Htr; unfold st2; simpl; now rewrite <- !app_assoc|].
        split; [exact Hself|].
        right. destruct He as [[-> ->]|(before & m & msg' & -> & ->)].
        { now exists [], model, msg. }
        { now exists ((model, msg) :: before), m, msg'. }
      * destruct IH as (fails & m & rest' & w1 & -> & Href & Hload & Htr & Hself).
        exists ((model, msg) :: fails), m, rest', w1.
        split; [reflexivity|]. split; [now exists w|]. split; [exact Hload|].
        split; [rewrite Htr; unfold st2; simpl; now rewrite <- !app_assoc | exact Hself].
    + exists [], model, rest, (world st). cbn.
      split; [reflexivity|]. split; [reflexivity|]. split; [exact E|].
      now split.
Qed.

(** C1.  The candidates are the primary model followed by the fallback
    models (those of [FALLBACK_MODELS], or the five default ones when the
    key is absent) that are new, each at its first occurrence, so no
    identifier is listed twice.  [_load_model_with_fallback] asks the
    gateway for the candidates in that order, with the team and the use
    case of the configuration, each on the world the probe before left.
    It stops at the first candidate for which the gateway returns a
    handle: every candidate before it was refused by the gateway, that
    handle is the result, the candidate becomes the working model, and the
    trace shows these probes and nothing after the successful one.  When
    the gateway refuses every candidate, the error raised carries the text
    with which it refused the last one. *)
Theorem load_model_with_fallback_protocol (st : St World Handle) :
  let cfg := config (self st) in
  let primary := primary_model_name (self st) in
  let fallbacks :=
    match FALLBACK_MODELS cfg with
    | Some models => models
    | None =>
        ["gemini-2.5-pro"; "gemini-2.5-flash"; "gemini-2.0-flash-001";
         "gemini-2.0-flash-lite-001"; "anthropic.claude-3-sonnet-20240229-v1:0"]
    end in
  let candidates := models_to_try primary fallbacks in
  candidates = primary :: uniq_from [primary] fallbacks /\
  NoDup candidates /\
  (forall m, In m candidates <-> m = primary \/ In m fallbacks) /\
  match _load_model_with_fallback O st with
  | (inr h, st') =>
      exists fails m rest w1,
        candidates = (List.map fst fails ++ m :: rest)%list /\
        refused O cfg fails (world st) w1 /\
        load_model O m (LLM_TEAM cfg) (LLM_USE_CASE cfg) w1 = (inr h, world st') /\
        trace st' = (trace st ++ failure_events fails ++ [EvLoad m (inr h)])%list /\
        working_model_name (self st') = Some m
  | (inl e, st') =>
      exists before m msg,
        candidates = List.map fst (before ++ [(m, msg)])%list /\
        refused O cfg (before ++ [(m, msg)]) (world st) (world st') /\
        trace st' = (trace st ++ failure_events (before ++ [(m, msg)]))%list /\
        e = RuntimeError
              ("All multimodal models failed to load: Last error: " ++ msg)
  end.
Proof.
  intros cfg primary fallbacks candidates.
  split; [apply models_to_try_eq|].
  split; [apply models_to_try_NoDup|].
  split; [intros m; apply models_to_try_In|].
  unfold _load_model_with_fallback, bind, gets.
  change (fallback_list (config (self st))) with fallbacks.
  fold primary candidates.
  assert (H := try_models_gateway candidates None st). cbv zeta in H. fold cfg in H.
  destruct (try_models O candidates None st) as [[e|h] st'].
  - destruct H as (fails & Hc & Href & Htr & _ & [[-> _]|(before & m & msg & -> & ->)]).
    + unfold candidates in Hc. rewrite models_to_try_eq in Hc. discriminate.
    + now exists before, m, msg.
  - destruct H as (fails & m & rest & w1 & Hc & Href & Hload & Htr & Hself).
    exists fails, m, rest, w1.
    split; [exact Hc|]. split; [exact Href|]. split; [exact Hload|].
    split; [exact Htr|]. now rewrite Hself.
Qed.

(** *** Phases of a trace *)

Lemma phase_run_app a e1 b e2 c :
  phase_run (Handle:=Handle) a e1 b -> phase_run b e2 c -> phase_run a (e1 ++ e2) c.
Proof.
  induction 1 as [a|a ev b evs c' Hs _ IH]; intros H2; simpl; [assumption|].
  econstructor; [eassumption | now apply IH].
Qed.

Lemma phase_run_one a ev b : phase_step (Handle:=Handle) a ev b -> phase_run a [ev] b.
Proof. intros H. econstructor; [eassumption | constructor]. Qed.

Lemma phase_run_failures n (fails : list (string * string)) :
  phase_run (Handle:=Handle) (None, n) (failure_events fails) (None, n).
Proof.
  induction fails as [|[m msg] fails IH]; simpl; [constructor|].
  econstructor; [apply StepLoadFail|].
  econstructor; [apply StepSleep | exact IH].
Qed.

(** Once a handle is cached, nothing is probed and every invocation uses it. *)
Lemma phase_run_settled h n evs b :
  phase_run (Handle:=Handle) (Some h, n) evs b -> settled h evs /\ b = (Some h, n).
Proof.
  remember (Some h, n) as a eqn:Ea. intros H. revert Ea.
  induction H as [a|a ev b evs c Hs _ IH]; intros ->.
  - split; [constructor | reflexivity].
  - inversion Hs; subst;
      destruct (IH eq_refl) as [Hf ->]; (split; [constructor; simpl; auto | reflexivity]).
Qed.

(** A successful probe can only happen before any handle is cached, and
    fixes the phase for the rest of the trace. *)
Lemma phase_run_after_load a pre m h post b :
  phase_run (Handle:=Handle) a (pre ++ EvLoad m (inr h) :: post) b ->
  settled h post /\ b = (Some h, Some m).
Proof.
  revert a. induction pre as [|ev pre IH]; intros a H; simpl in H.
  - inversion H as [|a' ev' b' evs' c' Hs Hr]; subst.
    inversion Hs; subst. now apply phase_run_settled in Hr.
  - inversion H as [|a' ev' b' evs' c' Hs Hr]; subst. now apply IH in Hr.
Qed.

Lemma tracks_refl (st : St World Handle) : tracks st st.
Proof. exists []. rewrite app_nil_r. split; [reflexivity | constructor]. Qed.

Lemma tracks_trans (st1 st2 st3 : St World Handle) :
  tracks st1 st2 -> tracks st2 st3 -> tracks st1 st3.
Proof.
  intros (e1 & T1 & R1) (e2 & T2 & R2). exists (e1 ++ e2)%list. split.
  - now rewrite T2, T1, app_assoc.
  - eapply phase_run_app; eassumption.
Qed.

Lemma tracks_emit (st : St World Handle) w ev :
  phase_step (phase_of st) ev (phase_of st) -> tracks st (emit w ev st).
Proof. intros H. exists [ev]. split; [reflexivity | now apply phase_run_one]. Qed.

(** *** Rules for [triple] *)

Lemma triple_ret (A : Type) (P : St World Handle -> Prop) (a : A) :
  triple P (ret a) (fun x st => x = a /\ P st).
Proof. intros st HP. simpl. split; [apply tracks_refl | auto]. Qed.

Lemma triple_ret_any (A : Type) (P : St World Handle -> Prop) (a : A) :
  triple P (ret a) (fun _ _ => True).
Proof. intros st HP. simpl. split; [apply tracks_refl | exact I]. Qed.

Lemma triple_raise (A : Type) (P : St World Handle -> Prop) (e : exn)
    (Q : A -> St World Handle -> Prop) :
  triple P (raise e) Q.
Proof. intros st HP. simpl. split; [apply tracks_refl | exact I]. Qed.

Lemma triple_gets (A : Type) (P : St World Handle -> Prop) (f : St World Handle -> A) :
  triple P (gets f) (fun x st => x = f st /\ P st).
Proof. intros st HP. simpl. split; [apply tracks_refl | auto]. Qed.

Lemma triple_conseq (A : Type) (P P' : St World Handle -> Prop)
    (Q Q' : A -> St World Handle -> Prop) (m : M World Handle A) :
  triple P m Q -> (forall st, P' st -> P st) -> (forall a st, Q a st -> Q' a st) ->
  triple P' m Q'.
Proof.
  intros H HP HQ st Hst. destruct (H st (HP st Hst)) as [T R].
  split; [assumption|]. destruct (fst (m st)); auto.
Qed.

Lemma triple_bind (A B : Type) (P : St World Handle -> Prop)
    (Q : A -> St World Handle -> Prop) (R : B -> St World Handle -> Prop)
    (m : M World Handle A) (f : A -> M World Handle B) :
  triple P m Q -> (forall a, triple (Q a) (f a) R) -> triple P (bind m f) R.
Proof.
  intros Hm Hf st HP. unfold bind. specialize (Hm st HP).
  destruct (m st) as [[e|a] st1]; simpl in *.
  - split; [tauto | exact I].
  - destruct Hm as [T1 Q1]. destruct (Hf a st1 Q1) as [T2 R2].
    split; [eapply tracks_trans; eassumption | assumption].
Qed.

Lemma triple_try (A : Type) (P : St World Handle -> Prop)
    (Q : A -> St World Handle -> Prop)
    (m : M World Handle A) (handler : exn -> M World Handle A) :
  triple P m Q -> (forall e, triple (fun _ => True) (handler e) Q) ->
  triple P (try_except m handler) Q.
Proof.
  intros Hm Hh st HP. unfold try_except. specialize (Hm st HP).
  destruct (m st) as [[e|a] st1]; simpl in *; [|assumption].
  destruct Hm as [T1 _]. destruct (Hh e st1 I) as [T2 R2].
  split; [eapply tracks_trans; eassumption | assumption].
Qed.

(** A cached handle stays cached. *)
Lemma triple_keep (A : Type) (h : Handle) (P : St World Handle -> Prop)
    (Q : A -> St World Handle -> Prop) (m : M World Handle A) :
  triple P m Q ->
  triple (fun st => P st /\ _llm (self st) = Some h) m
         (fun a st => Q a st /\ _llm (self st) = Some h).
Proof.
  intros H st [HP Hh]. destruct (H st HP) as [T R]. split; [assumption|].
  destruct (fst (m st)); [exact I|]. split; [assumption|].
  destruct T as (evs & _ & Hr). unfold phase_of in Hr. rewrite Hh in Hr.
  apply phase_run_settled in Hr. destruct Hr as [_ E]. now injection E.
Qed.

(** *** The operations of the engine keep to the phases *)

Lemma sleep_triple (P : St World Handle -> Prop) (seconds : Q) :
  triple P (sleep seconds) (fun _ _ => True).
Proof.
  intros st _. simpl. split; [|exact I]. apply tracks_emit, StepSleep.
Qed.

Lemma save_brief_triple (P : St World Handle -> Prop) (path content : string) :
  triple P (save_brief O path content) (fun _ _ => True).
Proof.
  intros st _. unfold save_brief.
  destruct (write_text O path content (world st)) as [[msg|] w]; simpl;
    (split; [apply tracks_emit, StepWrite | exact I]).
Qed.

Lemma update_frame_triple (P : St World Handle -> Prop) (f : Locals -> Locals) :
  triple P (update_frame f) (fun _ _ => True).
Proof.
  intros st _. simpl. split; [|exact I].
  exists []. simpl. rewrite app_nil_r. split; [reflexivity | constructor].
Qed.

Lemma call_invoke_triple (h : Handle) (payload : pyval) (system : option string) :
  triple (fun st => _llm (self st) = Some h) (call_invoke O h payload system)
         (fun _ _ => True).
Proof.
  intros st Hh. unfold call_invoke.
  assert (Hs : forall res, phase_step (phase_of st) (EvInvoke h payload system res)
                             (phase_of st)).
  { intros res. unfold phase_of. rewrite Hh. apply StepInvoke. }
  destruct (invoke O h payload system (world st)) as [[msg|text] w]; simpl;
    (split; [apply tracks_emit, Hs | exact I]).
Qed.

Lemma system_prompt_triple (P : St World Handle -> Prop) :
  triple P (system_prompt O) (fun _ _ => True).
Proof.
  intros st _. unfold system_prompt, bind, gets.
  destruct (_system_prompt (self st)); simpl; (split; [|exact I]).
  - apply tracks_refl.
  - exists []. simpl. rewrite app_nil_r. split; [reflexivity | constructor].
Qed.

Lemma system_prompt_keeps (h : Handle) :
  triple (fun st => _llm (self st) = Some h) (system_prompt O)
         (fun _ st => _llm (self st) = Some h).
Proof.
  eapply triple_conseq;
    [apply (triple_keep (h:=h) (system_prompt_triple (fun _ => True)))| |];
    simpl; tauto.
Qed.

(** The [llm] property: a cached handle is returned as it is; otherwise the
    probes run and the handle that loaded is cached. *)
Lemma llm_triple (P : St World Handle -> Prop) :
  triple P (llm O) (fun h st => _llm (self st) = Some h).
Proof.
  intros st _. unfold llm, bind, gets.
  destruct (_llm (self st)) as [h|] eqn:Hh; simpl.
  - split; [apply tracks_refl | assumption].
  - unfold _load_model_with_fallback, bind, gets.
    assert (H := try_models_spec
                   (models_to_try (primary_model_name (self st))
                      (fallback_list (config (self st)))) None st).
    destruct (try_models O _ None st) as [[e|h] st1]; simpl.
    + destruct H as (fails & _ & Htr & Hself & _). split; [|exact I].
      exists (failure_events fails). split; [assumption|].
      unfold phase_of. rewrite Hself, Hh. apply phase_run_failures.
    + destruct H as (fails & m & rest & _ & Htr & Hself & _).
      split; [|reflexivity].
      exists (failure_events fails ++ [EvLoad m (inr h)])%list. simpl.
      split; [assumption|].
      unfold phase_of. simpl. rewrite Hself, Hh. simpl.
      eapply phase_run_app; [apply phase_run_failures|].
      apply phase_run_one, StepLoadOk.
Qed.

(** [self.llm.invoke(payload)], the answer stored in [content_brief]. *)
Lemma invoke_llm_triple (P : St World Handle -> Prop) (payload : pyval)
    (system : option string) :
  triple P
    (bind (llm O) (fun h =>
     bind (call_invoke O h payload system) (fun r => assign_content_brief r)))
    (fun _ _ => True).
Proof.
  eapply triple_bind; [apply llm_triple|]. intros h.
  eapply triple_bind; [apply call_invoke_triple|]. intros r.
  apply update_frame_triple.
Qed.

Lemma invoke_with_system_triple (P : St World Handle -> Prop) (video_path : string) :
  triple P (invoke_with_system O video_path) (fun _ _ => True).
Proof.
  unfold invoke_with_system.
  eapply triple_bind; [apply llm_triple|]. intros h.
  eapply triple_bind; [apply system_prompt_keeps|]. intros sp.
  eapply triple_bind; [apply call_invoke_triple|]. intros r.
  apply update_frame_triple.
Qed.

Lemma gemini_shape_triple (P : St World Handle -> Prop) (video_path : string) :
  triple P (gemini_shape O video_path) (fun _ _ => True).
Proof.
  unfold gemini_shape.
  eapply triple_bind; [apply system_prompt_triple|]. intros sp.
  apply triple_try; [apply invoke_llm_triple|]. intros e.
  destruct (gemini_format_rejected (str_exn e)); [apply invoke_llm_triple|].
  apply triple_ret_any.
Qed.

Lemma generic_shape_triple (P : St World Handle -> Prop) (video_path : string) :
  triple P (generic_shape O video_path) (fun _ _ => True).
Proof.
  unfold generic_shape.
  apply triple_try; [apply invoke_with_system_triple|]. intros e.
  eapply triple_bind; [apply system_prompt_triple|]. intros sp.
  apply invoke_llm_triple.
Qed.

Lemma shape_request_triple (P : St World Handle -> Prop) (video_path : string) :
  triple P (shape_request O video_path) (fun _ _ => True).
Proof.
  unfold shape_request.
  eapply triple_bind; [apply triple_gets|]. intros model_name.
  destruct (contains "gemini" (lower model_name)); [apply gemini_shape_triple|].
  destruct (contains "claude" (lower model_name)); [apply invoke_with_system_triple|].
  apply generic_shape_triple.
Qed.

Lemma attempt_body_triple (P : St World Handle -> Prop) (video_path video_name : string) :
  triple P (attempt_body O video_path video_name) (fun _ _ => True).
Proof.
  unfold attempt_body.
  eapply triple_bind; [apply shape_request_triple|]. intros ?.
  eapply triple_bind; [apply triple_gets|]. intros [text|]; [|apply triple_raise].
  destruct (too_short text).
  { apply triple_ret_any. }
  eapply triple_bind; [apply triple_gets|]. intros cfg.
  eapply triple_bind; [apply save_brief_triple|]. intros ?.
  apply triple_ret_any.
Qed.

Lemma on_error_triple (P : St World Handle -> Prop) (attempt : nat) (e : exn) :
  triple P (on_error attempt e) (fun _ _ => True).
Proof.
  unfold on_error.
  eapply triple_bind; [apply update_frame_triple|]. intros ?.
  destruct (Nat.ltb attempt max_retries);
    [|apply triple_ret_any].
  destruct (contains format_incompatibility (str_exn e));
    [apply triple_ret_any|].
  destruct (rate_limited (str_exn e)); apply sleep_triple.
Qed.

Lemma iteration_triple (P : St World Handle -> Prop) (video_path video_name : string)
    (attempt : nat) :
  triple P (iteration O video_path video_name attempt) (fun _ _ => True).
Proof.
  unfold iteration.
  apply triple_try; [apply attempt_body_triple|]. intros e.
  eapply triple_bind; [apply on_error_triple|]. intros ?.
  apply triple_ret_any.
Qed.

Lemma attempts_triple (video_path video_name : string) (range : list nat) :
  forall P : St World Handle -> Prop,
    triple P (attempts O video_path video_name range) (fun _ _ => True).
Proof.
  induction range as [|attempt rest IH]; intros P; cbn [attempts].
  - unfold exhausted.
    eapply triple_bind; [apply triple_gets|]. intros [msg|]; apply triple_raise.
  - eapply triple_bind; [apply iteration_triple|]. intros [result|]; [|apply IH].
    apply triple_ret_any.
Qed.

Lemma process_video_tracks (video_path : string) (st : St World Handle) :
  tracks st (snd (process_video O video_path st)).
Proof.
  assert (H : triple (fun _ => True) (process_video O video_path) (fun _ _ => True)).
  { unfold process_video.
    eapply triple_bind; [apply update_frame_triple|]. intros ?.
    apply attempts_triple. }
  now destruct (H st I).
Qed.

(** *** Short answers *)

Lemma too_short_iff (text : string) :
  too_short text = true <-> String.length (strip text) < 10.
Proof.
  unfold too_short. rewrite orb_true_iff, Nat.ltb_lt. split; [|tauto].
  intros [H|H]; [|assumption]. destruct text; [simpl; lia | discriminate].
Qed.

(** An answer under ten characters once trimmed is not a success: nothing
    is saved, nothing is returned, and the loop goes on to the next attempt
    without a pause. *)
Lemma short_response_continues (video_path video_name text : string) (attempt : nat)
    (st st1 : St World Handle) :
  shape_request O video_path st = (inr tt, st1) ->
  content_brief (frame st1) = Some text ->
  String.length (strip text) < 10 ->
  iteration O video_path video_name attempt st = (inr None, st1).
Proof.
  intros Hshape Hcb Hlen. apply too_short_iff in Hlen.
  unfold iteration, try_except, attempt_body, bind at 1. rewrite Hshape.
  unfold bind at 1, gets. rewrite Hcb, Hlen. reflexivity.
Qed.

(** *** How [process_video] ends *)

Lemma on_error_returns (attempt : nat) (e : exn) (st : St World Handle) :
  fst (on_error attempt e st) = inr tt.
Proof.
  unfold on_error, bind, assign_error_msg, update_frame.
  destruct (Nat.ltb attempt max_retries); [|reflexivity].
  destruct (contains format_incompatibility (str_exn e)); [reflexivity|].
  destruct (rate_limited (str_exn e)); reflexivity.
Qed.

(** An iteration never raises: the handler catches every exception of the
    attempt and goes on to the next one. *)
Lemma iteration_returns (video_path video_name : string) (attempt : nat)
    (st : St World Handle) :
  exists o, fst (iteration O video_path video_name attempt st) = inr o.
Proof.
  unfold iteration, try_except.
  destruct (attempt_body O video_path video_name st) as [[e|o] st1];
    [|now exists o].
  exists None. unfold bind.
  assert (H := on_error_returns attempt e st1).
  destruct (on_error attempt e st1) as [[e'|[]] st2]; simpl in *;
    [discriminate | reflexivity].
Qed.

Lemma attempts_raise (video_path video_name : string) (range : list nat) :
  forall (st : St World Handle) e,
    fst (attempts O video_path video_name range st) = inl e ->
    (exists msg,
       e = RuntimeError ("Failed to process video after 3 attempts: " ++ msg)) \/
    e = UnboundLocalError "error_msg".
Proof.
  induction range as [|attempt rest IH]; intros st e; cbn [attempts].
  - unfold exhausted, bind, gets.
    destruct (error_msg (frame st)) as [msg|]; simpl; intros [= <-];
      [left; now exists msg | now right].
  - unfold bind.
    destruct (iteration_returns video_path video_name attempt st) as (o & Ho).
    destruct (iteration O video_path video_name attempt st) as [r st1].
    simpl in Ho. subst r. destruct o as [result|]; [discriminate|]. apply IH.
Qed.

(** C2.  In the trace of [process_video], whatever follows a successful
    probe has no further probe and invokes only the handle that loaded; that
    handle is the cached one at the end and its model the working model.
    Started with a cached handle, [process_video] probes nothing at all and
    leaves handle and working model as they were.  When it raises, after
    the last attempt, the exception is the terminal one: there is no
    return to the priority list. *)
Theorem working_model_fixed (video_path : string) (st : St World Handle) :
  let out := process_video O video_path st in
  exists evs,
    trace (snd out) = (trace st ++ evs)%list /\
    (forall pre m h post,
       evs = (pre ++ EvLoad m (inr h) :: post)%list ->
       settled h post /\
       _llm (self (snd out)) = Some h /\
       working_model_name (self (snd out)) = Some m) /\
    (forall h,
       _llm (self st) = Some h ->
       settled h evs /\
       _llm (self (snd out)) = Some h /\
       working_model_name (self (snd out)) = working_model_name (self st)) /\
    (forall e,
       fst out = inl e ->
       (exists msg,
          e = RuntimeError ("Failed to process video after 3 attempts: " ++ msg)) \/
       e = UnboundLocalError "error_msg").
Proof.
  intros out.
  destruct (process_video_tracks video_path st) as (evs & Htr & Hrun).
  fold out in Htr, Hrun. exists evs. split; [assumption|]. split; [|split].
  - intros pre m h post ->.
    apply phase_run_after_load in Hrun. destruct Hrun as [Hs E].
    unfold phase_of in E. injection E as E1 E2. auto.
  - intros h Hh. unfold phase_of in Hrun. rewrite Hh in Hrun.
    apply phase_run_settled in Hrun. destruct Hrun as [Hs E].
    injection E as E1 E2. auto.
  - intros e He. unfold out, process_video, bind, update_frame in He.
    cbv beta iota in He. apply attempts_raise in He. exact He.
Qed.

(** *** Retry delays *)

Lemma trace_emit (st : St World Handle) w ev :
  trace (emit w ev st) = (trace st ++ [ev])%list.
Proof. reflexivity. Qed.

(** The retry handler.  When an attempt that is not the last one ends with
    an exception that reaches the handler, the iteration goes on to the
    next attempt and the pause before it is decided by the text of that
    exception: none for the format-incompatibility signature; otherwise
    [min(attempt * 2, 10)] seconds for a text that names a rate limit or a
    quota; otherwise one second. *)
Lemma retry_handler_classes (video_path video_name : string) (attempt : nat)
    (st st1 : St World Handle) (e : exn) :
  attempt < max_retries ->
  attempt_body O video_path video_name st = (inl e, st1) ->
  let msg := str_exn e in
  let out := iteration O video_path video_name attempt st in
  fst out = inr None /\
  error_msg (frame (snd out)) = Some msg /\
  (contains "Unknown field for GenerationConfig: system" msg = true ->
   trace (snd out) = trace st1) /\
  (contains "Unknown field for GenerationConfig: system" msg = false ->
   contains "rate limit" (lower msg) || contains "quota" (lower msg) = true ->
   trace (snd out)
   = (trace st1 ++ [EvSleep (inject_Z (Z.min (Z.of_nat attempt * 2) 10))])%list) /\
  (contains "Unknown field for GenerationConfig: system" msg = false ->
   contains "rate limit" (lower msg) || contains "quota" (lower msg) = false ->
   trace (snd out) = (trace st1 ++ [EvSleep 1])%list).
Proof.
  intros Hlt Hbody msg out. subst out.
  unfold iteration, try_except. rewrite Hbody.
  unfold on_error, bind, assign_error_msg, update_frame.
  apply Nat.ltb_lt in Hlt. rewrite Hlt.
  fold msg. unfold format_incompatibility, rate_limited.
  destruct (contains "Unknown field for GenerationConfig: system" msg);
    [|destruct (contains "rate limit" (lower msg) || contains "quota" (lower msg))];
    cbn; repeat split; intros; try discriminate; reflexivity.
Qed.

(** *** The missing input file *)

(** C8.  For a path that does not exist, [process_video_file] raises
    [FileNotFoundError] at once: the world is untouched and the trace is
    empty, so no model was probed and nothing was invoked. *)
Theorem missing_file_first (video_path : string) (cfg : Config)
    (model_name : option string) (w : World) :
  path_exists O video_path w = false ->
  process_video_file O video_path cfg model_name w
  = (inl (FileNotFoundError ("Video file not found at " ++ video_path)), (w, [])).
Proof. intros H. unfold process_video_file. now rewrite H. Qed.

(** *** Request shaping for the Gemini family *)

Lemma or_else_some (m : string) : or_else (Some m) "" = m.
Proof. now destruct m. Qed.

Lemma system_prompt_run (st : St World Handle) :
  exists st2,
    system_prompt O st = (inr (current_system_prompt O st), st2) /\
    world st2 = world st /\ trace st2 = trace st /\ frame st2 = frame st /\
    _llm (self st2) = _llm (self st) /\
    working_model_name (self st2) = working_model_name (self st) /\
    _system_prompt (self st2) = Some (current_system_prompt O st).
Proof.
  unfold system_prompt, current_system_prompt, bind, gets.
  destruct (_system_prompt (self st)) as [s|] eqn:E; simpl.
  - exists st. now repeat split.
  - eexists. split; [reflexivity|]. now repeat split.
Qed.

Lemma llm_cached (st : St World Handle) (h : Handle) :
  _llm (self st) = Some h -> llm O st = (inr h, st).
Proof. intros H. unfold llm, bind, gets. now rewrite H. Qed.

(** The requests of the Gemini branch, in the terms of the engine. *)
Lemma gemini_shape_trace (video_path m : string) (h : Handle)
    (st : St World Handle) :
  working_model_name (self st) = Some m ->
  contains "gemini" (lower m) = true ->
  _llm (self st) = Some h ->
  let sp := current_system_prompt O st in
  let instruction := sp ++ Title.nl ++ Title.nl ++ analysis_directive in
  let first := invoke O h (pair_payload instruction video_path) None (world st) in
  let second := invoke O h (contents_payload instruction video_path) None (snd first) in
  trace (snd (shape_request O video_path st))
  = (trace st
     ++ EvInvoke h (pair_payload instruction video_path) None (fst first)
     :: match fst first with
        | inl msg =>
            if contains "Unknown field" msg || contains "400" msg
            then [EvInvoke h (contents_payload instruction video_path) None (fst second)]
            else []
        | inr _ => []
        end)%list.
Proof.
  intros Hw Hg Hh sp instruction first second.
  unfold shape_request, bind at 1, gets. rewrite Hw, or_else_some, Hg.
  unfold gemini_shape, bind at 1.
  destruct (system_prompt_run st) as (st2 & -> & Hworld & Htr & _ & Hllm & _).
  fold sp. change (gemini_instruction sp) with instruction.
  rewrite Hh in Hllm.
  unfold try_except, bind at 1. rewrite (llm_cached _ Hllm).
  unfold bind at 1, call_invoke. rewrite Hworld. fold first.
  destruct first as [[msg|text] w1] eqn:E1; cbn [fst snd].
  - cbn [str_exn]. unfold gemini_format_rejected.
    destruct (contains "Unknown field" msg || contains "400" msg).
    + unfold bind at 1.
      rewrite (@llm_cached (emit w1 _ st2) h) by exact Hllm.
      unfold bind, call_invoke. cbn [world emit].
      subst second. cbn [snd].
      destruct (invoke O h (contents_payload instruction video_path) None w1)
        as [[msg2|text2] w2]; cbn; rewrite Htr, <- !app_assoc; reflexivity.
    + cbn. now rewrite Htr.
  - cbn. now rewrite Htr.
Qed.

(** C4, as amended.  In an attempt that starts with a working model
    already recorded whose name contains [gemini] (in any letter case),
    and so with its handle cached, the handle is first invoked, without
    [system], with the list of two texts: the instruction (the system
    prompt, a blank line, the directive) and the video path.  The
    structured payload is invoked next, in the same attempt, exactly when
    that first invocation failed with a text containing [Unknown field] or
    [400]: a dictionary whose [contents] is a list of one turn of role
    [user], whose [parts] are the instruction as [text] and the path as
    [file_data]; in every other case nothing else is invoked. *)
Theorem gemini_request_shaping (video_path m : string) (h : Handle)
    (st : St World Handle) :
  working_model_name (self st) = Some m ->
  contains "gemini" (lower m) = true ->
  _llm (self st) = Some h ->
  let instruction :=
    current_system_prompt O st
    ++ String "010" (String "010"
         "Please analyze the following video and create a comprehensive brief according to the instructions above. The video will be provided as the next input.") in
  let pair := VList [VStr instruction; VStr video_path] in
  let envelope :=
    VDict [("contents",
            VList [VDict [("role", VStr "user");
                          ("parts",
                           VList [VDict [("text", VStr instruction)];
                                  VDict [("file_data",
                                          VDict [("file_path", VStr video_path)])]])]])] in
  let first := invoke O h pair None (world st) in
  let second := invoke O h envelope None (snd first) in
  trace (snd (shape_request O video_path st))
  = (trace st
     ++ EvInvoke h pair None (fst first)
     :: match fst first with
        | inl msg =>
            if contains "Unknown field" msg || contains "400" msg
            then [EvInvoke h envelope None (fst second)]
            else []
        | inr _ => []
        end)%list.
Proof.
  intros Hw Hg Hh instruction pair envelope first second.
  exact (gemini_shape_trace video_path st Hw Hg Hh).
Qed.

(** *** The generic branch *)

Lemma shape_request_unset (video_path : string) (st : St World Handle) :
  working_model_name (self st) = None ->
  shape_request O video_path st = generic_shape O video_path st.
Proof. intros H. unfold shape_request, bind, gets. now rewrite H. Qed.



(** *** A returned brief is a saved brief *)





(** *** The attempts of a call, one by one *)






















End Gateway.

(** From a new processor on, a named working model always comes with its
    cached handle. *)
Lemma phase_run_named (Handle : Type) (a b : phase Handle) (evs : list (event Handle)) :
  phase_run a evs b -> (fst a = None -> snd a = None) -> fst b = None -> snd b = None.
Proof.
  induction 1 as [a|a ev b evs c Hs _ IH]; intros Ha; [assumption|].
  apply IH. inversion Hs; subst; simpl in *; auto; discriminate.
Qed.

(** *** The engine on the scripted gateway *)

(** The handler at a concrete failure: a quota error on the first attempt. *)
Lemma retry_handler_run :
  trace (snd (iteration Demo.oracles "clip" "clip" 1
                (fresh (Processor_init Demo.cfg None)
                   (Demo.script ["claude-3"] [inl "boom"; inl "quota exceeded"]))))
  = [EvLoad "gemini-2.5-pro" (inl "model not available: gemini-2.5-pro");
     EvSleep (1 # 2);
     EvLoad "gemini-2.5-flash" (inl "model not available: gemini-2.5-flash");
     EvSleep (1 # 2);
     EvLoad "claude-3" (inr "claude-3");
     EvInvoke "claude-3" (VStr "clip") (Some "SYS") (inl "boom");
     EvInvoke "claude-3" (pair_payload (generic_prompt "SYS") "clip") None
       (inl "quota exceeded");
     EvSleep 2].
Proof.
  assert (Hlt : 1 < max_retries) by (unfold max_retries; lia).
  eassert (E : attempt_body Demo.oracles "clip" "clip"
                 (fresh (Processor_init Demo.cfg None)
                    (Demo.script ["claude-3"] [inl "boom"; inl "quota exceeded"]))
               = (inl _, _)) by (vm_compute; reflexivity).
  destruct (@retry_handler_classes _ _ Demo.oracles "clip" "clip" 1 _ _ _ Hlt E)
    as (_ & _ & _ & H & _).
  rewrite H by (vm_compute; reflexivity).
  vm_compute. reflexivity.
Defined.

(** C8 at a concrete missing path. *)
Lemma missing_file_witness :
  process_video_file Demo.oracles "missing.mp4" Demo.cfg None
    (Demo.script ["gemini-2.5-pro"] [inr Demo.long_brief])
  = (inl (FileNotFoundError "Video file not found at missing.mp4"),
     (Demo.script ["gemini-2.5-pro"] [inr Demo.long_brief], [])).
Proof.
  apply (@missing_file_first _ _ Demo.oracles "missing.mp4" Demo.cfg None
           (Demo.script ["gemini-2.5-pro"] [inr Demo.long_brief])).
  reflexivity.
Defined.

(** C4 at a concrete rejection of the first payload. *)
Lemma gemini_request_witness :
  trace (snd (shape_request Demo.oracles "clip"
                (Demo.session "gemini-2.5-flash"
                   [inl "400 Bad Request"; inr Demo.long_brief])))
  = [EvInvoke "gemini-2.5-flash"
       (VList [VStr ("SYS" ++ String "010" (String "010"
                       "Please analyze the following video and create a comprehensive brief according to the instructions above. The video will be provided as the next input."));
               VStr "clip"])
       None (inl "400 Bad Request");
     EvInvoke "gemini-2.5-flash"
       (VDict [("contents",
                VList [VDict [("role", VStr "user");
                              ("parts",
                               VList [VDict [("text",
                                              VStr ("SYS" ++ String "010" (String "010"
                                                      "Please analyze the following video and create a comprehensive brief according to the instructions above. The video will be provided as the next input.")))];
                                      VDict [("file_data",
                                              VDict [("file_path", VStr "clip")])]])]])])
       None (inr Demo.long_brief)].
Proof.
  rewrite (@gemini_request_shaping _ _ Demo.oracles "clip" "gemini-2.5-flash"
             "gemini-2.5-flash"
             (Demo.session "gemini-2.5-flash"
                [inl "400 Bad Request"; inr Demo.long_brief]))
    by (vm_compute; reflexivity).
  vm_compute. reflexivity.
Defined.

(** C4, as stated, fails on the first attempt of a session.  The primary
    model is a Gemini model and loads; it is the working model when the
    requests are sent.  Yet the first request is the video path with the
    system prompt as [system], not the list of two texts, and its failure
    with [400] is followed by the generic list (the prompt ending with
    [Please analyze this video:]), not by the [contents] dictionary. *)
Lemma gemini_first_attempt_generic :
  contains "gemini" (lower "gemini-2.5-pro") = true /\
  working_model_name
    (self (snd (process_video Demo.oracles "clip"
                  (fresh (Processor_init Demo.cfg None)
                     (Demo.script ["gemini-2.5-pro"]
                        [inl "400 Bad Request"; inr Demo.long_brief])))))
  = Some "gemini-2.5-pro" /\
  process_video_file Demo.oracles "clip" Demo.cfg None
    (Demo.script ["gemini-2.5-pro"] [inl "400 Bad Request"; inr Demo.long_brief])
  = (inr (Demo.long_brief, Some "archive/Foo.md"),
     (Demo.script ["gemini-2.5-pro"] [],
      [EvLoad "gemini-2.5-pro" (inr "gemini-2.5-pro");
       EvInvoke "gemini-2.5-pro" (VStr "clip") (Some "SYS") (inl "400 Bad Request");
       EvInvoke "gemini-2.5-pro"
         (VList [VStr ("SYS" ++ String "010" (String "010" "Please analyze this video:"));
                 VStr "clip"])
         None (inr Demo.long_brief);
       EvWrite "archive/Foo.md" Demo.long_brief None])).
Proof. split; [|split]; vm_compute; reflexivity. Qed.

(** C5, on the code.  The gateway is rate limited: every request fails
    with that text.  The first attempt takes the generic branch, its
    second request raises to the handler, and the pause is the back-off of
    two seconds.  The second attempt takes the Gemini branch: the same
    failure is caught there and, not being a format rejection, is not
    raised again; what reaches the handler is the unbound [content_brief]
    of the statement that follows, so the pause is one second and not the
    back-off of four seconds, and the error raised in the end does not
    name the rate limit. *)
Theorem rate_limit_backoff_lost :
  process_video_file Demo.oracles "clip" Demo.cfg None
    (Demo.script ["gemini-2.5-pro"]
       [inl "rate limit exceeded"; inl "rate limit exceeded";
        inl "rate limit exceeded"; inl "rate limit exceeded"])
  = (inl (RuntimeError
            "Failed to process video after 3 attempts: cannot access local variable 'content_brief' where it is not associated with a value"),
     (Demo.script ["gemini-2.5-pro"] [],
      [EvLoad "gemini-2.5-pro" (inr "gemini-2.5-pro");
       EvInvoke "gemini-2.5-pro" (VStr "clip") (Some "SYS") (inl "rate limit exceeded");
       EvInvoke "gemini-2.5-pro"
         (VList [VStr ("SYS" ++ String "010" (String "010" "Please analyze this video:"));
                 VStr "clip"])
         None (inl "rate limit exceeded");
       EvSleep 2;
       EvInvoke "gemini-2.5-pro"
         (VList [VStr ("SYS" ++ String "010" (String "010"
                         "Please analyze the following video and create a comprehensive brief according to the instructions above. The video will be provided as the next input."));
                 VStr "clip"])
         None (inl "rate limit exceeded");
       EvSleep 1;
       EvInvoke "gemini-2.5-pro"
         (VList [VStr ("SYS" ++ String "010" (String "010"
                         "Please analyze the following video and create a comprehensive brief according to the instructions above. The video will be provided as the next input."));
                 VStr "clip"])
         None (inl "rate limit exceeded")])).
Proof. vm_compute. reflexivity. Qed.

(** C3, on the code.  With a gateway whose every answer is shorter than
    ten characters once trimmed, no attempt succeeds and none saves
    anything; but as no attempt raised either, [error_msg] was never
    assigned, and what [process_video_file] raises after the third attempt
    is the unbound-local error of the final statement, not the
    [RuntimeError] that statement builds. *)
Theorem short_responses_exhaust :
  process_video_file Demo.oracles "clip" Demo.cfg None
    (Demo.script ["gemini-2.5-pro"] [inr ""; inr "   too short  "; inr "123456789"])
  = (inl (UnboundLocalError "error_msg"),
     (Demo.script ["gemini-2.5-pro"] [],
      [EvLoad "gemini-2.5-pro" (inr "gemini-2.5-pro");
       EvInvoke "gemini-2.5-pro" (VStr "clip") (Some "SYS") (inr "");
       EvInvoke "gemini-2.5-pro" (pair_payload (gemini_instruction "SYS") "clip") None
         (inr "   too short  ");
       EvInvoke "gemini-2.5-pro" (pair_payload (gemini_instruction "SYS") "clip") None
         (inr "123456789")])).
Proof. vm_compute. reflexivity. Qed.

(** In the Gemini branch an error of the gateway that is not a format
    rejection is dropped where it is caught: on the second attempt below
    the rate-limit error never reaches the handler, the stale empty answer
    of the first attempt is read again, and no pause follows. *)
Example gemini_rate_limit_dropped :
  snd (snd (process_video_file Demo.oracles "clip" Demo.cfg None
              (Demo.script ["gemini-2.5-pro"]
                 [inr ""; inl "rate limit hit"; inr Demo.long_brief])))
  = [EvLoad "gemini-2.5-pro" (inr "gemini-2.5-pro");
     EvInvoke "gemini-2.5-pro" (VStr "clip") (Some "SYS") (inr "");
     EvInvoke "gemini-2.5-pro" (pair_payload (gemini_instruction "SYS") "clip") None
       (inl "rate limit hit");
     EvInvoke "gemini-2.5-pro" (pair_payload (gemini_instruction "SYS") "clip") None
       (inr Demo.long_brief);
     EvWrite "archive/Foo.md" Demo.long_brief None].
Proof. vm_compute. reflexivity. Qed.

(** The same session with one observed error does carry it. *)
Example exhaustion_with_error :
  fst (process_video_file Demo.oracles "clip" Demo.cfg None
         (Demo.script ["claude-3"] [inl "boom"; inl "bang"; inr ""; inr ""]))
  = inl (RuntimeError "Failed to process video after 3 attempts: bang").
Proof. vm_compute. reflexivity. Qed.


End EngineFacts.

(** ** Who turns an error into a failure *)

Module PropagationFacts.
Import Py PyStr Engine Protocol EngineFacts.







(** The same for an invocation that fails. *)
Example transcript_engine_swallows_invoke :
  fst (Core.process_transcript Demo.oracles Demo.cfg "hello" "clip"
         (Demo.transcript_session ["gemini-2.5-pro"] [inl "rate limit"]))
  = inr ("", None).
Proof. vm_compute. reflexivity. Qed.

End PropagationFacts.

(** ** Further properties of the file name and of the title *)

Module NamingMoreFacts.
Import PyStr PyStrFacts Naming NamingMore.

Lemma forallb_filter (p : ascii -> bool) (s : string) : forallb p (filter p s) = true.
Proof.
  induction s as [|c s IH]; simpl; [reflexivity|].
  destruct (p c) eqn:E; simpl; [now rewrite E|assumption].
Qed.

Lemma forallb_map (p : ascii -> bool) (f : ascii -> ascii) (s : string) :
  forallb p (map f s) = forallb (fun c => p (f c)) s.
Proof. induction s as [|c s IH]; simpl; [reflexivity | now rewrite IH]. Qed.

Lemma forallb_strip (p : ascii -> bool) (s : string) :
  forallb p s = true -> forallb p (strip s) = true.
Proof.
  destruct (strip_spec s) as (lead & trail & E & _). intros H.
  rewrite E, !forallb_append, !andb_true_iff in H. tauto.
Qed.

Lemma forallb_imp (p r : ascii -> bool) (s : string) :
  (forall c, p c = true -> r c = true) -> forallb p s = true -> forallb r s = true.
Proof.
  intros H. induction s as [|c s IH]; simpl; [reflexivity|].
  rewrite !andb_true_iff. intros [Hc Hs]. auto.
Qed.

Lemma kept_becomes_clean (c : ascii) :
  kept c = true -> clean (if Ascii.eqb c " " then "_"%char else c) = true.
Proof.
  unfold kept, clean. cbn [char_in].
  destruct (Ascii.eqb c " "); [reflexivity | now intros H].
Qed.

Lemma clean_facts (c : ascii) :
  clean c = true -> kept c = true /\ isspace c = false /\ Ascii.eqb c " " = false.
Proof.
  destruct c as [[] [] [] [] [] [] [] []]; vm_compute; intros H;
    repeat split; congruence.
Qed.

Lemma safe_file_title_clean (title : string) :
  forallb clean (safe_file_title title) = true.
Proof.
  unfold safe_file_title, replace_char. rewrite forallb_map.
  apply forallb_imp with (p := kept); [apply kept_becomes_clean|].
  apply forallb_strip, forallb_filter.
Qed.

Lemma filter_all (p : ascii -> bool) (s : string) :
  forallb p s = true -> filter p s = s.
Proof.
  induction s as [|c s IH]; simpl; [reflexivity|].
  rewrite andb_true_iff. intros [-> Hs]. now rewrite IH.
Qed.

Lemma lstrip_none (s : string) :
  forallb (fun c => negb (isspace c)) s = true -> lstrip s = s.
Proof.
  destruct s as [|c s]; simpl; [reflexivity|].
  rewrite andb_true_iff. intros [Hc _]. now destruct (isspace c).
Qed.

Lemma rstrip_none (s : string) :
  forallb (fun c => negb (isspace c)) s = true -> rstrip s = s.
Proof.
  induction s as [|c s IH]; simpl; [reflexivity|].
  rewrite andb_true_iff. intros [Hc Hs]. rewrite (IH Hs).
  destruct s; [now destruct (isspace c) | reflexivity].
Qed.

Lemma map_id_on (f : ascii -> ascii) (s : string) :
  forallb (fun c => Ascii.eqb (f c) c) s = true -> map f s = s.
Proof.
  induction s as [|c s IH]; simpl; [reflexivity|].
  rewrite andb_true_iff. intros [Hc Hs]. apply Ascii.eqb_eq in Hc.
  now rewrite Hc, IH.
Qed.

(** X6.  A sanitized file name has only alphanumeric characters and
    [-_()[]], and sanitizing it again changes nothing. *)
Theorem safe_file_title_idempotent (title : string) :
  forallb clean (safe_file_title title) = true /\
  safe_file_title (safe_file_title title) = safe_file_title title.
Proof.
  assert (H := safe_file_title_clean title). split; [exact H|].
  set (r := safe_file_title title) in *. unfold safe_file_title at 1.
  rewrite (filter_all kept r)
    by (revert H; apply forallb_imp; intros c Hc; now apply clean_facts).
  assert (Hns : forallb (fun c => negb (isspace c)) r = true).
  { revert H. apply forallb_imp. intros c Hc.
    destruct (clean_facts c Hc) as (_ & -> & _). reflexivity. }
  unfold strip. rewrite (lstrip_none r Hns), (rstrip_none r Hns).
  apply map_id_on. revert H. apply forallb_imp. intros c Hc.
  destruct (clean_facts c Hc) as (_ & _ & ->). apply Ascii.eqb_refl.
Qed.

End NamingMoreFacts.

Module TitleMoreFacts.
Import PyStr PyStrFacts Regex Title TitleFacts.

Lemma forallb_take_while (p : ascii -> bool) (s : string) :
  forallb p (take_while p s) = true.
Proof.
  induction s as [|c s IH]; simpl; [reflexivity|].
  destruct (p c) eqn:E; simpl; [now rewrite E | reflexivity].
Qed.

Lemma take_while_prefix (p : ascii -> bool) (s : string) :
  exists b, s = take_while p s ++ b.
Proof.
  induction s as [|c s (b & IH)]; simpl; [now exists ""|].
  destruct (p c); [exists b; simpl; now rewrite <- IH | now exists (String c s)].
Qed.

Lemma drop_while_suffix (p : ascii -> bool) (s : string) :
  exists a, s = a ++ drop_while p s.
Proof.
  induction s as [|c s (a & IH)]; simpl; [now exists ""|].
  destruct (p c); [exists (String c a); simpl; now rewrite <- IH | now exists ""].
Qed.

Lemma drop_quote_suffix (s : string) : exists a, s = a ++ drop_quote s.
Proof.
  destruct s as [|c s]; simpl; [now exists ""|].
  destruct (Ascii.eqb c dquote); [now exists (String c "") | now exists ""].
Qed.

Lemma title_after_inside (rest : string) :
  exists a b, rest = a ++ title_after rest ++ b.
Proof.
  unfold title_after.
  destruct (drop_while_suffix isspace rest) as (a1 & E1).
  destruct (drop_quote_suffix (drop_while isspace rest)) as (a2 & E2).
  destruct (take_while_prefix (fun c => negb (Ascii.eqb c dquote))
              (drop_quote (drop_while isspace rest))) as (b & E3).
  exists (a1 ++ a2), b. rewrite append_assoc, <- E3, <- E2. exact E1.
Qed.

(** X7.  A title taken from a brief is a piece of that brief and holds no
    double quote. *)
Theorem extracted_title_inside (s t : string) :
  extract_title_from_brief s = Some t ->
  no_quote t = true /\ contains t s = true.
Proof.
  unfold extract_title_from_brief.
  destruct (search1_cases s) as [(t1 & -> & H1)|[-> _]].
  { intros [= <-]. destruct H1 as (pre & mid & ws & post & -> & _ & _ & _ & Hq).
    split; [exact Hq|]. apply contains_spec.
    exists (pre ++ "Ad " ++ mid ++ ":" ++ ws ++ q), (q ++ post).
    now rewrite !append_assoc. }
  destruct (search2_cases s) as [(t2 & -> & H2)|[-> _]].
  { intros [= <-]. destruct H2 as (pre & ws & post & -> & _ & _ & Hq).
    split; [exact Hq|]. apply contains_spec.
    exists (pre ++ "Video Title:" ++ ws ++ q), (q ++ post).
    now rewrite !append_assoc. }
  destruct (search3_cases s) as [(t3 & -> & H3)|[-> _]]; [|discriminate].
  intros [= <-]. destruct H3 as (pre & ws & kw & rest & -> & _ & _ & _ & ->).
  split; [apply forallb_take_while|]. apply contains_spec.
  destruct (title_after_inside rest) as (a & b & E).
  exists (pre ++ ws ++ kw ++ ":" ++ a), b. rewrite E at 1.
  now rewrite !append_assoc.
Qed.

(** X7 at a concrete brief. *)
Lemma extracted_title_witness :
  no_quote "Foo" = true /\
  contains "Foo" ("Ad 3: " ++ q ++ "Foo" ++ q ++ nl ++ "Title: " ++ q ++ "Bar" ++ q) = true.
Proof.
  apply (@extracted_title_inside
           ("Ad 3: " ++ q ++ "Foo" ++ q ++ nl ++ "Title: " ++ q ++ "Bar" ++ q) "Foo").
  reflexivity.
Defined.

End TitleMoreFacts.

(** ** Further properties of the video engine *)

Module EngineMoreFacts.
Import Py PyStr PyStrFacts Engine EngineFacts EngineMore.

Section Gateway.
Variables World Handle : Type.
Variable O : Oracles World Handle.

(** *** Budgets *)

Lemma loads_app (a b : list (event Handle)) : loads (a ++ b) = loads a + loads b.
Proof. unfold loads. now rewrite filter_app, length_app. Qed.

Lemma invokes_app (a b : list (event Handle)) :
  invokes (a ++ b) = invokes a + invokes b.
Proof. unfold invokes. now rewrite filter_app, length_app. Qed.

Lemma writes_app (a b : list (event Handle)) : writes (a ++ b) = writes a + writes b.
Proof. unfold writes. now rewrite filter_app, length_app. Qed.

Lemma failure_events_counts (fails : list (string * string)) :
  loads (failure_events (Handle:=Handle) fails) = List.length fails /\
  invokes (failure_events (Handle:=Handle) fails) = 0 /\
  writes (failure_events (Handle:=Handle) fails) = 0.
Proof.
  induction fails as [|f fails (IHl & IHi & IHw)]; [now repeat split|].
  unfold loads, invokes, writes in *. simpl. now rewrite IHl, IHi, IHw.
Qed.

Lemma same_session_refl (st : St World Handle) : same_session st st.
Proof. now split. Qed.

Lemma same_session_trans (st1 st2 st3 : St World Handle) :
  same_session st1 st2 -> same_session st2 st3 -> same_session st1 st3.
Proof. intros [A B] [C D]. split; congruence. Qed.

Lemma candidates_same (st st' : St World Handle) :
  same_session st st' -> candidates_of st' = candidates_of st.
Proof. intros [A B]. unfold candidates_of. now rewrite A, B. Qed.

Lemma costs_refl (st : St World Handle) : costs 0 0 0 st st.
Proof.
  split; [apply same_session_refl|]. exists []. rewrite app_nil_r.
  unfold loads, invokes, writes. repeat split; simpl; lia.
Qed.

Lemma costs_weaken (a b c a' b' c' : nat) (st st' : St World Handle) :
  costs a b c st st' -> a <= a' -> b <= b' -> c <= c' -> costs a' b' c' st st'.
Proof.
  intros (S & evs & T & L & I & W) Ha Hb Hc. split; [assumption|].
  exists evs. repeat split; try assumption; try lia.
  eapply Nat.le_trans; [exact L|]. now apply Nat.mul_le_mono_r.
Qed.

Lemma costs_trans (a b c a' b' c' : nat) (st1 st2 st3 : St World Handle) :
  costs a b c st1 st2 -> costs a' b' c' st2 st3 ->
  costs (a + a') (b + b') (c + c') st1 st3.
Proof.
  intros (S1 & e1 & T1 & L1 & I1 & W1) (S2 & e2 & T2 & L2 & I2 & W2).
  split; [eapply same_session_trans; eassumption|].
  exists (e1 ++ e2)%list. rewrite (candidates_same S1) in L2.
  rewrite loads_app, invokes_app, writes_app, T2, T1, app_assoc.
  split; [reflexivity|]. split; [rewrite Nat.mul_add_distr_r; lia|]. split; lia.
Qed.

Lemma spends_ret (A : Type) (a : A) : spends (World:=World) (Handle:=Handle) 0 0 0 (ret a).
Proof. intros st. apply costs_refl. Qed.

Lemma spends_raise (A : Type) (e : exn) :
  spends (World:=World) (Handle:=Handle) (A:=A) 0 0 0 (raise e).
Proof. intros st. apply costs_refl. Qed.

Lemma spends_gets (A : Type) (f : St World Handle -> A) : spends 0 0 0 (gets f).
Proof. intros st. apply costs_refl. Qed.

Lemma spends_weaken (A : Type) (a b c a' b' c' : nat) (m : M World Handle A) :
  spends a b c m -> a <= a' -> b <= b' -> c <= c' -> spends a' b' c' m.
Proof. intros H ? ? ? st. eapply costs_weaken; [apply H| | |]; assumption. Qed.

Lemma spends_bind (A B : Type) (a b c a' b' c' : nat)
    (m : M World Handle A) (f : A -> M World Handle B) :
  spends a b c m -> (forall x, spends a' b' c' (f x)) ->
  spends (a + a') (b + b') (c + c') (bind m f).
Proof.
  intros Hm Hf st. unfold bind. specialize (Hm st).
  destruct (m st) as [[e|x] st1]; simpl in *.
  - eapply costs_weaken; [exact Hm| | |]; lia.
  - eapply costs_trans; [exact Hm | apply Hf].
Qed.

Lemma spends_try (A : Type) (a b c a' b' c' : nat)
    (m : M World Handle A) (handler : exn -> M World Handle A) :
  spends a b c m -> (forall e, spends a' b' c' (handler e)) ->
  spends (a + a') (b + b') (c + c') (try_except m handler).
Proof.
  intros Hm Hh st. unfold try_except. specialize (Hm st).
  destruct (m st) as [[e|x] st1]; simpl in *.
  - eapply costs_trans; [exact Hm | apply Hh].
  - eapply costs_weaken; [exact Hm| | |]; lia.
Qed.

Lemma costs_emit (st : St World Handle) w ev :
  costs 0 (if is_invoke ev then 1 else 0) (if is_write ev then 1 else 0)
    st (emit w ev st) \/ is_load ev = true.
Proof.
  destruct (is_load ev) eqn:E; [now right|left].
  split; [now split|]. exists [ev]. split; [reflexivity|].
  unfold loads, invokes, writes. simpl. rewrite E.
  destruct (is_invoke ev), (is_write ev); simpl; repeat split; lia.
Qed.

Lemma sleep_spends (seconds : Q) : spends (World:=World) (Handle:=Handle) 0 0 0 (sleep seconds).
Proof.
  intros st. simpl.
  destruct (costs_emit st (world st) (EvSleep seconds)) as [H|H];
    [exact H | discriminate].
Qed.

Lemma update_frame_spends (f : Locals -> Locals) :
  spends (World:=World) (Handle:=Handle) 0 0 0 (update_frame f).
Proof.
  intros st. simpl. split; [now split|]. exists []. simpl.
  rewrite app_nil_r. unfold loads, invokes, writes. repeat split; simpl; lia.
Qed.

Lemma save_brief_spends (path content : string) : spends 0 0 1 (save_brief O path content).
Proof.
  intros st. unfold save_brief.
  destruct (write_text O path content (world st)) as [res w].
  destruct (costs_emit st w (EvWrite path content res)) as [H|H]; [|discriminate].
  destruct res; exact H.
Qed.

Lemma call_invoke_spends (h : Handle) (payload : pyval) (system : option string) :
  spends 0 1 0 (call_invoke O h payload system).
Proof.
  intros st. unfold call_invoke.
  destruct (invoke O h payload system (world st)) as [res w].
  destruct (costs_emit st w (EvInvoke h payload system res)) as [H|H]; [|discriminate].
  destruct res; exact H.
Qed.

Lemma system_prompt_spends : spends 0 0 0 (system_prompt O).
Proof.
  intros st. unfold system_prompt, bind, gets.
  destruct (_system_prompt (self st)); simpl;
    (split; [now split|]); exists []; simpl; rewrite app_nil_r;
    unfold loads, invokes, writes; repeat split; simpl; lia.
Qed.

(** One evaluation of [llm] probes each candidate at most once. *)
Lemma llm_spends : spends 1 0 0 (llm O).
Proof.
  intros st. unfold llm, bind, gets.
  destruct (_llm (self st)) as [h|]; simpl.
  { eapply costs_weaken; [apply costs_refl| | |]; lia. }
  unfold _load_model_with_fallback, bind, gets.
  assert (H := try_models_spec O
                 (models_to_try (primary_model_name (self st))
                    (fallback_list (config (self st)))) None st).
  destruct (try_models O _ None st) as [[e|h] st1]; simpl.
  - destruct H as (fails & Hc & Htr & Hself & _).
    split; [unfold same_session; now rewrite Hself|].
    exists (failure_events fails). split; [assumption|].
    destruct (failure_events_counts fails) as (-> & -> & ->).
    unfold candidates_of. rewrite Hc, length_map. repeat split; lia.
  - destruct H as (fails & m & rest & Hc & Htr & Hself & _).
    split; [unfold same_session; simpl; now rewrite Hself|].
    exists (failure_events fails ++ [EvLoad m (inr h)])%list. split; [assumption|].
    rewrite loads_app, invokes_app, writes_app.
    destruct (failure_events_counts fails) as (-> & -> & ->).
    unfold candidates_of. rewrite Hc, length_app, length_map.
    unfold loads, invokes, writes. simpl. repeat split; lia.
Qed.

Lemma invoke_llm_spends (payload : pyval) (system : option string) :
  spends 1 1 0
    (bind (llm O) (fun h =>
     bind (call_invoke O h payload system) (fun r => assign_content_brief r))).
Proof.
  change (spends (1 + (0 + 0)) (0 + (1 + 0)) (0 + (0 + 0))
            (bind (llm O) (fun h =>
             bind (call_invoke O h payload system) (fun r => assign_content_brief r)))).
  apply spends_bind; [apply llm_spends|]. intros h.
  apply spends_bind; [apply call_invoke_spends|]. intros r.
  apply update_frame_spends.
Qed.

Lemma invoke_with_system_spends (video_path : string) :
  spends 1 1 0 (invoke_with_system O video_path).
Proof.
  unfold invoke_with_system.
  change (spends (1 + (0 + (0 + 0))) (0 + (0 + (1 + 0))) (0 + (0 + (0 + 0)))
            (bind (llm O) (fun h =>
             bind (system_prompt O) (fun sp =>
             bind (call_invoke O h (VStr video_path) (Some sp)) (fun r =>
             assign_content_brief r))))).
  apply spends_bind; [apply llm_spends|]. intros h.
  apply spends_bind; [apply system_prompt_spends|]. intros sp.
  apply spends_bind; [apply call_invoke_spends|]. intros r.
  apply update_frame_spends.
Qed.

Lemma gemini_shape_spends (video_path : string) :
  spends 2 2 0 (gemini_shape O video_path).
Proof.
  unfold gemini_shape.
  eapply spends_weaken; [|apply Nat.le_refl..].
  apply (spends_bind (a:=0) (b:=0) (c:=0) (a':=2) (b':=2) (c':=0));
    [apply system_prompt_spends|]. intros sp.
  apply (spends_try (a:=1) (b:=1) (c:=0) (a':=1) (b':=1) (c':=0));
    [apply invoke_llm_spends|]. intros e.
  destruct (gemini_format_rejected (str_exn e)); [apply invoke_llm_spends|].
  eapply spends_weaken; [apply spends_ret| | |]; lia.
Qed.

Lemma generic_shape_spends (video_path : string) :
  spends 2 2 0 (generic_shape O video_path).
Proof.
  unfold generic_shape.
  apply (spends_try (a:=1) (b:=1) (c:=0) (a':=1) (b':=1) (c':=0));
    [apply invoke_with_system_spends|]. intros e.
  apply (spends_bind (a:=0) (b:=0) (c:=0) (a':=1) (b':=1) (c':=0));
    [apply system_prompt_spends|]. intros sp.
  apply invoke_llm_spends.
Qed.

Lemma shape_request_spends (video_path : string) :
  spends 2 2 0 (shape_request O video_path).
Proof.
  unfold shape_request.
  apply (spends_bind (a:=0) (b:=0) (c:=0) (a':=2) (b':=2) (c':=0));
    [apply spends_gets|]. intros model_name.
  destruct (contains "gemini" (lower model_name)); [apply gemini_shape_spends|].
  destruct (contains "claude" (lower model_name)); [|apply generic_shape_spends].
  eapply spends_weaken; [apply invoke_with_system_spends| | |]; lia.
Qed.

Lemma attempt_body_spends (video_path video_name : string) :
  spends 2 2 1 (attempt_body O video_path video_name).
Proof.
  unfold attempt_body.
  apply (spends_bind (a:=2) (b:=2) (c:=0) (a':=0) (b':=0) (c':=1));
    [apply shape_request_spends|]. intros ?.
  apply (spends_bind (a:=0) (b:=0) (c:=0) (a':=0) (b':=0) (c':=1));
    [apply spends_gets|]. intros [text|];
    [|eapply spends_weaken; [apply spends_raise| | |]; lia].
  destruct (too_short text);
    [eapply spends_weaken; [apply spends_ret| | |]; lia|].
  apply (spends_bind (a:=0) (b:=0) (c:=0) (a':=0) (b':=0) (c':=1));
    [apply spends_gets|]. intros cfg.
  apply (spends_bind (a:=0) (b:=0) (c:=1) (a':=0) (b':=0) (c':=0));
    [apply save_brief_spends|]. intros ?. apply spends_ret.
Qed.

Lemma on_error_spends (attempt : nat) (e : exn) :
  spends (World:=World) (Handle:=Handle) 0 0 0 (on_error attempt e).
Proof.
  unfold on_error.
  apply (spends_bind (a:=0) (b:=0) (c:=0) (a':=0) (b':=0) (c':=0));
    [apply update_frame_spends|]. intros ?.
  destruct (Nat.ltb attempt max_retries); [|apply spends_ret].
  destruct (contains format_incompatibility (str_exn e)); [apply spends_ret|].
  destruct (rate_limited (str_exn e)); apply sleep_spends.
Qed.

Lemma iteration_spends (video_path video_name : string) (attempt : nat) :
  spends 2 2 1 (iteration O video_path video_name attempt).
Proof.
  unfold iteration.
  apply (spends_try (a:=2) (b:=2) (c:=1) (a':=0) (b':=0) (c':=0));
    [apply attempt_body_spends|]. intros e.
  apply (spends_bind (a:=0) (b:=0) (c:=0) (a':=0) (b':=0) (c':=0));
    [apply on_error_spends|]. intros ?. apply spends_ret.
Qed.

Lemma attempts_spends (video_path video_name : string) (range : list nat) :
  spends (2 * List.length range) (2 * List.length range) (List.length range)
    (attempts O video_path video_name range).
Proof.
  induction range as [|attempt rest IH]; cbn [attempts List.length].
  - unfold exhausted.
    apply (spends_bind (a:=0) (b:=0) (c:=0) (a':=0) (b':=0) (c':=0));
      [apply spends_gets|]. intros [msg|]; apply spends_raise.
  - eapply spends_weaken;
      [apply (spends_bind (a:=2) (b:=2) (c:=1)
                (a':=2 * List.length rest) (b':=2 * List.length rest)
                (c':=List.length rest)); [apply iteration_spends|]| | |]; try lia.
    intros [result|]; [|exact IH].
    eapply spends_weaken; [apply spends_ret| | |]; lia.
Qed.

(** X1.  One call of [process_video] sends at most six requests to the
    gateway, saves at most three times, and probes the priority list at
    most six times over (each candidate at most once per pass). *)
Theorem process_video_budget (video_path : string) (st : St World Handle) :
  exists evs,
    trace (snd (process_video O video_path st)) = (trace st ++ evs)%list /\
    loads evs <= 6 * List.length (candidates_of st) /\
    invokes evs <= 6 /\
    writes evs <= 3.
Proof.
  assert (H : spends 6 6 3 (process_video O video_path)).
  { unfold process_video.
    apply (spends_bind (a:=0) (b:=0) (c:=0) (a':=6) (b':=6) (c':=3));
      [apply update_frame_spends|]. intros ?.
    apply (attempts_spends video_path (video_stem O video_path) (seq 1 max_retries)). }
  destruct (H st) as (_ & evs & Htr & Hl & Hi & Hw). now exists evs.
Qed.

(** *** Shapes of the requests and origin of the brief *)

Lemma invokes_zero_shaped (video_path sp : string) (evs : list (event Handle)) :
  invokes evs = 0 -> Forall (well_shaped video_path sp) evs.
Proof.
  induction evs as [|ev evs IH]; [constructor|].
  unfold invokes in *. simpl. destruct ev; simpl; intros H;
    try discriminate; constructor; simpl; auto.
Qed.

Lemma answered_app (t : string) (a b : list (event Handle)) :
  answered t (a ++ b) <-> answered t a \/ answered t b.
Proof.
  unfold answered. split.
  - intros (h & p & s & H). apply in_app_iff in H.
    destruct H; [left | right]; eauto.
  - intros [(h & p & s & H)|(h & p & s & H)]; exists h, p, s;
      apply in_app_iff; auto.
Qed.

Lemma coherent_refl (video_path : string) (st : St World Handle) :
  coherent video_path st st.
Proof.
  exists []. rewrite app_nil_r.
  split; [reflexivity|]. split; [now split|]. split; [auto|].
  split; [intros; constructor|]. split; [reflexivity|]. intros t H. now left.
Qed.

Lemma coherent_trans (video_path : string) (st1 st2 st3 : St World Handle) :
  coherent video_path st1 st2 -> coherent video_path st2 st3 ->
  coherent video_path st1 st3.
Proof.
  intros (e1 & T1 & S1 & M1 & W1 & N1 & C1) (e2 & T2 & S2 & M2 & W2 & N2 & C2).
  exists (e1 ++ e2)%list. split; [now rewrite T2, T1, app_assoc|].
  split; [eapply same_session_trans; eassumption|].
  split; [auto|]. split; [|split].
  - intros sp Hsp. apply Forall_app. split; [|auto].
    destruct (_system_prompt (self st2)) as [sp2|] eqn:E2.
    + apply W1. rewrite (M2 sp2 eq_refl) in Hsp. congruence.
    + apply invokes_zero_shaped. auto.
  - intros Hn. rewrite invokes_app, (N2 Hn).
    destruct (_system_prompt (self st2)) as [sp2|] eqn:E2.
    + rewrite (M2 sp2 eq_refl) in Hn. discriminate.
    + now rewrite N1.
  - intros t Ht. rewrite answered_app.
    destruct (C2 t Ht) as [H|H]; [|auto].
    destruct (C1 t H); auto.
Qed.

Lemma holds_ret (A : Type) (video_path : string) (P : St World Handle -> Prop) (a : A) :
  holds video_path P (ret a) (fun _ st => P st).
Proof. intros st HP. simpl. split; [apply coherent_refl | assumption]. Qed.

Lemma holds_ret_any (A : Type) (video_path : string) (P : St World Handle -> Prop)
    (a : A) :
  holds video_path P (ret a) (fun _ _ => True).
Proof. intros st HP. simpl. split; [apply coherent_refl | exact I]. Qed.

Lemma holds_raise (A : Type) (video_path : string) (P : St World Handle -> Prop)
    (e : exn) (Q : A -> St World Handle -> Prop) :
  holds video_path P (raise e) Q.
Proof. intros st HP. simpl. split; [apply coherent_refl | exact I]. Qed.

Lemma holds_gets (A : Type) (video_path : string) (P : St World Handle -> Prop)
    (f : St World Handle -> A) :
  holds video_path P (gets f) (fun x st => x = f st /\ P st).
Proof. intros st HP. simpl. split; [apply coherent_refl | auto]. Qed.

Lemma holds_conseq (A : Type) (video_path : string) (P P' : St World Handle -> Prop)
    (Q Q' : A -> St World Handle -> Prop) (m : M World Handle A) :
  holds video_path P m Q ->
  (forall st, P' st -> P st) -> (forall a st, Q a st -> Q' a st) ->
  holds video_path P' m Q'.
Proof.
  intros H HP HQ st Hst. destruct (H st (HP st Hst)) as [T R].
  split; [assumption|]. destruct (fst (m st)); auto.
Qed.

Lemma holds_bind (A B : Type) (video_path : string) (P : St World Handle -> Prop)
    (Q : A -> St World Handle -> Prop) (R : B -> St World Handle -> Prop)
    (m : M World Handle A) (f : A -> M World Handle B) :
  holds video_path P m Q -> (forall a, holds video_path (Q a) (f a) R) ->
  holds video_path P (bind m f) R.
Proof.
  intros Hm Hf st HP. unfold bind. specialize (Hm st HP).
  destruct (m st) as [[e|a] st1]; simpl in *.
  - split; [tauto | exact I].
  - destruct Hm as [T1 Q1]. destruct (Hf a st1 Q1) as [T2 R2].
    split; [eapply coherent_trans; eassumption | assumption].
Qed.

Lemma holds_try (A : Type) (video_path : string) (P : St World Handle -> Prop)
    (Q : A -> St World Handle -> Prop)
    (m : M World Handle A) (handler : exn -> M World Handle A) :
  holds video_path P m Q ->
  (forall e, holds video_path (fun _ => True) (handler e) Q) ->
  holds video_path P (try_except m handler) Q.
Proof.
  intros Hm Hh st HP. unfold try_except. specialize (Hm st HP).
  destruct (m st) as [[e|a] st1]; simpl in *; [|assumption].
  destruct Hm as [T1 _]. destruct (Hh e st1 I) as [T2 R2].
  split; [eapply coherent_trans; eassumption | assumption].
Qed.

(** A cached system prompt stays cached. *)
Lemma holds_keep (A : Type) (video_path sp : string) (P : St World Handle -> Prop)
    (Q : A -> St World Handle -> Prop) (m : M World Handle A) :
  holds video_path P m Q ->
  holds video_path (fun st => P st /\ _system_prompt (self st) = Some sp) m
        (fun a st => Q a st /\ _system_prompt (self st) = Some sp).
Proof.
  intros H st [HP Hsp]. destruct (H st HP) as [T R]. split; [assumption|].
  destruct (fst (m st)); [exact I|]. split; [assumption|].
  destruct T as (evs & _ & _ & M1 & _). auto.
Qed.

Lemma coherent_quiet (video_path : string) (st st' : St World Handle)
    (evs : list (event Handle)) :
  trace st' = (trace st ++ evs)%list -> invokes evs = 0 ->
  same_session st st' ->
  _system_prompt (self st') = _system_prompt (self st) ->
  (forall t, content_brief (frame st') = Some t -> content_brief (frame st) = Some t) ->
  coherent video_path st st'.
Proof.
  intros T I0 S E C. exists evs.
  split; [assumption|]. split; [assumption|].
  split; [intros sp0 H; now rewrite E|].
  split; [intros sp _; now apply invokes_zero_shaped|].
  split; [intros _; assumption|]. intros t H. left. now apply C.
Qed.

Lemma sleep_holds (video_path : string) (P : St World Handle -> Prop) (seconds : Q) :
  holds video_path P (sleep seconds) (fun _ _ => True).
Proof.
  intros st _. simpl. split; [|exact I].
  apply coherent_quiet with (evs := [EvSleep seconds]); auto. now split.
Qed.

Lemma save_brief_holds (video_path : string) (P : St World Handle -> Prop)
    (path content : string) :
  holds video_path P (save_brief O path content) (fun _ _ => True).
Proof.
  intros st _. unfold save_brief.
  destruct (write_text O path content (world st)) as [res w].
  assert (H : coherent video_path st (emit w (EvWrite path content res) st)).
  { apply coherent_quiet with (evs := [EvWrite path content res]); auto. now split. }
  destruct res; simpl; (split; [exact H | exact I]).
Qed.

Lemma assign_error_msg_holds (video_path : string) (P : St World Handle -> Prop)
    (msg : string) :
  holds video_path P (assign_error_msg msg) (fun _ _ => True).
Proof.
  intros st _. simpl. split; [|exact I].
  apply coherent_quiet with (evs := []); simpl; auto; [now rewrite app_nil_r | now split].
Qed.

Lemma system_prompt_holds (video_path : string) (P : St World Handle -> Prop) :
  holds video_path P (system_prompt O)
        (fun sp st => _system_prompt (self st) = Some sp).
Proof.
  intros st _. unfold system_prompt, bind, gets.
  destruct (_system_prompt (self st)) as [s|] eqn:E; simpl.
  - split; [apply coherent_refl | assumption].
  - split; [|reflexivity]. exists []. simpl. rewrite app_nil_r.
    split; [reflexivity|]. split; [now split|].
    split; [intros sp0 H; rewrite E in H; discriminate|].
    split; [intros; constructor|]. split; [reflexivity|].
    intros t H. now left.
Qed.

Lemma llm_holds (video_path : string) (P : St World Handle -> Prop) :
  holds video_path P (llm O) (fun _ _ => True).
Proof.
  intros st _. split; [|now destruct (fst (llm O st))].
  unfold llm, bind, gets.
  destruct (_llm (self st)) as [h|]; simpl; [apply coherent_refl|].
  unfold _load_model_with_fallback, bind, gets.
  assert (H := try_models_spec O
                 (models_to_try (primary_model_name (self st))
                    (fallback_list (config (self st)))) None st).
  destruct (try_models O _ None st) as [[e|h] st1]; simpl.
  - destruct H as (fails & _ & Htr & Hself & Hframe & _).
    apply coherent_quiet with (evs := failure_events fails); auto.
    + apply failure_events_counts.
    + unfold same_session. now rewrite Hself.
    + now rewrite Hself.
    + now rewrite Hframe.
  - destruct H as (fails & m & rest & _ & Htr & Hself & Hframe).
    apply coherent_quiet with (evs := (failure_events fails ++ [EvLoad m (inr h)])%list);
      simpl; auto.
    + rewrite invokes_app. now destruct (failure_events_counts fails) as (_ & -> & _).
    + unfold same_session. simpl. now rewrite Hself.
    + now rewrite Hself.
    + now rewrite Hframe.
Qed.

(** One request and the assignment of its answer. *)
Lemma invoke_assign_holds (video_path sp : string) (h : Handle) (payload : pyval)
    (system : option string) :
  shape_ok video_path sp payload system ->
  holds video_path (fun st => _system_prompt (self st) = Some sp)
    (bind (call_invoke O h payload system) (fun r => assign_content_brief r))
    (fun _ _ => True).
Proof.
  intros Hshape st Hsp. unfold bind, call_invoke.
  assert (Hw : forall sp' res, Some sp = Some sp' ->
                 Forall (well_shaped video_path sp') [EvInvoke h payload system res]).
  { intros sp' res [= <-]. now constructor. }
  destruct (invoke O h payload system (world st)) as [[msg|text] w]; simpl;
    (split; [|exact I]).
  - exists [EvInvoke h payload system (inl msg)]. simpl.
    split; [reflexivity|]. split; [now split|]. split; [auto|].
    split; [intros sp' H; apply Hw; now rewrite <- Hsp|].
    split; [rewrite Hsp; discriminate|]. intros t H. now left.
  - exists [EvInvoke h payload system (inr text)]. simpl.
    split; [reflexivity|]. split; [now split|]. split; [auto|].
    split; [intros sp' H; apply Hw; now rewrite <- Hsp|].
    split; [rewrite Hsp; discriminate|].
    intros t [= <-]. right. exists h, payload, system. now left.
Qed.

Lemma llm_keeps_prompt (video_path sp : string) :
  holds video_path (fun st => _system_prompt (self st) = Some sp) (llm O)
        (fun _ st => _system_prompt (self st) = Some sp).
Proof.
  eapply holds_conseq;
    [apply (holds_keep (sp:=sp) (llm_holds video_path (fun _ => True)))| |];
    simpl; tauto.
Qed.

Lemma invoke_llm_holds (video_path sp : string) (payload : pyval)
    (system : option string) :
  shape_ok video_path sp payload system ->
  holds video_path (fun st => _system_prompt (self st) = Some sp)
    (bind (llm O) (fun h =>
     bind (call_invoke O h payload system) (fun r => assign_content_brief r)))
    (fun _ _ => True).
Proof.
  intros Hshape.
  eapply holds_bind; [apply llm_keeps_prompt|]. intros h.
  now apply invoke_assign_holds.
Qed.

Lemma invoke_with_system_holds (video_path : string) (P : St World Handle -> Prop) :
  holds video_path P (invoke_with_system O video_path) (fun _ _ => True).
Proof.
  unfold invoke_with_system.
  eapply holds_bind; [apply llm_holds|]. intros h.
  eapply holds_bind; [apply system_prompt_holds|]. intros sp.
  apply invoke_assign_holds. left. now split.
Qed.

Lemma gemini_shape_holds (video_path : string) (P : St World Handle -> Prop) :
  holds video_path P (gemini_shape O video_path) (fun _ _ => True).
Proof.
  unfold gemini_shape.
  eapply holds_bind; [apply system_prompt_holds|]. intros sp.
  intros st Hsp.
  assert (Hfirst := @invoke_llm_holds video_path sp
                      (pair_payload (gemini_instruction sp) video_path) None
                      (or_intror (conj eq_refl (or_introl eq_refl))) st Hsp).
  unfold try_except.
  destruct (bind (llm O) _ st) as [[e|u] st1]; simpl in *; [|exact Hfirst].
  destruct Hfirst as [C1 _].
  assert (Hsp1 : _system_prompt (self st1) = Some sp).
  { destruct C1 as (evs & _ & _ & M1 & _). auto. }
  destruct (gemini_format_rejected (str_exn e)).
  - destruct (@invoke_llm_holds video_path sp
                (contents_payload (gemini_instruction sp) video_path) None
                (or_intror (conj eq_refl (or_intror (or_introl eq_refl)))) st1 Hsp1)
      as [C2 R2].
    split; [eapply coherent_trans; eassumption | assumption].
  - simpl. split; [assumption | exact I].
Qed.

Lemma generic_shape_holds (video_path : string) (P : St World Handle -> Prop) :
  holds video_path P (generic_shape O video_path) (fun _ _ => True).
Proof.
  unfold generic_shape.
  apply holds_try; [apply invoke_with_system_holds|]. intros e.
  eapply holds_bind; [apply system_prompt_holds|]. intros sp.
  apply invoke_llm_holds. right. split; [reflexivity|]. now right; right.
Qed.

Lemma shape_request_holds (video_path : string) (P : St World Handle -> Prop) :
  holds video_path P (shape_request O video_path) (fun _ _ => True).
Proof.
  unfold shape_request.
  eapply holds_bind; [apply holds_gets|]. intros model_name.
  destruct (contains "gemini" (lower model_name)); [apply gemini_shape_holds|].
  destruct (contains "claude" (lower model_name));
    [apply invoke_with_system_holds | apply generic_shape_holds].
Qed.

Lemma attempt_body_holds (video_path video_name : string) (P : St World Handle -> Prop) :
  holds video_path P (attempt_body O video_path video_name) (fun _ _ => True).
Proof.
  unfold attempt_body.
  eapply holds_bind; [apply shape_request_holds|]. intros ?.
  eapply holds_bind; [apply holds_gets|]. intros [text|]; [|apply holds_raise].
  destruct (too_short text).
  { apply holds_ret_any. }
  eapply holds_bind; [apply holds_gets|]. intros cfg.
  eapply holds_bind; [apply save_brief_holds|]. intros ?.
  apply holds_ret_any.
Qed.

Lemma on_error_holds (video_path : string) (P : St World Handle -> Prop)
    (attempt : nat) (e : exn) :
  holds video_path P (on_error attempt e) (fun _ _ => True).
Proof.
  unfold on_error.
  eapply holds_bind; [apply assign_error_msg_holds|]. intros ?.
  destruct (Nat.ltb attempt max_retries);
    [|apply holds_ret_any].
  destruct (contains format_incompatibility (str_exn e));
    [apply holds_ret_any|].
  destruct (rate_limited (str_exn e)); apply sleep_holds.
Qed.

Lemma iteration_holds (video_path video_name : string) (attempt : nat)
    (P : St World Handle -> Prop) :
  holds video_path P (iteration O video_path video_name attempt) (fun _ _ => True).
Proof.
  unfold iteration.
  apply holds_try; [apply attempt_body_holds|]. intros e.
  eapply holds_bind; [apply on_error_holds|]. intros ?.
  apply holds_ret_any.
Qed.

Lemma attempts_holds (video_path video_name : string) (range : list nat) :
  forall P : St World Handle -> Prop,
    holds video_path P (attempts O video_path video_name range) (fun _ _ => True).
Proof.
  induction range as [|attempt rest IH]; intros P; cbn [attempts].
  - unfold exhausted.
    eapply holds_bind; [apply holds_gets|]. intros [msg|]; apply holds_raise.
  - eapply holds_bind; [apply iteration_holds|]. intros [result|]; [|apply IH].
    apply holds_ret_any.
Qed.

Lemma process_video_coherent (video_path : string) (st : St World Handle) :
  coherent video_path
    {| self := self st; world := world st; trace := trace st;
       frame := {| content_brief := None; error_msg := None |} |}
    (snd (process_video O video_path st)).
Proof.
  unfold process_video, bind, update_frame. cbv beta iota.
  apply (attempts_holds video_path (video_stem O video_path) (seq 1 max_retries)
           (fun _ => True)). exact I.
Qed.

(** X2.  Every request that one call of [process_video] sends is one of
    four: the video path with the system prompt as [system], or, without
    [system], the pair of the Gemini instruction and the path, the
    [contents] envelope of the same two, or the pair of the generic prompt
    and the path; and all of them are built from one system prompt, the
    one cached at the end.  While no prompt is cached nothing is sent. *)
Theorem requests_well_shaped (video_path : string) (st : St World Handle) :
  exists evs,
    trace (snd (process_video O video_path st)) = (trace st ++ evs)%list /\
    match _system_prompt (self (snd (process_video O video_path st))) with
    | Some sp => Forall (well_shaped video_path sp) evs
    | None => invokes evs = 0
    end.
Proof.
  destruct (process_video_coherent video_path st) as (evs & T & _ & _ & W & N & _).
  exists evs. split; [exact T|].
  destruct (_system_prompt (self (snd (process_video O video_path st)))); auto.
Qed.

(** *** What a returned brief is *)

Lemma attempt_body_result (video_path video_name text : string) (path : option string)
    (st st1 : St World Handle) :
  attempt_body O video_path video_name st = (inr (Some (text, path)), st1) ->
  content_brief (frame st1) = Some text /\ too_short text = false /\
  path = Some (brief_file O (config (self st1)) text video_name) /\
  exists before,
    trace st1 = (before ++ [EvWrite (brief_file O (config (self st1)) text video_name) text None])%list.
Proof.
  unfold attempt_body, bind at 1.
  destruct (shape_request O video_path st) as [[e|u] st2]; [discriminate|].
  unfold bind at 1, gets.
  destruct (content_brief (frame st2)) as [t|] eqn:Hcb; [|discriminate].
  destruct (too_short t) eqn:Hshort; [discriminate|].
  unfold bind, save_brief.
  destruct (write_text O _ t (world st2)) as [[msg|] w]; [discriminate|].
  cbn. intros [= <- <- <-]. unfold brief_file. cbn.
  repeat split; try assumption. now exists (trace st2).
Qed.

Lemma iteration_result (video_path video_name text : string) (path : option string)
    (attempt : nat) (st st1 : St World Handle) :
  iteration O video_path video_name attempt st = (inr (Some (text, path)), st1) ->
  content_brief (frame st1) = Some text /\ too_short text = false /\
  path = Some (brief_file O (config (self st1)) text video_name) /\
  exists before,
    trace st1 = (before ++ [EvWrite (brief_file O (config (self st1)) text video_name) text None])%list.
Proof.
  unfold iteration, try_except.
  destruct (attempt_body O video_path video_name st) as [[e|o] st2] eqn:E.
  - unfold bind. destruct (on_error attempt e st2) as [[e'|u] st3]; discriminate.
  - intros [= -> ->]. now apply attempt_body_result in E.
Qed.

Lemma attempts_result (video_path video_name : string) (range : list nat) :
  forall (st st1 : St World Handle) text path,
    attempts O video_path video_name range st = (inr (text, path), st1) ->
    content_brief (frame st1) = Some text /\ too_short text = false /\
    path = Some (brief_file O (config (self st1)) text video_name) /\
    exists before,
      trace st1 = (before ++ [EvWrite (brief_file O (config (self st1)) text video_name) text None])%list.
Proof.
  induction range as [|attempt rest IH]; intros st st1 text path; cbn [attempts].
  - unfold exhausted, bind, gets. destruct (error_msg (frame st)); discriminate.
  - unfold bind.
    destruct (iteration O video_path video_name attempt st) as [[e|[[t p]|]] st2] eqn:E;
      [discriminate| |apply IH].
    intros [= -> -> ->]. now apply iteration_result in E.
Qed.

(** X3.  When [process_video] returns, the brief it returns is the answer
    of a successful request of this very call, has at least ten characters
    once trimmed, and was saved, as the last thing done, under the brief
    directory in the file named after the sanitized title of the brief (or
    after the video when the brief has no title), which is the path
    returned. *)
Theorem returned_brief_origin (video_path text : string) (path : option string)
    (st st' : St World Handle) :
  process_video O video_path st = (inr (text, path), st') ->
  let p := brief_path O (config (self st)) text video_path in
  exists evs,
    trace st' = (trace st ++ evs ++ [EvWrite p text None])%list /\
    answered text evs /\
    path = Some p /\
    10 <= String.length (strip text).
Proof.
  intros Hrun p.
  assert (Hco := process_video_coherent video_path st). rewrite Hrun in Hco.
  unfold process_video, bind, update_frame in Hrun. cbv beta iota in Hrun.
  apply attempts_result in Hrun.
  destruct Hrun as (Hcb & Hshort & Hpath & before & Hlast).
  destruct Hco as (evs & T & [Hcfg _] & _ & _ & _ & C). cbn [snd self trace frame] in *.
  rewrite Hcfg in Hpath, Hlast. fold (brief_path O (config (self st)) text video_path) in *.
  fold p in Hpath, Hlast.
  destruct (C text Hcb) as [H|Hans]; [discriminate|].
  assert (Hne : evs <> []).
  { intros ->. destruct Hans as (h & pl & s & []). }
  destruct (exists_last Hne) as (evs0 & ev & ->).
  rewrite T, app_assoc in Hlast. apply app_inj_tail in Hlast.
  destruct Hlast as [_ ->].
  exists evs0. split; [exact T|]. split; [|split; [exact Hpath|]].
  - apply answered_app in Hans. destruct Hans as [H|(h & pl & s & [H|[]])];
      [exact H | discriminate].
  - destruct (Nat.lt_ge_cases (String.length (strip text)) 10) as [Hlt|Hge];
      [|exact Hge].
    apply too_short_iff in Hlt. congruence.
Qed.

(** *** When no model loads *)

Lemma quiet_refl (st : St World Handle) : quiet st st.
Proof. exists []. now rewrite app_nil_r. Qed.

Lemma quiet_trans (st1 st2 st3 : St World Handle) :
  quiet st1 st2 -> quiet st2 st3 -> quiet st1 st3.
Proof.
  intros (e1 & T1 & I1 & W1) (e2 & T2 & I2 & W2). exists (e1 ++ e2)%list.
  rewrite invokes_app, writes_app, T2, T1, app_assoc, I1, I2, W1, W2. now repeat split.
Qed.

Section Dead.
Variable dead : World -> Prop.
Hypothesis Hdead : never_loads O dead.

Lemma try_models_dead (candidates : list string) :
  forall (last : option string) (st : St World Handle),
    dead (world st) ->
    exists e st',
      try_models O candidates last st = (inl e, st') /\
      dead (world st') /\ self st' = self st /\ frame st' = frame st /\
      quiet st st' /\
      (candidates <> [] \/ last <> None ->
       exists msg, e = RuntimeError (load_failure_text msg)).
Proof.
  induction candidates as [|model rest IH]; intros last st Hw.
  - destruct last as [msg|]; cbn; eexists _, st;
      (split; [reflexivity|]); repeat split; try assumption; try apply quiet_refl.
    + intros _. now exists msg.
    + intros [H|H]; congruence.
  - cbn [try_models]. unfold try_except, bind, call_load_model.
    destruct (Hdead model (LLM_TEAM (config (self st))) (LLM_USE_CASE (config (self st)))
                Hw) as (msg & w' & -> & Hw').
    cbn [sleep].
    set (st2 := emit _ (EvSleep (1 # 2)) (emit w' (EvLoad model (inl msg)) st)).
    change (sleep (1 # 2) (emit w' (EvLoad model (inl msg)) st))
      with (inr tt : exn + unit, st2).
    cbv iota beta.
    destruct (IH (Some (str_exn (GatewayError msg))) st2 Hw')
      as (e & st' & -> & Hd & Hself & Hframe & Hq & He).
    exists e, st'. split; [reflexivity|]. repeat split; try assumption.
    + eapply quiet_trans; [|exact Hq].
      exists [EvLoad model (inl msg); EvSleep (1 # 2)]. unfold st2. simpl.
      rewrite <- app_assoc. now repeat split.
    + intros _. apply He. right. discriminate.
Qed.

Lemma llm_dead (st : St World Handle) :
  _llm (self st) = None -> dead (world st) ->
  exists msg st',
    llm O st = (inl (RuntimeError (load_failure_text msg)), st') /\
    dead (world st') /\ self st' = self st /\ frame st' = frame st /\ quiet st st'.
Proof.
  intros Hn Hw. unfold llm, bind at 1, gets. rewrite Hn.
  unfold bind at 1, _load_model_with_fallback, bind at 1, gets.
  destruct (@try_models_dead
              (models_to_try (primary_model_name (self st))
                 (fallback_list (config (self st)))) None st Hw)
    as (e & st' & -> & Hd & Hself & Hframe & Hq & He).
  destruct He as (msg & ->).
  { left. rewrite models_to_try_eq. discriminate. }
  now exists msg, st'.
Qed.

Lemma generic_shape_dead (video_path : string) (st : St World Handle) :
  idle dead st ->
  exists msg st',
    generic_shape O video_path st = (inl (RuntimeError (load_failure_text msg)), st') /\
    idle dead st' /\ frame st' = frame st /\ quiet st st'.
Proof.
  intros (Hn & Hwn & Hw).
  unfold generic_shape, try_except, invoke_with_system, bind at 1.
  destruct (@llm_dead st Hn Hw) as (msg & st1 & -> & Hd1 & Hs1 & Hf1 & Hq1).
  unfold bind at 1.
  destruct (system_prompt_run O st1) as (st2 & -> & Hw2 & Ht2 & Hf2 & Hl2 & Hwn2 & _).
  assert (Hn2 : _llm (self st2) = None) by (rewrite Hl2, Hs1; exact Hn).
  assert (Hd2 : dead (world st2)) by (rewrite Hw2; exact Hd1).
  unfold bind at 1.
  destruct (@llm_dead st2 Hn2 Hd2) as (msg2 & st3 & -> & Hd3 & Hs3 & Hf3 & Hq3).
  exists msg2, st3. split; [reflexivity|]. repeat split.
  - now rewrite Hs3.
  - rewrite Hs3, Hwn2, Hs1. exact Hwn.
  - exact Hd3.
  - congruence.
  - eapply quiet_trans; [exact Hq1|]. eapply quiet_trans; [|exact Hq3].
    exists []. rewrite app_nil_r. now repeat split.
Qed.

Lemma on_error_quiet (attempt : nat) (e : exn) (st : St World Handle) :
  exists st',
    on_error attempt e st = (inr tt, st') /\
    self st' = self st /\ world st' = world st /\
    frame st' = {| content_brief := content_brief (frame st);
                   error_msg := Some (str_exn e) |} /\
    quiet st st'.
Proof.
  unfold on_error, bind, assign_error_msg, update_frame.
  assert (Hnil : forall f : Locals,
             quiet st {| self := self st; world := world st; trace := trace st;
                         frame := f |}).
  { intros f. exists []. cbn. rewrite app_nil_r. now repeat split. }
  assert (Hsleep : forall q (f : Locals),
             quiet st (emit (world st) (EvSleep q)
                         {| self := self st; world := world st; trace := trace st;
                            frame := f |})).
  { intros q f. exists [EvSleep q]. now repeat split. }
  destruct (Nat.ltb attempt max_retries).
  - destruct (contains format_incompatibility (str_exn e)).
    + eexists. split; [reflexivity|]. cbn. repeat split. apply Hnil.
    + destruct (rate_limited (str_exn e)); eexists; (split; [reflexivity|]);
        cbn; repeat split; apply Hsleep.
  - eexists. split; [reflexivity|]. cbn. repeat split. apply Hnil.
Qed.

Lemma iteration_dead (video_path video_name : string) (attempt : nat)
    (st : St World Handle) :
  idle dead st ->
  exists msg st',
    iteration O video_path video_name attempt st = (inr None, st') /\
    idle dead st' /\
    error_msg (frame st') = Some (load_failure_text msg) /\
    quiet st st'.
Proof.
  intros Hidle. unfold iteration, try_except, attempt_body, bind at 1.
  rewrite (shape_request_unset O video_path st) by apply Hidle.
  destruct (@generic_shape_dead video_path st Hidle)
    as (msg & st1 & -> & (Hn1 & Hwn1 & Hd1) & Hf1 & Hq1).
  unfold bind at 1.
  destruct (on_error_quiet attempt (RuntimeError (load_failure_text msg)) st1)
    as (st2 & -> & Hs2 & Hw2 & Hf2 & Hq2).
  exists msg, st2. split; [reflexivity|]. repeat split.
  - now rewrite Hs2.
  - now rewrite Hs2.
  - now rewrite Hw2.
  - now rewrite Hf2.
  - eapply quiet_trans; eassumption.
Qed.

Lemma attempts_dead (video_path video_name : string) (range : list nat) :
  forall st : St World Handle,
    idle dead st ->
    range <> [] \/ (exists msg, error_msg (frame st) = Some (load_failure_text msg)) ->
    exists msg st',
      attempts O video_path video_name range st
      = (inl (RuntimeError
                ("Failed to process video after 3 attempts: " ++ load_failure_text msg)),
         st') /\
      quiet st st'.
Proof.
  induction range as [|attempt rest IH]; intros st Hidle Hr; cbn [attempts].
  - destruct Hr as [H|(msg & Hm)]; [congruence|].
    unfold exhausted, bind, gets. rewrite Hm. exists msg, st.
    split; [reflexivity | apply quiet_refl].
  - unfold bind at 1.
    destruct (@iteration_dead video_path video_name attempt st Hidle)
      as (msg & st1 & -> & Hidle1 & Hm1 & Hq1).
    destruct (IH st1 Hidle1) as (msg' & st2 & -> & Hq2); [right; now exists msg|].
    exists msg', st2. split; [reflexivity | eapply quiet_trans; eassumption].
Qed.

(** X4.  On a gateway where no model loads, a new session ends with the
    exhaustion error that carries the load failure, after probing only:
    nothing is invoked and nothing is saved. *)
Theorem process_video_never_loads (video_path : string) (st : St World Handle) :
  _llm (self st) = None -> working_model_name (self st) = None ->
  dead (world st) ->
  exists msg evs,
    fst (process_video O video_path st)
    = inl (RuntimeError
             ("Failed to process video after 3 attempts: "
              ++ "All multimodal models failed to load: Last error: " ++ msg)) /\
    trace (snd (process_video O video_path st)) = (trace st ++ evs)%list /\
    invokes evs = 0 /\ writes evs = 0.
Proof.
  intros Hn Hwn Hw. unfold process_video, bind, update_frame. cbv beta iota.
  set (st0 := {| self := self st; world := world st; trace := trace st;
                 frame := {| content_brief := None; error_msg := None |} |}).
  destruct (@attempts_dead video_path (video_stem O video_path) (seq 1 max_retries) st0)
    as (msg & st' & -> & evs & T & I0 & W0).
  - now repeat split.
  - left. discriminate.
  - exists msg, evs. now repeat split.
Qed.

End Dead.

(** *** Request shaping for the Claude family *)

(** X5.  With a working model whose name contains [claude] and not
    [gemini], an attempt sends exactly one request, the video path with the
    system prompt as [system]; its answer becomes [content_brief], and its
    failure is raised to the retry handler as it is: no second payload is
    tried. *)
Theorem claude_request_shaping (video_path m : string) (h : Handle)
    (st : St World Handle) :
  working_model_name (self st) = Some m ->
  contains "gemini" (lower m) = false ->
  contains "claude" (lower m) = true ->
  _llm (self st) = Some h ->
  let sp := current_system_prompt O st in
  let first := invoke O h (VStr video_path) (Some sp) (world st) in
  let out := shape_request O video_path st in
  trace (snd out) = (trace st ++ [EvInvoke h (VStr video_path) (Some sp) (fst first)])%list /\
  match fst first with
  | inl msg => fst out = inl (GatewayError msg)
  | inr text => fst out = inr tt /\ content_brief (frame (snd out)) = Some text
  end.
Proof.
  intros Hw Hg Hc Hh sp first out.
  destruct (system_prompt_run O st) as (st2 & Esp & Hworld & Htr & _ & _ & _ & _).
  assert (Hout : out = bind (call_invoke O h (VStr video_path) (Some sp))
                         (fun r => assign_content_brief r) st2).
  { unfold out, shape_request, bind at 1, gets. rewrite Hw, or_else_some, Hg, Hc.
    unfold claude_shape, invoke_with_system, bind at 1. rewrite (llm_cached O _ Hh).
    unfold bind at 1. rewrite Esp. reflexivity. }
  rewrite Hout. unfold bind, call_invoke. rewrite Hworld. fold first.
  destruct first as [[msg|text] w1]; cbn; rewrite Htr; repeat split; reflexivity.
Qed.

(** *** What the Gemini branch returns *)

(** X18.  With a working model whose name contains [gemini], the request
    branch never raises the failure of its first request.  An answer
    becomes [content_brief].  A failure whose text has [Unknown field] or
    [400] hands over to the second request: its answer becomes
    [content_brief], its failure is raised.  Any other failure is dropped:
    the branch ends normally and [content_brief] is what it was before,
    the answer of an earlier attempt or nothing. *)
Theorem gemini_request_outcome (video_path m : string) (h : Handle)
    (st : St World Handle) :
  working_model_name (self st) = Some m ->
  contains "gemini" (lower m) = true ->
  _llm (self st) = Some h ->
  let instruction := gemini_instruction (current_system_prompt O st) in
  let first := invoke O h (pair_payload instruction video_path) None (world st) in
  let second := invoke O h (contents_payload instruction video_path) None (snd first) in
  let out := shape_request O video_path st in
  match fst first with
  | inr text => fst out = inr tt /\ content_brief (frame (snd out)) = Some text
  | inl msg =>
      if gemini_format_rejected msg
      then match fst second with
           | inr text => fst out = inr tt /\ content_brief (frame (snd out)) = Some text
           | inl msg2 => fst out = inl (GatewayError msg2)
           end
      else fst out = inr tt /\
           content_brief (frame (snd out)) = content_brief (frame st)
  end.
Proof.
  intros Hw Hg Hh instruction first second out.
  destruct (system_prompt_run O st) as (st2 & Esp & Hworld & _ & Hframe & Hllm & _).
  rewrite Hh in Hllm.
  assert (Hout : out = try_except
                         (bind (llm O)
                            (fun h0 =>
                               bind (call_invoke O h0 (pair_payload instruction video_path) None)
                                 (fun r => assign_content_brief r)))
                         (fun e =>
                            if gemini_format_rejected (str_exn e)
                            then bind (llm O)
                                   (fun h0 =>
                                      bind (call_invoke O h0
                                              (contents_payload instruction video_path) None)
                                        (fun r => assign_content_brief r))
                            else ret tt) st2).
  { unfold out, shape_request, bind at 1, gets. rewrite Hw, or_else_some, Hg.
    unfold gemini_shape, bind at 1. rewrite Esp. reflexivity. }
  clearbody out. unfold try_except, bind at 1 in Hout.
  rewrite (llm_cached O _ Hllm) in Hout. unfold bind at 1, call_invoke in Hout.
  rewrite Hworld in Hout. fold first in Hout. subst second.
  destruct first as [[msg|text] w1]; cbn [fst snd] in *.
  - cbn [str_exn] in Hout. destruct (gemini_format_rejected msg).
    + unfold bind at 1 in Hout.
      rewrite (@llm_cached _ _ O (emit w1 (EvInvoke h (pair_payload instruction video_path)
                                            None (inl msg)) st2) h) in Hout by exact Hllm.
      unfold bind, call_invoke in Hout. cbn [world emit] in Hout.
      destruct (invoke O h (contents_payload instruction video_path) None w1)
        as [[msg2|text2] w2]; rewrite Hout; cbn; [reflexivity | now split].
    + rewrite Hout. cbn. now rewrite Hframe.
  - rewrite Hout. cbn. now split.
Qed.

End Gateway.

(** X18 on the scripted gateway: the rate-limit failure is dropped and the
    empty answer of the attempt before is still there. *)
Lemma gemini_outcome_witness :
  fst (shape_request Demo.oracles "clip"
         (Demo.session "gemini-2.5-flash" [inl "rate limit hit"]))
  = inr tt /\
  content_brief (frame (snd (shape_request Demo.oracles "clip"
                               (Demo.session "gemini-2.5-flash" [inl "rate limit hit"]))))
  = None.
Proof.
  apply (@gemini_request_outcome _ _ Demo.oracles "clip" "gemini-2.5-flash"
           "gemini-2.5-flash" (Demo.session "gemini-2.5-flash" [inl "rate limit hit"]));
    vm_compute; reflexivity.
Defined.

(** X3 on the scripted gateway: the second attempt returns the brief. *)
Lemma returned_brief_witness :
  exists evs,
    trace (snd (process_video Demo.oracles "clip"
                  (fresh (Processor_init Demo.cfg None)
                     (Demo.script ["gemini-2.5-pro"] [inr ""; inr Demo.long_brief]))))
    = (evs ++ [EvWrite "archive/Foo.md" Demo.long_brief None])%list /\
    answered Demo.long_brief evs.
Proof.
  eassert (E : process_video Demo.oracles "clip"
                 (fresh (Processor_init Demo.cfg None)
                    (Demo.script ["gemini-2.5-pro"] [inr ""; inr Demo.long_brief]))
               = (inr (Demo.long_brief, _), _)) by (vm_compute; reflexivity).
  destruct (@returned_brief_origin _ _ Demo.oracles "clip" _ _ _ _ E)
    as (evs & T & A & _ & _).
  exists evs. rewrite E. split; [exact T | exact A].
Defined.

(** X4 on the scripted gateway with no model available. *)
Lemma never_loads_witness :
  exists msg evs,
    fst (process_video Demo.oracles "clip"
           (fresh (Processor_init Demo.cfg None) (Demo.script [] [])))
    = inl (RuntimeError
             ("Failed to process video after 3 attempts: "
              ++ "All multimodal models failed to load: Last error: " ++ msg)) /\
    trace (snd (process_video Demo.oracles "clip"
                  (fresh (Processor_init Demo.cfg None) (Demo.script [] []))))
    = evs /\
    invokes evs = 0 /\ writes evs = 0.
Proof.
  apply (@process_video_never_loads _ _ Demo.oracles (fun w => Demo.loadable w = [])).
  - intros name team use_case w Hw.
    exists ("model not available: " ++ name), w. cbn. unfold Demo.demo_load.
    rewrite Hw. now split.
  - reflexivity.
  - reflexivity.
  - reflexivity.
Defined.

(** X5 on the scripted gateway: the failure of the one request is raised. *)
Lemma claude_request_witness :
  trace (snd (shape_request Demo.oracles "clip"
                (Demo.session "claude-3" [inl "boom"; inr Demo.long_brief])))
  = [EvInvoke "claude-3" (VStr "clip") (Some "SYS") (inl "boom")] /\
  fst (shape_request Demo.oracles "clip"
         (Demo.session "claude-3" [inl "boom"; inr Demo.long_brief]))
  = inl (GatewayError "boom").
Proof.
  destruct (@claude_request_shaping _ _ Demo.oracles "clip" "claude-3" "claude-3"
              (Demo.session "claude-3" [inl "boom"; inr Demo.long_brief]))
    as [T R]; try (vm_compute; reflexivity).
  split; [exact T | exact R].
Defined.

End EngineMoreFacts.

(** ** A brief is saved once *)

Module SavingFacts.
Import Py PyStr Engine EngineMore.

Section Gateway.
Variables World Handle : Type.
Variable O : Oracles World Handle.

Lemma saves_app (a b : list (event Handle)) : saves (a ++ b) = saves a + saves b.
Proof. unfold saves. now rewrite filter_app, length_app. Qed.

Lemma saves_le_writes (evs : list (event Handle)) : saves evs <= writes evs.
Proof.
  unfold saves, writes. induction evs as [|ev evs IH]; [reflexivity|].
  destruct ev as [| | |path content [msg|]]; cbn; lia.
Qed.

(** What costs no write saves nothing. *)
Lemma spends_unsaved (A : Type) (nl ni : nat) (m : M World Handle A) :
  spends nl ni 0 m ->
  forall st, exists evs,
    trace (snd (m st)) = (trace st ++ evs)%list /\ saves evs = 0.
Proof.
  intros H st. destruct (H st) as (_ & evs & T & _ & _ & Hw).
  exists evs. split; [exact T|]. pose proof (saves_le_writes evs). lia.
Qed.

Lemma attempt_body_saves (video_path video_name : string) (st : St World Handle) :
  exists evs,
    trace (snd (attempt_body O video_path video_name st)) = (trace st ++ evs)%list /\
    saves evs = match fst (attempt_body O video_path video_name st) with
                | inr (Some _) => 1
                | _ => 0
                end.
Proof.
  destruct (spends_unsaved (@EngineMoreFacts.shape_request_spends _ _ O video_path) st)
    as (evs1 & T1 & S1).
  destruct (attempt_body O video_path video_name st) as [r st'] eqn:E. cbn [fst snd].
  revert E. unfold attempt_body, bind at 1.
  destruct (shape_request O video_path st) as [[e|u] st2]; cbn [snd] in T1.
  - intros [= <- <-]. exists evs1. now split.
  - unfold bind at 1, gets.
    destruct (content_brief (frame st2)) as [text|];
      [|intros [= <- <-]; exists evs1; now split].
    destruct (too_short text); [intros [= <- <-]; exists evs1; now split|].
    unfold bind, save_brief, gets.
    destruct (write_text O _ text (world st2)) as [[msg|] w]; intros [= <- <-];
      cbn [trace emit]; eexists (evs1 ++ [_])%list; rewrite T1, <- app_assoc;
      (split; [reflexivity|]); rewrite saves_app, S1; reflexivity.
Qed.

Lemma iteration_saves (video_path video_name : string) (attempt : nat)
    (st : St World Handle) :
  exists evs,
    trace (snd (iteration O video_path video_name attempt st)) = (trace st ++ evs)%list /\
    saves evs = match fst (iteration O video_path video_name attempt st) with
                | inr (Some _) => 1
                | _ => 0
                end.
Proof.
  destruct (attempt_body_saves video_path video_name st) as (evs1 & T1 & S1).
  destruct (iteration O video_path video_name attempt st) as [r st'] eqn:E.
  cbn [fst snd]. revert E. unfold iteration, try_except.
  destruct (attempt_body O video_path video_name st) as [[e|r0] st2]; cbn [fst snd] in *.
  - destruct (spends_unsaved (@EngineMoreFacts.on_error_spends World Handle attempt e) st2)
      as (evs2 & T2 & S2).
    unfold bind. destruct (on_error attempt e st2) as [[e'|u] st3]; cbn [fst snd] in *;
      intros [= <- <-]; exists (evs1 ++ evs2)%list;
      rewrite T2, T1, <- app_assoc, saves_app, S1, S2; now split.
  - intros [= <- <-]. exists evs1. now split.
Qed.

Lemma attempts_saves (video_path video_name : string) (range : list nat) :
  forall st : St World Handle,
    exists evs,
      trace (snd (attempts O video_path video_name range st)) = (trace st ++ evs)%list /\
      saves evs = match fst (attempts O video_path video_name range st) with
                  | inr _ => 1
                  | inl _ => 0
                  end.
Proof.
  induction range as [|attempt rest IH]; intros st; cbn [attempts].
  - exists []. rewrite app_nil_r. unfold exhausted, bind, gets.
    destruct (error_msg (frame st)); now split.
  - destruct (iteration_saves video_path video_name attempt st) as (evs1 & T1 & S1).
    unfold bind.
    destruct (iteration O video_path video_name attempt st) as [[e|[r|]] st2];
      cbn [fst snd] in *.
    + exists evs1. now split.
    + exists evs1. now split.
    + destruct (IH st2) as (evs2 & T2 & S2).
      exists (evs1 ++ evs2)%list. rewrite T2, T1, <- app_assoc, saves_app, S1, S2.
      now split.
Qed.

(** X14.  One call of [process_video] saves a brief exactly once when it
    returns and not at all when it raises: a save that failed is never
    followed by a report of success, and no second brief is written after
    one was saved. *)
Theorem process_video_saves_once (video_path : string) (st : St World Handle) :
  exists evs,
    trace (snd (process_video O video_path st)) = (trace st ++ evs)%list /\
    saves evs = match fst (process_video O video_path st) with
                | inr _ => 1
                | inl _ => 0
                end.
Proof.
  unfold process_video, bind, update_frame. cbv beta iota.
  match goal with
  | |- context [attempts O video_path ?n ?r ?s] =>
      destruct (attempts_saves video_path n r s) as (evs & T & S)
  end.
  exists evs. split; [exact T | exact S].
Qed.

(** X15.  The flag that [process_video] of [src/main.py] reports is true
    exactly when a brief was saved during the call, and then it was saved
    once. *)
Theorem reported_iff_saved (video_path : string) (cfg : Config)
    (model_name : option string) (w : World) :
  saves (snd (snd (main_process_video O video_path cfg model_name w)))
  = if fst (main_process_video O video_path cfg model_name w) then 1 else 0.
Proof.
  unfold main_process_video, process_video_file.
  destruct (path_exists O video_path w); cbn [negb]; [|reflexivity].
  unfold try_except, process_video, bind, update_frame. cbv beta iota.
  match goal with
  | |- context [attempts O video_path ?n ?r ?s] =>
      destruct (attempts_saves video_path n r s) as (evs & T & S);
      pose proof (@EngineMoreFacts.attempts_result _ _ O video_path n r s) as R;
      destruct (attempts O video_path n r s) as [[e|[text path]] st']
  end; cbn [fst snd trace fresh app] in *.
  - unfold raise. cbn. now rewrite T.
  - destruct (R st' text path eq_refl) as (_ & _ & -> & _). cbn. now rewrite T.
Qed.

End Gateway.
End SavingFacts.

(** ** What every step of a run looks like *)

Module EventFacts.
Import Py PyStr Engine EngineMore.

Section Gateway.
Variables World Handle : Type.
Variable O : Oracles World Handle.
Variable cfg : Config.
Variable primary : string.
Variable P : event Handle -> Prop.

Lemma emits_ret (A : Type) (a : A) : emits (World:=World) cfg primary P (ret a).
Proof. intros st H. split; [exact H|]. exists []. now rewrite app_nil_r. Qed.

Lemma emits_raise (A : Type) (e : exn) : emits (World:=World) cfg primary P (raise (A:=A) e).
Proof. intros st H. split; [exact H|]. exists []. now rewrite app_nil_r. Qed.

Lemma emits_gets (A : Type) (f : St World Handle -> A) : emits (World:=World) cfg primary P (gets f).
Proof. intros st H. split; [exact H|]. exists []. now rewrite app_nil_r. Qed.

Lemma emits_bind (A B : Type) (m : M World Handle A) (f : A -> M World Handle B) :
  emits (World:=World) cfg primary P m -> (forall a, emits (World:=World) cfg primary P (f a)) -> emits (World:=World) cfg primary P (bind m f).
Proof.
  intros Hm Hf st H. unfold bind. destruct (Hm st H) as (C1 & evs1 & T1 & F1).
  destruct (m st) as [[e|a] st1]; cbn [snd] in *.
  - split; [exact C1|]. now exists evs1.
  - destruct (Hf a st1 C1) as (C2 & evs2 & T2 & F2). split; [exact C2|].
    exists (evs1 ++ evs2)%list. rewrite T2, T1, <- app_assoc. split; [reflexivity|].
    now apply Forall_app.
Qed.

Lemma emits_try (A : Type) (m : M World Handle A) (handler : exn -> M World Handle A) :
  emits (World:=World) cfg primary P m -> (forall e, emits (World:=World) cfg primary P (handler e)) -> emits (World:=World) cfg primary P (try_except m handler).
Proof.
  intros Hm Hh st H. unfold try_except. destruct (Hm st H) as (C1 & evs1 & T1 & F1).
  destruct (m st) as [[e|a] st1]; cbn [snd] in *.
  - destruct (Hh e st1 C1) as (C2 & evs2 & T2 & F2). split; [exact C2|].
    exists (evs1 ++ evs2)%list. rewrite T2, T1, <- app_assoc. split; [reflexivity|].
    now apply Forall_app.
  - split; [exact C1|]. now exists evs1.
Qed.

Lemma emits_update_self (f : Processor Handle -> Processor Handle) :
  (forall p, config (f p) = config p /\ primary_model_name (f p) = primary_model_name p) ->
  emits (World:=World) cfg primary P (update_self f).
Proof.
  intros Hf st [H1 H2]. cbn. destruct (Hf (self st)) as [-> ->].
  split; [now split|]. exists []. now rewrite app_nil_r.
Qed.

Lemma emits_update_frame (f : Locals -> Locals) : emits (World:=World) cfg primary P (update_frame f).
Proof. intros st H. split; [exact H|]. exists []. now rewrite app_nil_r. Qed.

Lemma emits_one (w : World) (ev : event Handle) (st : St World Handle) :
  P ev ->
  config (self st) = cfg /\ primary_model_name (self st) = primary ->
  (config (self (emit w ev st)) = cfg /\
   primary_model_name (self (emit w ev st)) = primary) /\
  exists evs, trace (emit w ev st) = (trace st ++ evs)%list /\ Forall P evs.
Proof. intros Hev H. split; [exact H|]. exists [ev]. split; [reflexivity | now constructor]. Qed.

Lemma emits_sleep (seconds : Q) : P (EvSleep seconds) -> emits (World:=World) cfg primary P (sleep seconds).
Proof. intros Hev st H. now apply emits_one. Qed.

Hypothesis loads_pass :
  forall m res, In m (models_to_try primary (fallback_list cfg)) -> P (EvLoad m res).
Hypothesis invokes_pass : forall h payload system res, P (EvInvoke h payload system res).
Hypothesis half_passes : P (EvSleep (1 # 2)%Q).
Hypothesis one_passes : P (EvSleep 1%Q).
Hypothesis two_passes : P (EvSleep (inject_Z 2)).
Hypothesis four_passes : P (EvSleep (inject_Z 4)).
Hypothesis targets_pass :
  forall name content res,
    forallb NamingMore.clean name = true ->
    P (EvWrite (os_path_join O (BRIEF_DIR cfg) (name ++ BRIEF_EXTENSION cfg)) content res).

Lemma emits_call_load_model (model_name : string) :
  In model_name (models_to_try primary (fallback_list cfg)) ->
  emits (World:=World) cfg primary P (call_load_model O model_name).
Proof.
  intros Hin st H. unfold call_load_model.
  destruct (load_model O model_name _ _ (world st)) as [[msg|h] w]; cbn [snd];
    apply emits_one; auto.
Qed.

Lemma emits_call_invoke (h : Handle) (payload : pyval) (system : option string) :
  emits (World:=World) cfg primary P (call_invoke O h payload system).
Proof.
  intros st H. unfold call_invoke.
  destruct (invoke O h payload system (world st)) as [[msg|text] w]; cbn [snd];
    now apply emits_one.
Qed.

Lemma emits_try_models (candidates : list string) :
  (forall m, In m candidates -> In m (models_to_try primary (fallback_list cfg))) ->
  forall last_error, emits (World:=World) cfg primary P (try_models O candidates last_error).
Proof.
  induction candidates as [|model_name rest IH]; intros Hsub last_error; cbn [try_models].
  - destruct last_error; apply emits_raise.
  - apply emits_try.
    + apply emits_bind; [apply emits_call_load_model; apply Hsub; now left|].
      intros model.
      apply emits_bind; [now apply emits_update_self|]. intros ?. apply emits_ret.
    + intros e. apply emits_bind; [now apply emits_sleep|]. intros ?.
      apply IH. intros m Hm. apply Hsub. now right.
Qed.

Lemma emits_read_self (A : Type) (f : Processor Handle -> M World Handle A) :
  (forall p, config p = cfg -> primary_model_name p = primary ->
             emits (World:=World) cfg primary P (f p)) ->
  emits (World:=World) cfg primary P (bind (gets (fun st => self st)) f).
Proof.
  intros Hf st H. unfold bind, gets.
  apply (Hf (self st)); [apply H | apply H | exact H].
Qed.

Lemma emits_llm : emits (World:=World) cfg primary P (llm O).
Proof.
  unfold llm. apply emits_bind; [apply emits_gets|]. intros [h|]; [apply emits_ret|].
  apply emits_bind.
  - unfold _load_model_with_fallback. apply emits_read_self. intros p Hc Hp.
    rewrite Hc, Hp. now apply emits_try_models.
  - intros h. apply emits_bind; [now apply emits_update_self|]. intros ?. apply emits_ret.
Qed.

Lemma emits_system_prompt : emits (World:=World) cfg primary P (system_prompt O).
Proof.
  unfold system_prompt. apply emits_bind; [apply emits_gets|].
  intros [s|]; [apply emits_ret|].
  apply emits_bind; [apply emits_gets|]. intros s.
  apply emits_bind; [now apply emits_update_self|]. intros ?. apply emits_ret.
Qed.

Lemma emits_invoke_llm (payload : pyval) (system : option string) :
  emits (World:=World) cfg primary P (bind (llm O)
           (fun h => bind (call_invoke O h payload system)
                       (fun r => assign_content_brief r))).
Proof.
  apply emits_bind; [apply emits_llm|]. intros h.
  apply emits_bind; [apply emits_call_invoke|]. intros r. apply emits_update_frame.
Qed.

Lemma emits_invoke_with_system (video_path : string) :
  emits (World:=World) cfg primary P (invoke_with_system O video_path).
Proof.
  unfold invoke_with_system. apply emits_bind; [apply emits_llm|]. intros h.
  apply emits_bind; [apply emits_system_prompt|]. intros sp.
  apply emits_bind; [apply emits_call_invoke|]. intros r. apply emits_update_frame.
Qed.

Lemma emits_shape_request (video_path : string) : emits (World:=World) cfg primary P (shape_request O video_path).
Proof.
  unfold shape_request. apply emits_bind; [apply emits_gets|]. intros model_name.
  destruct (contains "gemini" (lower model_name)).
  - unfold gemini_shape. apply emits_bind; [apply emits_system_prompt|]. intros sp.
    apply emits_try; [apply emits_invoke_llm|]. intros e.
    destruct (gemini_format_rejected (str_exn e)); [apply emits_invoke_llm | apply emits_ret].
  - destruct (contains "claude" (lower model_name));
      [apply emits_invoke_with_system|].
    unfold generic_shape. apply emits_try; [apply emits_invoke_with_system|]. intros e.
    apply emits_bind; [apply emits_system_prompt|]. intros sp. apply emits_invoke_llm.
Qed.

Lemma emits_read_config (A : Type) (f : Config -> M World Handle A) :
  emits (World:=World) cfg primary P (f cfg) -> emits (World:=World) cfg primary P (bind (gets (fun st => config (self st))) f).
Proof. intros Hf st H. unfold bind, gets. rewrite (proj1 H). now apply Hf. Qed.

Lemma emits_save_brief (name content : string) :
  forallb NamingMore.clean name = true ->
  emits (World:=World) cfg primary P
    (save_brief O (os_path_join O (BRIEF_DIR cfg) (name ++ BRIEF_EXTENSION cfg)) content).
Proof.
  intros Hclean st H. unfold save_brief.
  destruct (write_text O _ content (world st)) as [[msg|] w]; cbn [snd];
    apply emits_one; try exact H; now apply targets_pass.
Qed.

Lemma emits_attempt_body (video_path video_name : string) :
  emits (World:=World) cfg primary P (attempt_body O video_path video_name).
Proof.
  unfold attempt_body. apply emits_bind; [apply emits_shape_request|]. intros ?.
  apply emits_bind; [apply emits_gets|]. intros [text|]; [|apply emits_raise].
  destruct (too_short text); [apply emits_ret|].
  apply emits_read_config.
  apply emits_bind; [|intros ?; apply emits_ret].
  apply emits_save_brief. apply NamingMoreFacts.safe_file_title_clean.
Qed.

Lemma emits_on_error (attempt : nat) (e : exn) :
  1 <= attempt -> emits (World:=World) cfg primary P (on_error attempt e).
Proof.
  intros Hpos. unfold on_error. apply emits_bind; [apply emits_update_frame|]. intros ?.
  destruct (Nat.ltb attempt max_retries) eqn:Hlt; [|apply emits_ret].
  destruct (contains format_incompatibility (str_exn e)); [apply emits_ret|].
  destruct (rate_limited (str_exn e)); [|now apply emits_sleep].
  apply Nat.ltb_lt in Hlt. unfold max_retries in Hlt.
  destruct attempt as [|[|[|n]]]; try lia; now apply emits_sleep.
Qed.

Lemma emits_attempts (video_path video_name : string) (range : list nat) :
  Forall (fun attempt => 1 <= attempt) range ->
  emits (World:=World) cfg primary P (attempts O video_path video_name range).
Proof.
  induction range as [|attempt rest IH]; intros Hrange; cbn [attempts].
  - unfold exhausted. apply emits_bind; [apply emits_gets|].
    intros [msg|]; apply emits_raise.
  - inversion Hrange as [|a r Ha Hrest]; subst.
    apply emits_bind.
    + unfold iteration. apply emits_try; [apply emits_attempt_body|]. intros e.
      apply emits_bind; [now apply emits_on_error|]. intros ?. apply emits_ret.
    + intros [result|]; [apply emits_ret | now apply IH].
Qed.

Lemma emits_process_video (video_path : string) : emits (World:=World) cfg primary P (process_video O video_path).
Proof.
  unfold process_video. apply emits_bind; [apply emits_update_frame|]. intros ?.
  apply emits_attempts. unfold max_retries. cbn. repeat constructor.
Qed.

End Gateway.

Section Runs.
Variables World Handle : Type.
Variable O : Oracles World Handle.

(** X19.  The pauses of one call of [process_video] are of half a second
    (after a failed probe), one second, two seconds or four seconds: the
    back-off of the retry handler never reaches its bound of ten seconds,
    and no attempt is followed by a longer wait. *)
Theorem process_video_pauses (video_path : string) (st : St World Handle) :
  exists evs,
    trace (snd (process_video O video_path st)) = (trace st ++ evs)%list /\
    Forall (@short_pause Handle) evs.
Proof.
  destruct (@emits_process_video World Handle O (config (self st))
              (primary_model_name (self st)) (@short_pause Handle))
    with (video_path := video_path) (st := st) as (_ & evs & T & F);
    cbn; auto.
  now exists evs.
Qed.

(** X20.  Whatever the gateway answers, every file that one call of
    [process_video] writes or tries to write is in the brief directory of
    the session, under a name made of alphanumeric characters and
    [-_()[]] followed by the brief extension: a title found in the answer
    cannot send the brief elsewhere. *)
Theorem process_video_targets (video_path : string) (st : St World Handle) :
  exists evs,
    trace (snd (process_video O video_path st)) = (trace st ++ evs)%list /\
    Forall (brief_target O (config (self st))) evs.
Proof.
  destruct (@emits_process_video World Handle O (config (self st))
              (primary_model_name (self st)) (brief_target O (config (self st))))
    with (video_path := video_path) (st := st) as (_ & evs & T & F);
    cbn; auto.
  - intros name content res Hclean. now exists name.
  - now exists evs.
Qed.

(** X21.  One call of [process_video] probes no model outside the
    priority list of the session (the primary model and the fallback
    models), however many times the list is gone through. *)
Theorem process_video_probes (video_path : string) (st : St World Handle) :
  exists evs,
    trace (snd (process_video O video_path st)) = (trace st ++ evs)%list /\
    Forall (listed (candidates_of st)) evs.
Proof.
  destruct (@emits_process_video World Handle O (config (self st))
              (primary_model_name (self st)) (listed (candidates_of st)))
    with (video_path := video_path) (st := st) as (_ & evs & T & F);
    cbn; auto.
  now exists evs.
Qed.

End Runs.
End EventFacts.

(** ** The transcript tools and the orchestrator of [main.py] *)

Module BatchFacts.
Import Py PyStr PyStrFacts Engine EngineMore Batch.

(** *** Suffixes *)

Lemma take_drop (n : nat) (s : string) : Regex.take n s ++ drop n s = s.
Proof.
  revert s. induction n as [|n IH]; intros [|c s]; simpl; try reflexivity.
  now rewrite IH.
Qed.

Lemma drop_app (a b : string) : drop (String.length a) (a ++ b) = b.
Proof. induction a as [|c a IH]; simpl; [now destruct b | exact IH]. Qed.

Lemma endswith_spec (suffix s : string) :
  endswith suffix s = true <-> exists a, s = a ++ suffix.
Proof.
  unfold endswith. rewrite andb_true_iff, Nat.leb_le, String.eqb_eq. split.
  - intros [_ H]. exists (Regex.take (String.length s - String.length suffix) s).
    transitivity (Regex.take (String.length s - String.length suffix) s
                  ++ drop (String.length s - String.length suffix) s).
    + symmetry. apply take_drop.
    + now rewrite H.
  - intros (a & ->). rewrite length_append. split; [lia|].
    replace (String.length a + String.length suffix - String.length suffix)
      with (String.length a) by lia.
    apply drop_app.
Qed.

(** X8.  The brief of a transcript named [<base>_transcript] is named
    [<base>]: exactly the suffix is cut; any other name is kept whole. *)
Theorem brief_name_spec :
  (forall base, brief_name (base ++ "_transcript") = base) /\
  (forall name, (forall base, name <> base ++ "_transcript") -> brief_name name = name).
Proof.
  split.
  - intros base. unfold brief_name.
    rewrite (proj2 (endswith_spec "_transcript" (base ++ "_transcript")))
      by now exists base.
    unfold cut_tail. rewrite length_append.
    replace (String.length base + String.length "_transcript" - 11)
      with (String.length base) by (simpl; lia).
    apply RegexFacts.take_app.
  - intros name H. unfold brief_name.
    destruct (endswith "_transcript" name) eqn:E; [|reflexivity].
    apply endswith_spec in E. destruct E as (a & ->). now destruct (H a).
Qed.

Section Transcripts.
Variables World Handle : Type.
Variable O : Oracles World Handle.
Variable cfg : CoreConfig.
Variable W : Whisper World.

(** *** The transcriber *)

(** X9.  [transcribe_file] raises only when the speech-to-text engine
    does.  Otherwise the transcript it returns has no white space at
    either end; it was written to the path [get_transcript_path] gives for
    the video, which is the path returned when the write succeeded; when
    the write failed the transcript is still returned, without a path.  A
    video that does not exist gives the empty transcript and no path, and
    the engine is not run. *)
Theorem transcribe_file_outcome (video_path : string) (w : World) :
  match transcribe_file O cfg W video_path w with
  | (inl e, (_, tr)) =>
      exists msg, e = GatewayError msg /\ tr = [BTranscribe video_path (inl msg)]
  | (inr (text, saved), (w', tr)) =>
      (path_exists O video_path w = false /\
       text = "" /\ saved = None /\ tr = [] /\ w' = w) \/
      (path_exists O video_path w = true /\
       exists segments wres,
         text = full_transcript segments /\
         tr = [BTranscribe video_path (inr segments);
               BSave (get_transcript_path O cfg video_path) text wres] /\
         saved = (match wres with
                  | None => Some (get_transcript_path O cfg video_path)
                  | Some _ => None
                  end) /\
         (forall c, first_char text = Some c -> isspace c = false) /\
         (forall c, last_char text = Some c -> isspace c = false))
  end.
Proof.
  unfold transcribe_file.
  destruct (path_exists O video_path w) eqn:Hex; cbn [negb]; [|left; now repeat split].
  destruct (transcribe W video_path w) as [[msg|segments] w1]; [now exists msg|].
  fold (get_transcript_path O cfg video_path).
  destruct (write_text O _ (full_transcript segments) w1) as [wres w2].
  assert (Htrim : (forall c, first_char (full_transcript segments) = Some c ->
                             isspace c = false) /\
                  (forall c, last_char (full_transcript segments) = Some c ->
                             isspace c = false)).
  { unfold full_transcript.
    destruct (strip_spec (fold_left (fun acc text => acc ++ text ++ " ") segments ""))
      as (lead & trail & _ & _ & _ & Hf & Hl). now split. }
  destruct wres as [err|]; right; (split; [reflexivity|]);
    [exists segments, (Some err) | exists segments, None];
    repeat split; apply Htrim.
Qed.

(** *** The transcript engine *)

(** The [try] block of [process_transcript]: what it does, and what it
    returns when it does not raise. *)
Lemma generate_steps (transcript_text video_name : string)
    (st : Core.St World Handle) :
  let out := Core.generate O (base cfg) transcript_text video_name st in
  let path := os_path_join O (BRIEF_DIR (base cfg))
                (video_name ++ BRIEF_EXTENSION (base cfg)) in
  exists evs,
    Core.trace (snd out) = (Core.trace st ++ evs)%list /\
    loads evs <= 1 /\ invokes evs <= 1 /\ writes evs <= 1 /\
    (forall m res, In (EvLoad m res) evs -> m = Core.model_name (Core.self st)) /\
    match fst out with
    | inl _ => True
    | inr (brief, saved) =>
        saved = Some path /\
        exists before,
          evs = (before ++ [EvWrite path brief None])%list /\ answered brief before
    end.
Proof.
  intros out path. subst out. unfold Core.generate. fold path.
  assert (Hllm : exists pre,
             Core.trace (snd (Core.llm O (base cfg) st)) = (Core.trace st ++ pre)%list /\
             loads pre <= 1 /\ invokes pre = 0 /\ writes pre = 0 /\
             (forall m res, In (EvLoad m res) pre -> m = Core.model_name (Core.self st))).
  { unfold Core.llm. destruct (Core._llm (Core.self st)).
    - exists []. cbn. rewrite app_nil_r.
      refine (conj eq_refl (conj _ (conj eq_refl (conj eq_refl _)))).
      + unfold loads. cbn. lia.
      + intros m res [].
    - destruct (load_model O _ _ _ (Core.world st)) as [res w0].
      exists [EvLoad (Core.model_name (Core.self st)) res].
      assert (Hin : forall m res0,
                 In (EvLoad m res0) [EvLoad (Core.model_name (Core.self st)) res] ->
                 m = Core.model_name (Core.self st)).
      { intros m res0 [H|[]]. now injection H as <- _. }
      destruct res; cbn;
        refine (conj eq_refl (conj _ (conj eq_refl (conj eq_refl Hin))));
        unfold loads; cbn; lia. }
  destruct Hllm as (pre & Htr1 & Hl & Hi & Hw & Hm).
  assert (Hmodels : forall tail m res,
             Forall (fun ev => is_load ev = false) tail ->
             In (EvLoad m res) (pre ++ tail) -> m = Core.model_name (Core.self st)).
  { intros tail m res Hno H. apply in_app_iff in H. destruct H as [H|H]; [eauto|].
    rewrite Forall_forall in Hno. specialize (Hno _ H). discriminate. }
  destruct (Core.llm O (base cfg) st) as [[e|h] st1]; cbn [snd] in Htr1.
  - exists pre. cbn [fst snd].
    refine (conj Htr1 (conj Hl (conj _ (conj _ (conj Hm I))))); lia.
  - assert (Htr2 : Core.trace (snd (Core.system_prompt O (base cfg) st1)) = Core.trace st1).
    { unfold Core.system_prompt. now destruct (Core._system_prompt (Core.self st1)). }
    destruct (Core.system_prompt O (base cfg) st1) as [sp st2]. cbn [snd] in Htr2.
    set (payload := VStr (Core.user_prompt transcript_text video_name)).
    destruct (invoke O h payload (Some sp) (Core.world st2)) as [[msg|text] w].
    + exists (pre ++ [EvInvoke h payload (Some sp) (inl msg)])%list.
      cbn [fst snd Core.trace].
      rewrite Htr2, Htr1, <- app_assoc, EngineMoreFacts.loads_app,
        EngineMoreFacts.invokes_app, EngineMoreFacts.writes_app, Hi, Hw.
      refine (conj eq_refl (conj _ (conj _ (conj _ (conj _ I))))).
      * unfold loads at 2. cbn. lia.
      * unfold invokes. cbn. lia.
      * unfold writes. cbn. lia.
      * intros m res. apply Hmodels. now repeat constructor.
    + destruct (write_text O path text w) as [[err|] w'].
      * exists (pre ++ [EvInvoke h payload (Some sp) (inr text);
                        EvWrite path text (Some err)])%list.
        cbn [fst snd Core.trace].
        rewrite Htr2, Htr1, <- !app_assoc, EngineMoreFacts.loads_app,
          EngineMoreFacts.invokes_app, EngineMoreFacts.writes_app, Hi, Hw.
        refine (conj eq_refl (conj _ (conj _ (conj _ (conj _ I))))).
        -- unfold loads at 2. cbn. lia.
        -- unfold invokes. cbn. lia.
        -- unfold writes. cbn. lia.
        -- intros m res. apply Hmodels. now repeat constructor.
      * exists (pre ++ [EvInvoke h payload (Some sp) (inr text);
                        EvWrite path text None])%list.
        cbn [fst snd Core.trace].
        rewrite Htr2, Htr1, <- !app_assoc, EngineMoreFacts.loads_app,
          EngineMoreFacts.invokes_app, EngineMoreFacts.writes_app, Hi, Hw.
        refine (conj eq_refl (conj _ (conj _ (conj _ (conj _ (conj eq_refl _)))))).
        -- unfold loads at 2. cbn. lia.
        -- unfold invokes. cbn. lia.
        -- unfold writes. cbn. lia.
        -- intros m res. apply Hmodels. now repeat constructor.
        -- exists (pre ++ [EvInvoke h payload (Some sp) (inr text)])%list.
           split; [now rewrite <- app_assoc|].
           exists h, payload, (Some sp). apply in_app_iff. right. now left.
Qed.

(** X10.  [process_transcript] never raises.  It probes no model but its
    own, once at most, sends at most one request and saves at most once;
    a path is returned only with the brief that was answered and then
    saved, as the last step, in the brief directory under the video name;
    every failure gives the empty brief and no path. *)
Theorem process_transcript_outcome (transcript_text video_name : string)
    (st : Core.St World Handle) :
  let out := Core.process_transcript O (base cfg) transcript_text video_name st in
  exists r evs,
    fst out = inr r /\
    Core.trace (snd out) = (Core.trace st ++ evs)%list /\
    loads evs <= 1 /\ invokes evs <= 1 /\ writes evs <= 1 /\
    (forall m res, In (EvLoad m res) evs -> m = Core.model_name (Core.self st)) /\
    (forall b p,
       r = (b, Some p) ->
       p = os_path_join O (BRIEF_DIR (base cfg))
             (video_name ++ BRIEF_EXTENSION (base cfg)) /\
       exists before,
         evs = (before ++ [EvWrite p b None])%list /\ answered b before) /\
    (forall b, r = (b, None) -> b = "").
Proof.
  intros out. subst out. unfold Core.process_transcript.
  destruct (generate_steps transcript_text video_name st)
    as (evs & T & Hl & Hi & Hw & Hm & Hres).
  destruct (Core.generate O (base cfg) transcript_text video_name st)
    as [[e|[brief saved]] st']; cbn [fst snd] in *.
  - exists ("", None), evs.
    refine (conj eq_refl (conj T (conj Hl (conj Hi (conj Hw (conj Hm (conj _ _))))))).
    + discriminate.
    + now intros b [= <-].
  - destruct Hres as (-> & before & Hevs & Ha).
    exists (brief, Some (os_path_join O (BRIEF_DIR (base cfg))
                          (video_name ++ BRIEF_EXTENSION (base cfg)))), evs.
    refine (conj eq_refl (conj T (conj Hl (conj Hi (conj Hw (conj Hm (conj _ _))))))).
    + intros b p [= <- <-]. split; [reflexivity|]. now exists before.
    + discriminate.
Qed.

(** *** From a transcript file to a brief *)

(** A path returned by [process_transcript_file] is that of a brief the
    engine saved. *)
Lemma process_transcript_file_saved (transcript_path : string)
    (model_name : option string) (w : World) :
  match process_transcript_file O cfg transcript_path model_name w with
  | (inl _, _) => True
  | (inr (brief, saved), (_, tr)) =>
      whisper_free tr /\
      forall p,
        saved = Some p ->
        p = os_path_join O (BRIEF_DIR (base cfg))
              (brief_name (video_stem O transcript_path) ++ BRIEF_EXTENSION (base cfg)) /\
        In (BEngine (EvWrite p brief None)) tr
  end.
Proof.
  unfold process_transcript_file.
  destruct (path_exists O transcript_path w); cbn [negb];
    [|split; [constructor | discriminate]].
  destruct (read_text O transcript_path w) as [transcript_text|]; [|exact I].
  set (st := {| Core.self := Core.Processor_init (base cfg) model_name;
                Core.world := w; Core.trace := [] |}).
  unfold Core.process_transcript.
  destruct (generate_steps transcript_text
              (brief_name (video_stem O transcript_path)) st)
    as (evs & T & _ & _ & _ & _ & Hres).
  assert (Hwf : forall l : list (event Handle), whisper_free (List.map (@BEngine Handle) l)).
  { intros l. apply Forall_forall. intros ev Hin. apply in_map_iff in Hin.
    now destruct Hin as (x & <- & _). }
  destruct (Core.generate O (base cfg) transcript_text _ st)
    as [[e|[brief saved]] st']; cbn [fst snd] in *.
  - split; [apply Hwf | discriminate].
  - destruct Hres as (-> & before & Hevs & _). split; [apply Hwf|].
    intros p [= <-]. split; [reflexivity|]. rewrite T, Hevs. cbn [app st Core.trace].
    apply in_map. apply in_app_iff. right. now left.
Qed.

(** X11.  [process_transcript_file] raises only when the transcript that
    was seen to exist cannot be read, and has then done nothing.  When it
    returns it has not run the speech-to-text engine and has probed no
    model but the one asked for (the configured default when none is); a
    path it returns is that of the brief directory under the name of the
    transcript, cut of [_transcript], and the brief returned was saved
    there; without a path the brief is empty; and a transcript that does
    not exist costs no step at all. *)
Theorem transcript_file_outcome (transcript_path : string)
    (model_name : option string) (w : World) :
  match process_transcript_file O cfg transcript_path model_name w with
  | (inl e, (w', tr)) => e = no_such_file transcript_path /\ tr = [] /\ w' = w
  | (inr (brief, saved), (w', tr)) =>
      whisper_free tr /\
      (forall m res,
         In (BEngine (EvLoad m res)) tr ->
         m = or_else model_name (DEFAULT_LLM_MODEL (base cfg))) /\
      (forall p,
         saved = Some p ->
         p = os_path_join O (BRIEF_DIR (base cfg))
               (brief_name (video_stem O transcript_path) ++ BRIEF_EXTENSION (base cfg)) /\
         In (BEngine (EvWrite p brief None)) tr) /\
      (saved = None -> brief = "") /\
      (path_exists O transcript_path w = false -> saved = None /\ tr = [] /\ w' = w)
  end.
Proof.
  pose proof (process_transcript_file_saved transcript_path model_name w) as Hsaved.
  unfold process_transcript_file in *.
  destruct (path_exists O transcript_path w) eqn:Hex; cbn [negb] in *.
  2:{ refine (conj _ (conj _ (conj _ (conj _ _)))).
      - constructor.
      - intros m res [].
      - discriminate.
      - reflexivity.
      - now intros _. }
  destruct (read_text O transcript_path w) as [transcript_text|]; [|now repeat split].
  set (st := {| Core.self := Core.Processor_init (base cfg) model_name;
                Core.world := w; Core.trace := [] |}) in *.
  unfold Core.process_transcript in *.
  destruct (generate_steps transcript_text
              (brief_name (video_stem O transcript_path)) st)
    as (evs & T & _ & _ & _ & Hm & Hres).
  destruct (Core.generate O (base cfg) transcript_text _ st)
    as [[e|[brief saved]] st']; cbn [fst snd] in *;
    destruct Hsaved as (Hwf & Hpath);
    refine (conj Hwf (conj _ (conj Hpath (conj _ _)))); try discriminate;
    try reflexivity.
  - intros m res Hin. apply in_map_iff in Hin. destruct Hin as (x & [= ->] & Hin).
    rewrite T in Hin. apply (Hm _ _ Hin).
  - intros m res Hin. apply in_map_iff in Hin. destruct Hin as (x & [= ->] & Hin).
    rewrite T in Hin. apply (Hm _ _ Hin).
  - destruct Hres as (-> & _). discriminate.
Qed.

(** *** The orchestrator *)

Lemma transcribe_video_steps (video_path : string) (w : World) :
  match transcribe_video O cfg W video_path w with
  | (inl _, (_, tr)) => engine_free tr
  | (inr (text, saved), (_, tr)) =>
      engine_free tr /\
      (forall p, saved = Some p ->
                 p = get_transcript_path O cfg video_path /\ In (BSave p text None) tr)
  end.
Proof.
  unfold transcribe_video, transcribe_file, engine_free.
  destruct (whisper_model W _ _ _ w) as [[msg|] w1]; [now repeat constructor|].
  destruct (path_exists O video_path w1); cbn [negb].
  2:{ split; [now repeat constructor | discriminate]. }
  destruct (transcribe W video_path w1) as [[msg|segments] w2]; [now repeat constructor|].
  fold (get_transcript_path O cfg video_path).
  destruct (write_text O _ (full_transcript segments) w2) as [[err|] w3].
  - split; [now repeat constructor | discriminate].
  - split; [now repeat constructor|]. intros p [= <-]. split; [reflexivity|].
    right. right. now left.
Qed.

Lemma process_video_steps (video_path : string) (model_name : option string)
    (transcribe_only : bool) (w : World) :
  match process_video O cfg W video_path model_name transcribe_only w with
  | (inl _, _) => True
  | (inr (trans_success, brief_success), (w', tr)) =>
      (brief_success = true ->
       trans_success = true /\ transcribe_only = false /\
       exists brief,
         In (BEngine
               (EvWrite
                  (os_path_join O (BRIEF_DIR (base cfg))
                     (brief_name (video_stem O (get_transcript_path O cfg video_path))
                      ++ BRIEF_EXTENSION (base cfg)))
                  brief None)) tr) /\
      (transcribe_only = true -> engine_free tr) /\
      (path_exists O video_path w = false ->
       trans_success = false /\ tr = [] /\ w' = w) /\
      (path_exists O video_path w = true ->
       path_exists O (get_transcript_path O cfg video_path) w = true ->
       trans_success = true /\ whisper_free tr) /\
      (trans_success = true ->
       path_exists O (get_transcript_path O cfg video_path) w = true \/
       exists text, In (BSave (get_transcript_path O cfg video_path) text None) tr)
  end.
Proof.
  unfold process_video.
  destruct (path_exists O video_path w) eqn:Hv; cbn [negb].
  2:{ refine (conj _ (conj _ (conj _ (conj _ _)))); try discriminate.
      - intros _. constructor.
      - now intros _. }
  set (tp := get_transcript_path O cfg video_path).
  destruct (path_exists O tp w) eqn:Ht.
  - (* the transcript exists *)
    destruct (read_file O tp w) as [e|text]; [exact I|].
    destruct transcribe_only; cbn [orb negb].
    + refine (conj _ (conj _ (conj _ (conj _ _)))); try discriminate.
      * intros _. constructor.
      * intros _ _. split; [reflexivity | constructor].
      * intros _. now left.
    + pose proof (process_transcript_file_saved tp model_name w) as Hf.
      destruct (process_transcript_file O cfg tp model_name w)
        as [[e|[brief saved]] [w2 tr2]]; [exact I|].
      destruct Hf as (Hwf & Hsome). cbn [app].
      refine (conj _ (conj _ (conj _ (conj _ _)))); try discriminate.
      * intros Hb. destruct saved as [p|]; [|discriminate].
        destruct (Hsome p eq_refl) as (-> & Hin). repeat split. now exists brief.
      * intros _ _. split; [reflexivity | exact Hwf].
      * intros _. now left.
  - (* the video is transcribed *)
    pose proof (transcribe_video_steps video_path w) as Hs.
    destruct (transcribe_video O cfg W video_path w) as [[e|[text saved]] [w1 tr1]];
      [exact I|].
    destruct Hs as (Hef & Hsaved). fold tp in Hsaved.
    destruct transcribe_only; cbn [orb].
    + refine (conj _ (conj _ (conj _ (conj _ _)))); try discriminate.
      * intros _. exact Hef.
      * intros Hts. right. destruct saved as [p|]; [|discriminate].
        destruct (Hsaved p eq_refl) as (-> & Hin). now exists text.
    + destruct saved as [p|]; cbn [is_some negb].
      * destruct (Hsaved p eq_refl) as (-> & Hin).
        pose proof (process_transcript_file_saved tp model_name w1) as Hf.
        destruct (process_transcript_file O cfg tp model_name w1)
          as [[e|[brief saved2]] [w2 tr2]]; [exact I|].
        destruct Hf as (_ & Hsome).
        refine (conj _ (conj _ (conj _ (conj _ _)))); try discriminate.
        -- intros Hb. destruct saved2 as [p2|]; [|discriminate].
           destruct (Hsome p2 eq_refl) as (-> & Hin2). repeat split.
           exists brief. apply in_app_iff. now right.
        -- intros _. right. exists text. apply in_app_iff. now left.
      * refine (conj _ (conj _ (conj _ (conj _ _)))); discriminate.
Qed.

(** X12.  What the two flags of [process_video] of [main.py] mean.  A
    brief is reported only with a transcript, never under
    [transcribe_only], and only after the engine saved a brief under the
    name of the transcript.  Under [transcribe_only] the brief engine takes
    no step.  A video that does not exist gives two failures and no step.
    A transcript that already exists is a success and the speech-to-text
    engine is not run.  A transcript is reported only if it was there or
    was saved at the transcript path of the video. *)
Theorem process_video_flags (video_path : string) (model_name : option string)
    (transcribe_only trans_success brief_success : bool) (w w' : World)
    (tr : list (bevent Handle)) :
  process_video O cfg W video_path model_name transcribe_only w
    = (inr (trans_success, brief_success), (w', tr)) ->
  (brief_success = true ->
   trans_success = true /\ transcribe_only = false /\
   exists brief,
     In (BEngine
           (EvWrite
              (os_path_join O (BRIEF_DIR (base cfg))
                 (brief_name (video_stem O (get_transcript_path O cfg video_path))
                  ++ BRIEF_EXTENSION (base cfg)))
              brief None)) tr) /\
  (transcribe_only = true -> engine_free tr) /\
  (path_exists O video_path w = false ->
   trans_success = false /\ tr = [] /\ w' = w) /\
  (path_exists O video_path w = true ->
   path_exists O (get_transcript_path O cfg video_path) w = true ->
   trans_success = true /\ whisper_free tr) /\
  (trans_success = true ->
   path_exists O (get_transcript_path O cfg video_path) w = true \/
   exists text, In (BSave (get_transcript_path O cfg video_path) text None) tr).
Proof.
  intros H.
  pose proof (process_video_steps video_path model_name transcribe_only w) as Hs.
  rewrite H in Hs. exact Hs.
Qed.

(** *** The batch *)

Lemma count_all_steps (video_files : list string) (model_name : option string)
    (transcribe_only : bool) :
  forall (w : World) (t0 b0 : nat),
    match count_all O cfg W video_files model_name transcribe_only w t0 b0 with
    | (inl _, _) => True
    | (inr (t, b), _) =>
        t0 <= t /\ b0 <= b /\ t - t0 <= List.length video_files /\
        b - b0 <= t - t0 /\ (transcribe_only = true -> b = b0)
    end.
Proof.
  induction video_files as [|video_path rest IH]; intros w t0 b0; cbn [count_all].
  - cbn. repeat split; lia.
  - pose proof (process_video_steps video_path model_name transcribe_only w) as Hs.
    destruct (process_video O cfg W video_path model_name transcribe_only w)
      as [[e|[ts bs]] [w' tr]]; [exact I|].
    destruct Hs as (Hb & Hone & _).
    specialize (IH w' (if ts then S t0 else t0) (if bs then S b0 else b0)).
    destruct (count_all O cfg W rest model_name transcribe_only w' _ _)
      as [[e|[t b]] w'']; [exact I|].
    destruct IH as (Ht & Hbb & Hlen & Hdiff & Honly). cbn [List.length].
    assert (Hflags : bs = true -> ts = true /\ transcribe_only = false).
    { intros E. destruct (Hb E) as (? & ? & _). now split. }
    destruct bs, ts; try (destruct (Hflags eq_refl); discriminate);
      (split; [lia|]); (split; [lia|]); (split; [lia|]); (split; [lia|]);
      intros E; try (destruct (Hflags eq_refl); congruence);
      specialize (Honly E); lia.
Qed.

(** X13.  The three counts of [process_all_videos] of [main.py]: the first
    is the number of videos, the briefs are at most the transcriptions,
    which are at most the videos, and under [transcribe_only] no brief is
    counted. *)
Theorem process_all_videos_counts (video_files : list string)
    (model_name : option string) (transcribe_only : bool) (w w' : World)
    (total transcriptions briefs : nat) :
  process_all_videos O cfg W video_files model_name transcribe_only w
    = (inr (total, transcriptions, briefs), w') ->
  total = List.length video_files /\
  briefs <= transcriptions /\ transcriptions <= total /\
  (transcribe_only = true -> briefs = 0).
Proof.
  unfold process_all_videos. intros H.
  pose proof (count_all_steps video_files model_name transcribe_only w 0 0) as Hs.
  destruct (count_all O cfg W video_files model_name transcribe_only w 0 0)
    as [[e|[t b]] w'']; [discriminate|].
  injection H as <- <- <- <-.
  destruct Hs as (_ & _ & Hlen & Hdiff & Honly).
  repeat split; try lia. intros E. specialize (Honly E). lia.
Qed.

End Transcripts.

(** X12 on the scripted gateway: the transcript is there, the brief is
    saved, and the speech-to-text engine is not run. *)
Lemma process_video_flags_witness :
  exists w' tr,
    process_video Demo.oracles DemoBatch.cfg (DemoBatch.whisper ["hello"]) "clip" None false
      DemoBatch.world
    = (inr (true, true), (w', tr)) /\
    whisper_free tr /\
    exists brief, In (BEngine (EvWrite "archive/transcripts/clip.txt.md" brief None)) tr.
Proof.
  eassert (E : process_video Demo.oracles DemoBatch.cfg (DemoBatch.whisper ["hello"])
                 "clip" None false DemoBatch.world
               = (inr (true, true), (_, _))) by (vm_compute; reflexivity).
  destruct (@process_video_flags _ _ Demo.oracles DemoBatch.cfg (DemoBatch.whisper ["hello"])
              "clip" None false true true _ _ _ E) as (Hb & _ & _ & Ht & _).
  destruct (Hb eq_refl) as (_ & _ & Hsaved).
  destruct (Ht eq_refl eq_refl) as (_ & Hwf).
  eexists. eexists. split; [exact E|]. split; [exact Hwf | exact Hsaved].
Defined.

(** X13 on the scripted gateway: of the two videos one exists. *)
Lemma process_all_videos_witness :
  exists w',
    process_all_videos Demo.oracles DemoBatch.cfg (DemoBatch.whisper ["hello"])
      ["clip"; "missing"] None false DemoBatch.world
    = (inr (2, 1, 1), w') /\
    1 <= 1 /\ 1 <= 2.
Proof.
  eassert (E : process_all_videos Demo.oracles DemoBatch.cfg (DemoBatch.whisper ["hello"])
                 ["clip"; "missing"] None false DemoBatch.world
               = (inr (2, 1, 1), _)) by (vm_compute; reflexivity).
  destruct (@process_all_videos_counts _ _ Demo.oracles DemoBatch.cfg
              (DemoBatch.whisper ["hello"]) ["clip"; "missing"] None false _ _ _ _ _ E)
    as (_ & Hb & Ht & _).
  eexists. split; [exact E|]. split; [exact Hb | exact Ht].
Defined.

End BatchFacts.

(** ** The configuration loader *)

Module SettingsFacts.
Import Settings.

Lemma get_set_same (key : string) (value : json) (d : dict) :
  get key (set key value d) = Some value.
Proof.
  induction d as [|[k v] rest IH]; cbn.
  - now rewrite String.eqb_refl.
  - destruct (String.eqb key k) eqn:E; cbn; rewrite E; [reflexivity | exact IH].
Qed.

Lemma get_set_other (key key' : string) (value : json) (d : dict) :
  key <> key' -> get key (set key' value d) = get key d.
Proof.
  intros Hne. induction d as [|[k v] rest IH]; cbn.
  - apply String.eqb_neq in Hne. now rewrite Hne.
  - destruct (String.eqb key' k) eqn:E; cbn.
    + apply String.eqb_eq in E. subst k.
      apply String.eqb_neq in Hne. now rewrite Hne.
    + now rewrite IH.
Qed.

Lemma get_absent (key : string) (d : dict) : ~ In key (keys d) -> get key d = None.
Proof.
  induction d as [|[k v] rest IH]; cbn; [reflexivity|]. intros H.
  destruct (String.eqb key k) eqn:E.
  - apply String.eqb_eq in E. subst. now destruct H; left.
  - apply IH. intros Hin. apply H. now right.
Qed.

(** Copying the items of a dictionary into another one: the copied keys
    answer as in the source, the others as before. *)
Lemma get_copy_items (key : string) (items : dict) :
  NoDup (keys items) ->
  forall flat,
    get key (copy_items items flat)
    = match get key items with Some v => Some v | None => get key flat end.
Proof.
  unfold copy_items.
  induction items as [|[k v] rest IH]; intros Hnd flat; cbn; [reflexivity|].
  inversion Hnd as [|k0 ks Hnotin Hrest]; subst.
  rewrite (IH Hrest). destruct (String.eqb key k) eqn:E.
  - apply String.eqb_eq in E. subst key.
    now rewrite (get_absent _ _ Hnotin), get_set_same.
  - apply String.eqb_neq in E. now rewrite (get_set_other _ _ E).
Qed.

Lemma section_inv (config : dict) (key : string) (items : dict) :
  section config key = inr items <-> get key config = Some (JDict items).
Proof.
  unfold section. destruct (get key config) as [[]|]; split; intros H;
    try discriminate; now injection H as ->.
Qed.

Lemma path_setting_error (config : json) (key default : string) (e : error) :
  path_setting config key default = inl e -> e = AttributeError.
Proof.
  unfold path_setting. destruct config as [| | | | |items]; try now intros [= <-].
  destruct (match get "PATHS" items with Some p => p | None => JDict [] end);
    try discriminate; now intros [= <-].
Qed.

(** The flat dictionary [load_config] builds from the three sections. *)
Lemma load_config_steps (E : Env) (config : dict) :
  forall input_dir brief_dir,
    path_setting (JDict config) "INPUT_DIR" "~/Downloads" = inr (JStr input_dir) ->
    path_setting (JDict config) "BRIEF_DIR" "archive" = inr (JStr brief_dir) ->
    load_config E (inr (JDict config))
    = match mkdir E (joinpath E (base_dir E) brief_dir) with
      | Some msg => inl (MkdirError msg)
      | None =>
          match section config "LLM_CONFIG" with
          | inl e => inl e
          | inr llm =>
              match section config "FILE_EXTENSIONS" with
              | inl e => inl e
              | inr extensions =>
                  inr (copy_items extensions
                         (match get "FALLBACK_MODELS" llm with
                          | Some models =>
                              set "FALLBACK_MODELS" models
                                (copy_items llm
                                   (copy_items (dynamic_paths E input_dir brief_dir) []))
                          | None =>
                              copy_items llm
                                (copy_items (dynamic_paths E input_dir brief_dir) [])
                          end))
              end
          end
      end.
Proof.
  intros input_dir brief_dir H1 H2. unfold load_config. rewrite H1, H2.
  unfold section at 1. rewrite get_set_same.
  cbn [dynamic_paths get String.eqb Ascii.eqb Bool.eqb].
  destruct (mkdir E (joinpath E (base_dir E) brief_dir)); [reflexivity|].
  unfold section. rewrite !get_set_other by discriminate. reflexivity.
Qed.

Lemma load_config_inv (E : Env) (loaded : string + json) (flat : dict) :
  load_config E loaded = inr flat ->
  exists config input_dir brief_dir,
    loaded = inr (JDict config) /\
    path_setting (JDict config) "INPUT_DIR" "~/Downloads" = inr (JStr input_dir) /\
    path_setting (JDict config) "BRIEF_DIR" "archive" = inr (JStr brief_dir).
Proof.
  unfold load_config. destruct loaded as [msg|config]; [discriminate|].
  destruct (path_setting config "INPUT_DIR" "~/Downloads") as [e|[]] eqn:H1;
    try discriminate.
  destruct (path_setting config "BRIEF_DIR" "archive") as [e|[]] eqn:H2;
    try discriminate.
  destruct config as [| | | | |items]; try discriminate. intros _.
  exists items. eexists. eexists. split; [reflexivity|]. split; [exact H1 | exact H2].
Qed.

(** X16.  The dictionary [load_config] returns answers a key from the
    [FILE_EXTENSIONS] section of the file first, then from [LLM_CONFIG],
    then from the four paths it computes itself: the project directory,
    the expanded [INPUT_DIR] (by default [~/Downloads]), [BRIEF_DIR] under
    the project directory (by default [archive]), which is the directory
    created, and the system prompt under [config].  Nothing else of the
    [PATHS] section of the file is kept, and a [FALLBACK_MODELS] of
    [FILE_EXTENSIONS] replaces that of [LLM_CONFIG]. *)
Theorem load_config_lookup (E : Env) (config flat : dict) :
  load_config E (inr (JDict config)) = inr flat ->
  distinct_keys config "LLM_CONFIG" ->
  distinct_keys config "FILE_EXTENSIONS" ->
  exists input_dir brief_dir llm extensions,
    path_setting (JDict config) "INPUT_DIR" "~/Downloads" = inr (JStr input_dir) /\
    path_setting (JDict config) "BRIEF_DIR" "archive" = inr (JStr brief_dir) /\
    get "LLM_CONFIG" config = Some (JDict llm) /\
    get "FILE_EXTENSIONS" config = Some (JDict extensions) /\
    mkdir E (joinpath E (base_dir E) brief_dir) = None /\
    forall key,
      get key flat
      = first_of (get key extensions) (get key llm)
          (get key (dynamic_paths E input_dir brief_dir)).
Proof.
  intros Hrun Hllm Hext.
  destruct (load_config_inv _ _ Hrun) as (c & input_dir & brief_dir & Hc & H1 & H2).
  injection Hc as <-.
  rewrite (load_config_steps E config H1 H2) in Hrun.
  destruct (mkdir E (joinpath E (base_dir E) brief_dir)) eqn:Hm; [discriminate|].
  destruct (section config "LLM_CONFIG") as [e|llm] eqn:Sl; [discriminate|].
  destruct (section config "FILE_EXTENSIONS") as [e|extensions] eqn:Se; [discriminate|].
  apply section_inv in Sl, Se. unfold distinct_keys in Hllm, Hext.
  rewrite Sl in Hllm. rewrite Se in Hext.
  exists input_dir, brief_dir, llm, extensions.
  refine (conj H1 (conj H2 (conj Sl (conj Se (conj Hm _))))).
  intros key. injection Hrun as <-. rewrite (@get_copy_items key _ Hext).
  unfold first_of. destruct (get key extensions); [reflexivity|].
  assert (Hpaths : NoDup (keys (dynamic_paths E input_dir brief_dir))).
  { cbn. repeat constructor; cbn; intuition discriminate. }
  assert (Hbase : forall k,
             get k (copy_items llm (copy_items (dynamic_paths E input_dir brief_dir) []))
             = match get k llm with
               | Some v => Some v
               | None => get k (dynamic_paths E input_dir brief_dir)
               end).
  { intros k. rewrite (@get_copy_items k _ Hllm), (@get_copy_items k _ Hpaths).
    destruct (get k llm); [reflexivity|].
    now destruct (get k (dynamic_paths E input_dir brief_dir)). }
  destruct (get "FALLBACK_MODELS" llm) as [models|] eqn:Hfm; [|apply Hbase].
  destruct (String.eqb key "FALLBACK_MODELS") eqn:Ek.
  - apply String.eqb_eq in Ek. subst key. now rewrite get_set_same, Hfm.
  - apply String.eqb_neq in Ek. rewrite (get_set_other _ _ Ek). apply Hbase.
Qed.

(** X17.  [load_config] returns exactly when the file parsed into an
    object whose [PATHS], if there, is an object with texts (or nothing)
    for [INPUT_DIR] and [BRIEF_DIR], whose [LLM_CONFIG] and
    [FILE_EXTENSIONS] are objects, and the brief directory could be
    created.  [PATHS] may be missing; a [KeyError] names one of the two
    other sections, which is then missing from the file. *)
Theorem load_config_returns (E : Env) (loaded : string + json) :
  ((exists flat, load_config E loaded = inr flat) <->
   exists config input_dir brief_dir llm extensions,
     loaded = inr (JDict config) /\
     path_setting (JDict config) "INPUT_DIR" "~/Downloads" = inr (JStr input_dir) /\
     path_setting (JDict config) "BRIEF_DIR" "archive" = inr (JStr brief_dir) /\
     mkdir E (joinpath E (base_dir E) brief_dir) = None /\
     get "LLM_CONFIG" config = Some (JDict llm) /\
     get "FILE_EXTENSIONS" config = Some (JDict extensions)) /\
  (forall key,
     load_config E loaded = inl (KeyError key) ->
     exists config,
       loaded = inr (JDict config) /\ get key config = None /\
       (key = "LLM_CONFIG" \/ key = "FILE_EXTENSIONS")).
Proof.
  split; [split|].
  - intros (flat & Hrun).
    destruct (load_config_inv _ _ Hrun) as (config & input_dir & brief_dir & -> & H1 & H2).
    rewrite (load_config_steps E config H1 H2) in Hrun.
    destruct (mkdir E (joinpath E (base_dir E) brief_dir)) eqn:Hm; [discriminate|].
    destruct (section config "LLM_CONFIG") as [e|llm] eqn:Sl; [discriminate|].
    destruct (section config "FILE_EXTENSIONS") as [e|extensions] eqn:Se; [discriminate|].
    apply section_inv in Sl, Se.
    exists config, input_dir, brief_dir, llm, extensions. now repeat split.
  - intros (config & input_dir & brief_dir & llm & extensions
            & -> & H1 & H2 & Hm & Hl & He).
    rewrite (load_config_steps E config H1 H2), Hm.
    apply section_inv in Hl, He. rewrite Hl, He. now eexists.
  - intros key Hrun.
    destruct loaded as [msg|config]; [discriminate|].
    destruct (path_setting config "INPUT_DIR" "~/Downloads") as [e|v1] eqn:H1.
    { unfold load_config in Hrun. rewrite H1 in Hrun.
      apply path_setting_error in H1. subst e. discriminate. }
    destruct v1 as [| | |input_dir| |];
      try (unfold load_config in Hrun; rewrite H1 in Hrun; discriminate).
    destruct (path_setting config "BRIEF_DIR" "archive") as [e|v2] eqn:H2.
    { unfold load_config in Hrun. rewrite H1, H2 in Hrun.
      apply path_setting_error in H2. subst e. discriminate. }
    destruct v2 as [| | |brief_dir| |];
      try (unfold load_config in Hrun; rewrite H1, H2 in Hrun; discriminate).
    destruct config as [| | | | |config]; try discriminate.
    rewrite (load_config_steps E config H1 H2) in Hrun.
    destruct (mkdir E (joinpath E (base_dir E) brief_dir)); [discriminate|].
    exists config. split; [reflexivity|].
    unfold section in Hrun.
    destruct (get "LLM_CONFIG" config) as [[]|] eqn:Gl; try discriminate.
    + destruct (get "FILE_EXTENSIONS" config) as [[]|] eqn:Ge; try discriminate.
      injection Hrun as <-. split; [exact Ge | now right].
    + injection Hrun as <-. split; [exact Gl | now left].
Qed.

(** X16 on a configuration file: the extension of [FILE_EXTENSIONS] wins,
    the model comes from [LLM_CONFIG], the system prompt of the file is
    not kept. *)
Lemma load_config_witness :
  exists flat,
    load_config demo_env (inr (JDict demo_config)) = inr flat /\
    get "BRIEF_EXTENSION" flat = Some (JStr ".md") /\
    get "DEFAULT_LLM_MODEL" flat = Some (JStr "gemini-2.5-pro") /\
    get "SYSTEM_PROMPT_PATH" flat = Some (JStr "/app/config/system_prompt.txt") /\
    get "BRIEF_DIR" flat = Some (JStr "/app/out") /\
    get "FALLBACK_MODELS" flat = Some (JList []).
Proof.
  eassert (Hrun : load_config demo_env (inr (JDict demo_config)) = inr _)
    by (vm_compute; reflexivity).
  assert (Hl : distinct_keys demo_config "LLM_CONFIG").
  { cbn. repeat constructor; cbn; intuition discriminate. }
  assert (He : distinct_keys demo_config "FILE_EXTENSIONS").
  { cbn. repeat constructor; cbn; intuition discriminate. }
  destruct (@load_config_lookup demo_env _ _ Hrun Hl He)
    as (input_dir & brief_dir & llm & extensions & H1 & H2 & Gl & Ge & _ & Hget).
  injection H1 as <-. injection H2 as <-. injection Gl as <-. injection Ge as <-.
  eexists. split; [exact Hrun|].
  rewrite !Hget. repeat split.
Defined.

End SettingsFacts.
